(** * publish_pipeline.py: geometry of the print wrap cover

    A shallow embedding of the unit conversion, the spine estimate and the
    panel layout of [generate_print_wrap_cover_a8], with the text drawing
    calls on the front cover.  Python's [float] is IEEE 754 binary64, which
    is Rocq's primitive [float]; Python's [int] is [Z].  What the float
    operations compute is read off their specification in [SpecFloat], in
    terms of real numbers. *)

From Stdlib Require Import ZArith Lia Bool List String Ascii.
From Stdlib Require Import Floats.
From Stdlib Require Import Reals Lra.
Import ListNotations.

Set Warnings "-inexact-float".

Open Scope Z_scope.

(** * Python values *)

(** ** Python exceptions raised on the modelled paths *)

Inductive PyError : Set :=
| OverflowError       (* float infinity to int, int too large for a float *)
| ValueError          (* float NaN to int, a negative size of an image *)
| ZeroDivisionError   (* int / 0 *)
| MemoryError.        (* no room for an image *)

Inductive result (A : Type) : Type :=
| Ok (a : A)
| Raise (e : PyError).
Arguments Ok {A} a.
Arguments Raise {A} e.

Definition bind {A B : Type} (r : result A) (k : A -> result B) : result B :=
  match r with
  | Ok a => k a
  | Raise e => Raise e
  end.

Notation "x <- r ;; k" := (bind r (fun x => k))
  (at level 61, r at next level, right associativity).

(** ** Python numbers *)

Module Py.

(** [float(n)] for an [int], as the mixed operators [float * int] do it:
    the nearest binary64 number, [OverflowError] beyond the range. *)
Definition float_of_int (n : Z) : result float :=
  match binary_normalize prec emax n 0 false with
  | S754_infinity _ => Raise OverflowError
  | sf => Ok (SF2Prim sf)
  end.

(** Nearest integer to [m * 2^e], exact halves to the even neighbour. *)
Definition round_half_even_pos (m : positive) (e : Z) : Z :=
  match e with
  | Zneg p =>
      let d := 2 ^ Zpos p in
      let q := Zpos m / d in
      let r := Zpos m mod d in
      match 2 * r ?= d with
      | Lt => q
      | Gt => q + 1
      | Eq => if Z.even q then q else q + 1
      end
  | _ => Zpos m * 2 ^ e
  end.

(** [round(x)] with one argument: an [int]. *)
Definition round (x : float) : result Z :=
  match Prim2SF x with
  | S754_nan => Raise ValueError
  | S754_infinity _ => Raise OverflowError
  | S754_zero _ => Ok 0
  | S754_finite s m e =>
      let n := round_half_even_pos m e in
      Ok (if s then - n else n)
  end.

(** [int(x)] of a [float]: truncation towards zero. *)
Definition int_of_float (x : float) : result Z :=
  match Prim2SF x with
  | S754_nan => Raise ValueError
  | S754_infinity _ => Raise OverflowError
  | S754_zero _ => Ok 0
  | S754_finite s m e =>
      let n := match e with
               | Zneg p => Zpos m / 2 ^ Zpos p
               | _ => Zpos m * 2 ^ e
               end in
      Ok (if s then - n else n)
  end.

(** [a / b] on two [int]s: the correctly rounded quotient. *)
Definition truediv_int (a b : Z) : result float :=
  match a, b with
  | _, 0 => Raise ZeroDivisionError
  | 0, _ => Ok (if b <? 0 then neg_zero else zero)
  | _, _ =>
      let '(q, e, l) := SFdiv_core_binary prec emax (Z.abs a) 0 (Z.abs b) 0 in
      match binary_round_aux prec emax (xorb (a <? 0) (b <? 0)) q e l with
      | S754_infinity _ => Raise OverflowError
      | sf => Ok (SF2Prim sf)
      end
  end.

(** [str.isspace] on the code points below 256. *)
Definition isspace (c : ascii) : bool :=
  let n := Z.of_nat (nat_of_ascii c) in
  ((9 <=? n) && (n <=? 13)) || ((28 <=? n) && (n <=? 32))
  || (n =? 133) || (n =? 160).

Fixpoint lstrip (s : string) : string :=
  match s with
  | EmptyString => EmptyString
  | String c t => if isspace c then lstrip t else s
  end.

Fixpoint rstrip (s : string) : string :=
  match s with
  | EmptyString => EmptyString
  | String c t =>
      match rstrip t with
      | EmptyString => if isspace c then EmptyString else String c EmptyString
      | t' => String c t'
      end
  end.

Definition strip (s : string) : string := rstrip (lstrip s).

(** [s.split(sep)] for a one-character separator: never the empty list. *)
Fixpoint split (sep : ascii) (s : string) : list string :=
  match s with
  | EmptyString => [EmptyString]
  | String c t =>
      if Ascii.eqb c sep then EmptyString :: split sep t
      else match split sep t with
           | [] => [String c EmptyString]
           | w :: ws => String c w :: ws
           end
  end.

End Py.

(** * The program *)

(** ** Utility functions *)

Definition mm_to_px (mm : float) (dpi : Z) : result Z :=
  d <- Py.float_of_int dpi ;;
  Py.round (mm / 25.4 * d)%float.

Definition compute_spine_width_mm (page_count : Z) (thickness_per_page_mm : float)
  : result float :=
  n <- Py.float_of_int page_count ;;
  Ok (n * thickness_per_page_mm)%float.

(** ** Cover generation: [generate_print_wrap_cover_a8] *)

(** The numeric parameters of the call. *)
Record CoverSpec : Set := {
  width_mm : float;
  height_mm : float;
  bleed_mm : float;
  dpi : Z;
  page_count : Z;
  thickness_per_page_mm : float
}.

Definition A8_MM : float * float := (52, 74)%float.
Definition DEFAULT_BLEED_MM : float := 3.
Definition DEFAULT_DPI : Z := 300.
Definition DEFAULT_PAPER_THICKNESS_MM_PER_PAGE : float := 0.0025.

(** The call with every default, for a book of [n] pages. *)
Definition default_spec (n : Z) : CoverSpec :=
  {| width_mm := fst A8_MM; height_mm := snd A8_MM;
     bleed_mm := DEFAULT_BLEED_MM; dpi := DEFAULT_DPI;
     page_count := n;
     thickness_per_page_mm := DEFAULT_PAPER_THICKNESS_MM_PER_PAGE |}.

Definition full_w_mm (s : CoverSpec) (spine_mm : float) : float :=
  (width_mm s * 2 + spine_mm + 2 * bleed_mm s)%float.

Definition full_h_mm (s : CoverSpec) : float :=
  (height_mm s + 2 * bleed_mm s)%float.

(** The pixel quantities the function computes before it draws. *)
Record Layout : Set := {
  full_w_px : Z;
  full_h_px : Z;
  bleed_px : Z;
  page_w_px : Z;
  page_h_px : Z;
  spine_px : Z;
  back_cover_x : Z;
  spine_x : Z;
  front_cover_x : Z
}.

(** Lines 160 to 189: the spine estimate, the full size and its conversion
    to pixels, the creation of the canvas, then the other conversions, in
    the order the function makes them (the bleed is converted twice), and
    the three horizontal offsets.

    [Image.new("RGB", (full_w_px, full_h_px), ...)] at line 173 belongs to
    the imaging library: it is taken as a parameter, a function of the width
    and the height of the canvas that returns or raises.  The image it
    returns and the drawing context made from it take no part in the
    computations that follow. *)
Definition layout (image_new : Z -> Z -> result unit) (s : CoverSpec)
  : result Layout :=
  spine_mm <- compute_spine_width_mm (page_count s) (thickness_per_page_mm s) ;;
  full_w <- mm_to_px (full_w_mm s spine_mm) (dpi s) ;;
  full_h <- mm_to_px (full_h_mm s) (dpi s) ;;
  _ <- image_new full_w full_h ;;
  back_x <- mm_to_px (bleed_mm s) (dpi s) ;;
  bleed <- mm_to_px (bleed_mm s) (dpi s) ;;
  page_w <- mm_to_px (width_mm s) (dpi s) ;;
  page_h <- mm_to_px (height_mm s) (dpi s) ;;
  spine <- mm_to_px spine_mm (dpi s) ;;
  let back_cover := 0 + bleed in
  let spine_start := back_cover + page_w in
  let front_cover := spine_start + spine in
  Ok {| full_w_px := full_w; full_h_px := full_h; bleed_px := bleed;
        page_w_px := page_w; page_h_px := page_h; spine_px := spine;
        back_cover_x := back_cover; spine_x := spine_start;
        front_cover_x := front_cover |}.

(** A panel: where it starts and how far it extends, as the three
    [draw.rectangle([x, y, x + w, y + h])] calls give them. *)
Record PanelRect : Set := {
  x_px : Z;
  y_px : Z;
  width_px : Z;
  height_px : Z
}.

Definition back (l : Layout) : PanelRect :=
  {| x_px := back_cover_x l; y_px := bleed_px l;
     width_px := (back_cover_x l + page_w_px l) - back_cover_x l;
     height_px := (bleed_px l + page_h_px l) - bleed_px l |}.

Definition spine (l : Layout) : PanelRect :=
  {| x_px := spine_x l; y_px := bleed_px l;
     width_px := (spine_x l + spine_px l) - spine_x l;
     height_px := (bleed_px l + page_h_px l) - bleed_px l |}.

Definition front (l : Layout) : PanelRect :=
  {| x_px := front_cover_x l; y_px := bleed_px l;
     width_px := (front_cover_x l + page_w_px l) - front_cover_x l;
     height_px := (bleed_px l + page_h_px l) - bleed_px l |}.

(** *** Text on the front cover

    [draw.textsize(text, font)] belongs to the imaging library: it is taken
    as a parameter, a function of the text and of the pixel size the font
    was loaded at. *)

Record TextCall : Set := {
  tc_x : float;
  tc_y : Z;
  tc_text : string;
  tc_font_size : Z;
  tc_fill : Z * Z * Z
}.

Section FrontCoverText.

Variable textsize : string -> Z -> Z * Z.

(** [int(page_h_px * ratio)] *)
Definition scaled (page_h : Z) (ratio : float) : result Z :=
  h <- Py.float_of_int page_h ;;
  Py.int_of_float (h * ratio)%float.

(** [front_cover_x + (page_w_px - w) / 2] *)
Definition centered_x (l : Layout) (w : Z) : result float :=
  half <- Py.truediv_int (page_w_px l - w) 2 ;;
  fx <- Py.float_of_int (front_cover_x l) ;;
  Ok (fx + half)%float.

(** The loop over [title_lines]: one [draw.text] call per line. *)
Fixpoint draw_title_lines (l : Layout) (font_title : Z) (title_lines : list string)
    (y_start : Z) : result (list TextCall) :=
  match title_lines with
  | [] => Ok []
  | line :: rest =>
      let '(w, h) := textsize line font_title in
      x <- centered_x l w ;;
      calls <- draw_title_lines l font_title rest (y_start + (h + 6)) ;;
      Ok ({| tc_x := x; tc_y := y_start; tc_text := line;
             tc_font_size := font_title; tc_fill := (20, 20, 20) |} :: calls)
  end.

(** Lines 199 to 216: the [draw.text] calls on the cover canvas, in the
    order they are made. *)
Definition front_cover_text (l : Layout) (title author : string)
  : result (list TextCall) :=
  t <- scaled (page_h_px l) 0.12 ;;
  let font_title := Z.max 12 t in
  a <- scaled (page_h_px l) 0.07 ;;
  let font_author := Z.max 10 a in
  let title_lines := Py.split "010" (Py.strip title) in
  off <- scaled (page_h_px l) 0.18 ;;
  let y_start := bleed_px l + off in
  calls <- draw_title_lines l font_title title_lines y_start ;;
  let author_text := ("By " ++ author)%string in
  let '(w, h) := textsize author_text font_author in
  ax <- centered_x l w ;;
  low <- scaled (page_h_px l) 0.12 ;;
  let ay := bleed_px l + page_h_px l - low in
  Ok (calls ++ [{| tc_x := ax; tc_y := ay; tc_text := author_text;
                   tc_font_size := font_author; tc_fill := (60, 60, 60) |}]).

End FrontCoverText.

(** * Vocabulary of the properties *)

(** A valid request: positive resolution and trim size, nothing negative. *)
Definition valid_spec (s : CoverSpec) : Prop :=
  0 < dpi s /\ 0 <= page_count s
  /\ (0 <? width_mm s)%float = true /\ (0 <? height_mm s)%float = true
  /\ (0 <=? bleed_mm s)%float = true
  /\ (0 <=? thickness_per_page_mm s)%float = true.


(** ** Requests and layouts the properties are tried on *)

(** A request with a trim width of 0 mm. *)
Definition zero_width_spec : CoverSpec :=
  {| width_mm := 0; height_mm := 74; bleed_mm := 3; dpi := 300;
     page_count := 120; thickness_per_page_mm := 0.0025 |}.

(** The default A8 request for 120 pages at a resolution of -300. *)
Definition negative_dpi_spec : CoverSpec :=
  {| width_mm := 52; height_mm := 74; bleed_mm := 3; dpi := -300;
     page_count := 120; thickness_per_page_mm := 0.0025 |}.

(** An imaging library with room for every canvas: like Pillow it refuses a
    negative width or height with [ValueError], and it creates every other
    canvas. *)
Definition roomy_image_new (width height : Z) : result unit :=
  if (width <? 0) || (height <? 0) then Raise ValueError else Ok tt.

(** A length of a little more than half a pixel at 72 dpi: the float just
    above 12.7 / 72 mm. *)
Definition half_pixel_mm : float := 0x1.693e93e93e93fp-3.

(** The layout of the default A8 request for 120 pages. *)
Definition default_layout : Layout :=
  {| full_w_px := 1303; full_h_px := 945; bleed_px := 35;
     page_w_px := 614; page_h_px := 874; spine_px := 4;
     back_cover_x := 35; spine_x := 649; front_cover_x := 653 |}.

(** Text metrics that measure every string as empty. *)
Definition no_extent (text : string) (font_size : Z) : Z * Z := (0, 0).

(** The text calls on that layout for an empty title and an empty author. *)
Definition empty_cover_calls : list TextCall :=
  [ {| tc_x := 960; tc_y := 192; tc_text := ""; tc_font_size := 104;
       tc_fill := (20, 20, 20) |};
    {| tc_x := 960; tc_y := 805; tc_text := "By "; tc_font_size := 61;
       tc_fill := (60, 60, 60) |} ].

(** ** Real values of binary64 floats

    A float is read as the real number [m * 2^e]; rounding is described on
    real numbers, first to an integer and then to the format. *)

(** [2^e] as a real number, for every integer [e]. *)
Definition bpow (e : Z) : R := powerRZ 2 e.

(** [x] lies in the unit interval that starts at [m], at location [l]. *)
Definition inbetween (m : Z) (x : R) (l : location) : Prop :=
  match l with
  | loc_Exact => x = IZR m
  | loc_Inexact Lt => (IZR m < x < IZR m + / 2)%R
  | loc_Inexact Eq => x = (IZR m + / 2)%R
  | loc_Inexact Gt => (IZR m + / 2 < x < IZR m + 1)%R
  end.

(** [n] is the integer nearest to [x], the even one of the two when [x] lies
    half-way. *)
Definition rne (x : R) (n : Z) : Prop :=
  (IZR n - / 2 <= x <= IZR n + / 2)%R
  /\ ((x = IZR n - / 2 \/ x = IZR n + / 2)%R -> Z.even n = true).

(** The exponent binary64 gives to a number below [2^k], and the smallest
    exponent of the format. *)
Abbreviation fexp64 := (fexp prec emax).
Abbreviation emin64 := (-1074).

(** [E] is the exponent of the format at the magnitude of [v]. *)
Definition cexp_of (v : R) (E : Z) : Prop :=
  exists K, E = fexp64 K /\ (v < bpow K)%R /\ ((bpow (K - 1) <= v)%R \/ E = emin64).

(** [r] is [v] rounded to the format: to the nearest multiple of the unit
    at its magnitude, halves to even. *)
Definition rounds_to (v r : R) : Prop :=
  exists E n, cexp_of v E /\ rne (v * bpow (- E)) n /\ r = (IZR n * bpow E)%R.

(** The second half of [binary_round_aux]: the rounded mantissa is brought
    back into the format and the exponent is tested against the range. *)
Definition renormalize (s : bool) (n F : Z) : spec_float :=
  let '(mrs, e) := shr_fexp prec emax n F loc_Exact in
  match shr_m mrs with
  | 0 => S754_zero s
  | Zpos m => if e <=? emax - prec then S754_finite s m e else S754_infinity s
  | Zneg _ => S754_nan
  end.

(** The real number a float stands for; 0 for infinities and NaN. *)
Definition SF2R (x : spec_float) : R :=
  match x with
  | S754_finite s m e =>
      if s then (- (IZR (Zpos m) * bpow e))%R else (IZR (Zpos m) * bpow e)%R
  | _ => 0%R
  end.

(** The size of a float, whatever its sign. *)
Definition SFmag (x : spec_float) : R :=
  match x with
  | S754_finite _ m e => (IZR (Zpos m) * bpow e)%R
  | _ => 0%R
  end.

(** Zero or a finite number. *)
Definition sf_finite (x : spec_float) : bool :=
  match x with
  | S754_zero _ | S754_finite _ _ _ => true
  | _ => false
  end.

(** Not negative: a zero of either sign, a positive number, or NaN (which no
    conversion to [int] accepts). *)
Definition sf_nonneg (x : spec_float) : Prop :=
  match x with
  | S754_nan | S754_zero _ => True
  | S754_infinity s | S754_finite s _ _ => s = false
  end.

(** [x] is what the non-negative number [v] rounds to. *)
Definition approx (v : R) (x : spec_float) : Prop :=
  exists r, rounds_to v r /\
    match x with
    | S754_zero _ => r = 0%R
    | S754_finite s m e =>
        s = false /\ r = (IZR (Zpos m) * bpow e)%R
        /\ SpecFloat.bounded prec emax m e = true
    | S754_infinity s => s = false /\ (bpow emax <= r)%R
    | S754_nan => False
    end.

(** [x1] is at most [x2], where everything that is not finite counts as
    above every number. *)
Definition sf_le (x1 x2 : spec_float) : Prop :=
  sf_finite x2 = true -> sf_finite x1 = true /\ (SF2R x1 <= SF2R x2)%R.

(** The value of a float, and whether it has one. *)
Definition F2R (x : float) : R := SF2R (Prim2SF x).

Definition isfinite (x : float) : bool := sf_finite (Prim2SF x).

(** A float between -1 and 1. *)
Definition small_ratio (r : float) : bool :=
  match Prim2SF r with
  | S754_zero _ => true
  | S754_finite _ m e => (e <=? 0) && (Zpos m <=? 2 ^ (- e))
  | _ => false
  end.

(** * The rest of the program *)

(** ** Cover generation: [generate_ebook_cover] *)

Definition AMAZON_LONG_SIDE_PX : Z := 1600.

(** Lines 114 to 121: the pixel size [(width, height)] of the cover.  The
    quotient of the two [int]s is taken first, then [long_side_px] is made a
    [float] for the product. *)
Definition ebook_cover_size (aspect_w aspect_h long_side_px : Z) : result (Z * Z) :=
  if aspect_h >=? aspect_w then
    let height := long_side_px in
    ratio <- Py.truediv_int aspect_w aspect_h ;;
    h <- Py.float_of_int height ;;
    width <- Py.round (h * ratio)%float ;;
    Ok (width, height)
  else
    let width := long_side_px in
    ratio <- Py.truediv_int aspect_h aspect_w ;;
    w <- Py.float_of_int width ;;
    height <- Py.round (w * ratio)%float ;;
    Ok (width, height).

Section EbookCoverText.

Variable textsize : string -> Z -> Z * Z.

(** The loop over [title_lines]: one [draw.text] call per line, at
    [((width - w) / 2, y)]. *)
Fixpoint ebook_title_lines (width font_title : Z) (title_lines : list string)
    (y : Z) : result (list TextCall) :=
  match title_lines with
  | [] => Ok []
  | line :: rest =>
      let '(w, h) := textsize line font_title in
      x <- Py.truediv_int (width - w) 2 ;;
      calls <- ebook_title_lines width font_title rest (y + (h + 10)) ;;
      Ok ({| tc_x := x; tc_y := y; tc_text := line;
             tc_font_size := font_title; tc_fill := (20, 20, 20) |} :: calls)
  end.

(** Lines 128 to 142: the [draw.text] calls on a cover of [width] by
    [height] pixels, in the order they are made. *)
Definition ebook_cover_text (width height : Z) (title author : string)
  : result (list TextCall) :=
  t <- scaled height 0.08 ;;
  let font_title := Z.max 28 t in
  a <- scaled height 0.04 ;;
  let font_author := Z.max 18 a in
  let title_lines := Py.split "010" (Py.strip title) in
  y <- scaled height 0.30 ;;
  calls <- ebook_title_lines width font_title title_lines y ;;
  let author_text := ("By " ++ author)%string in
  let '(w, h) := textsize author_text font_author in
  ax <- Py.truediv_int (width - w) 2 ;;
  low <- scaled height 0.12 ;;
  Ok (calls ++ [{| tc_x := ax; tc_y := height - low; tc_text := author_text;
                   tc_font_size := font_author; tc_fill := (60, 60, 60) |}]).

End EbookCoverText.

(** ** The text of the spine of the print cover *)


Section SpineText.

Variable textsize : string -> Z -> Z * Z.


End SpineText.

(** ** Files, processes and JSON

    The functions around the covers read and write files and start other
    programs.  They are modelled call by call: each call into Python's
    library is answered by the environment, which returns a value or raises,
    and the answer may depend on everything that happened before.  What
    happened is kept as a list of events, oldest first.  [print] is left
    out. *)

Definition Path : Set := string.

(** What a library call raises: an exception that derives from
    [Exception], which [except Exception] catches, or one that does not
    ([KeyboardInterrupt], [SystemExit]). *)
Inductive LibExn : Set :=
| Exception_ (class : string)
| BaseException_ (class : string).

(** What a function of the program raises: its own [RuntimeError] and
    [ValueError], the [TypeError] of an item assignment, or what a library
    call raised. *)
Inductive Exn : Set :=
| RuntimeError (cmd : list string)      (* run_cmd: "Command failed: ..." *)
| UnsupportedExtension (ext : string)   (* the ValueError of the conversion *)
| TypeError                             (* j["validated"] = True on no dict *)
| Raised (e : LibExn).

Definition is_Exception (e : Exn) : bool :=
  match e with
  | Raised (BaseException_ _) => false
  | _ => true
  end.

Inductive answer (A : Type) : Type :=
| Returns (a : A)
| Raises (e : LibExn).
Arguments Returns {A} a.
Arguments Raises {A} e.

Inductive outcome (A : Type) : Type :=
| Done (a : A)
| Failed (e : Exn).
Arguments Done {A} a.
Arguments Failed {A} e.

Set Warnings "-register-all".

(** The values of [json.loads]; a number is kept as it is written. *)
Inductive json : Set :=
| JNull
| JBool (b : bool)
| JNumber (repr : string)
| JStr (s : string)
| JArr (items : list json)
| JObj (members : list (string * json)).

(** One call into the library, with its answer. *)
Inductive Event : Set :=
| PathExists (p : Path) (r : answer bool)                 (* Path.exists() *)
| ReadText (p : Path) (r : answer string)                 (* Path.read_text *)
| WriteText (p : Path) (text : string) (r : answer unit)  (* Path.write_text *)
| ReadBytes (p : Path) (r : answer string)                (* Path.read_bytes *)
| WriteBytes (p : Path) (data : string) (r : answer unit) (* Path.write_bytes *)
| OpenW (p : Path) (r : answer unit)                      (* Path.open("w") *)
| FileWrite (text : string) (r : answer unit)             (* f.write *)
| FileClose (r : answer unit)                             (* leaving [with] *)
| SubprocessRun (cmd : list string) (capture_output : bool) (r : answer Z).
                                            (* subprocess.run, its returncode *)

(** The environment: the answer to each call after the events so far, and
    the pure functions of the library. *)
Record Library : Type := {
  lib_exists : list Event -> Path -> answer bool;
  lib_read_text : list Event -> Path -> answer string;
  lib_write_text : list Event -> Path -> string -> answer unit;
  lib_read_bytes : list Event -> Path -> answer string;
  lib_write_bytes : list Event -> Path -> string -> answer unit;
  lib_open_w : list Event -> Path -> answer unit;
  lib_file_write : list Event -> string -> answer unit;
  lib_file_close : list Event -> answer unit;
  lib_run : list Event -> list string -> bool -> answer Z;
  json_loads : string -> answer json;
  json_dumps : json -> string;          (* json.dumps(_, indent=2) *)
  path_suffix : Path -> string;         (* Path.suffix *)
  str_lower : string -> string          (* str.lower *)
}.

(** A function of the program: from the events so far to its outcome and
    the events then. *)
Definition IO (A : Type) : Type := list Event -> outcome A * list Event.

Definition io_ret {A : Type} (a : A) : IO A := fun log => (Done a, log).

Definition io_raise {A : Type} (e : Exn) : IO A := fun log => (Failed e, log).

Definition io_bind {A B : Type} (m : IO A) (k : A -> IO B) : IO B :=
  fun log =>
    match m log with
    | (Done a, log') => k a log'
    | (Failed e, log') => (Failed e, log')
    end.

Notation "x <-- m ;; k" := (io_bind m (fun x => k))
  (at level 61, m at next level, right associativity).

Definition answered {A : Type} (r : answer A) : outcome A :=
  match r with
  | Returns a => Done a
  | Raises e => Failed (Raised e)
  end.

(** [try: body except Exception: handler] *)
Definition try_except {A : Type} (body : IO A) (handler : Exn -> IO A) : IO A :=
  fun log =>
    match body log with
    | (Failed e, log') =>
        if is_Exception e then handler e log' else (Failed e, log')
    | done => done
    end.

Section Pipeline.

Variable lib : Library.

Definition path_exists (p : Path) : IO bool :=
  fun log => let r := lib_exists lib log p in (answered r, log ++ [PathExists p r]).

Definition read_text (p : Path) : IO string :=
  fun log => let r := lib_read_text lib log p in (answered r, log ++ [ReadText p r]).

Definition write_text (p : Path) (text : string) : IO unit :=
  fun log =>
    let r := lib_write_text lib log p text in (answered r, log ++ [WriteText p text r]).

Definition read_bytes (p : Path) : IO string :=
  fun log => let r := lib_read_bytes lib log p in (answered r, log ++ [ReadBytes p r]).

Definition write_bytes (p : Path) (data : string) : IO unit :=
  fun log =>
    let r := lib_write_bytes lib log p data in (answered r, log ++ [WriteBytes p data r]).

Definition open_w (p : Path) : IO unit :=
  fun log => let r := lib_open_w lib log p in (answered r, log ++ [OpenW p r]).

Definition file_write (text : string) : IO unit :=
  fun log => let r := lib_file_write lib log text in (answered r, log ++ [FileWrite text r]).

Definition file_close : IO unit :=
  fun log => let r := lib_file_close lib log in (answered r, log ++ [FileClose r]).

Definition subprocess_run (cmd : list string) (capture_output : bool) : IO Z :=
  fun log =>
    let r := lib_run lib log cmd capture_output in
    (answered r, log ++ [SubprocessRun cmd capture_output r]).

(** [with p.open("w") as f: body]: the file is closed when the body is
    left, by its end or by an exception; an exception of the closing takes
    the place of the one of the body. *)
Definition with_open_w {A : Type} (p : Path) (body : IO A) : IO A :=
  fun log =>
    match open_w p log with
    | (Failed e, log1) => (Failed e, log1)
    | (Done _, log1) =>
        let '(res, log2) := body log1 in
        match file_close log2 with
        | (Failed e, log3) => (Failed e, log3)
        | (Done _, log3) => (res, log3)
        end
    end.

(** [x and x.exists()] on an optional path. *)
Definition given_and_exists (x : option Path) : IO bool :=
  match x with
  | None => io_ret false
  | Some p => path_exists p
  end.

Definition PANDOC_CMD : string := "pandoc".
Definition EPUBCHECK_JAR : string := "epubcheck.jar".

(** Lines 54 to 63; the result is the return code of the command. *)
Definition run_cmd (cmd : list string) (capture_output check : bool) : IO Z :=
  returncode <-- subprocess_run cmd capture_output ;;
  if check && negb (returncode =? 0) then io_raise (RuntimeError cmd)
  else io_ret returncode.

(** [ext.lstrip(".")] *)
Fixpoint lstrip_dots (s : string) : string :=
  match s with
  | String "." t => lstrip_dots t
  | _ => s
  end.

(** Lines 79 to 91. *)
Definition convert_to_markdown_if_needed (input_path out_md : Path) : IO unit :=
  let ext := str_lower lib (path_suffix lib input_path) in
  if String.eqb ext ".md" then
    data <-- read_bytes input_path ;;
    write_bytes out_md data
  else if existsb (String.eqb ext) [".docx"; ".doc"; ".odt"; ".txt"]%string then
    let cmd := [PANDOC_CMD; input_path; "-f"; lstrip_dots ext; "-t"; "markdown";
                "-o"; out_md]%string in
    _ <-- run_cmd cmd false true ;;
    io_ret tt
  else io_raise (UnsupportedExtension ext).

(** The page break written after every part. *)
Definition PAGE_BREAK : string :=
  String "010" (String "010"
    ("<div style=" ++ String "034"
       ("page-break-after: always;" ++ String "034"
          ("></div>" ++ String "010" (String "010" EmptyString))))).

(** The loop of lines 99 to 102 over [parts], [None] among them or not. *)
Fixpoint merge_parts (parts : list (option Path)) : IO unit :=
  match parts with
  | [] => io_ret tt
  | None :: rest => merge_parts rest
  | Some p :: rest =>
      found <-- path_exists p ;;
      if found then
        text <-- read_text p ;;
        _ <-- file_write text ;;
        _ <-- file_write PAGE_BREAK ;;
        merge_parts rest
      else merge_parts rest
  end.

(** Lines 94 to 103. *)
Definition merge_markdown (parts : list (option Path)) (out_md : Path) : IO unit :=
  with_open_w out_md (merge_parts parts).

(** Lines 245 to 261. *)
Definition generate_epub_from_markdown (md_path : Path)
    (cover_path metadata_path css_path : option Path) (out_epub : Path) : IO unit :=
  let cmd := [PANDOC_CMD; md_path; "-o"; out_epub; "--to"; "epub3"]%string in
  cover <-- given_and_exists cover_path ;;
  let cmd := if cover
             then cmd ++ ["--epub-cover-image"%string; match cover_path with
                                                       | Some p => p
                                                       | None => EmptyString
                                                       end]
             else cmd in
  css <-- given_and_exists css_path ;;
  let cmd := if css
             then cmd ++ ["--css"%string; match css_path with
                                          | Some p => p
                                          | None => EmptyString
                                          end]
             else cmd in
  metadata <-- given_and_exists metadata_path ;;
  let cmd := if metadata
             then cmd ++ ["--metadata-file"%string; match metadata_path with
                                                    | Some p => p
                                                    | None => EmptyString
                                                    end]
             else cmd in
  let cmd := cmd ++ ["--toc"; "--toc-depth=2"]%string in
  _ <-- run_cmd cmd false true ;;
  io_ret tt.

(** [d[key] = value] on the members of a [dict]. *)
Fixpoint dict_set (key : string) (value : json) (members : list (string * json))
  : list (string * json) :=
  match members with
  | [] => [(key, value)]
  | (k, v) :: rest =>
      if String.eqb k key then (k, value) :: rest
      else (k, v) :: dict_set key value rest
  end.

(** [j[key] = value] on what [json.loads] returned. *)
Definition setitem (j : json) (key : string) (value : json) : IO json :=
  match j with
  | JObj members => io_ret (JObj (dict_set key value members))
  | _ => io_raise TypeError
  end.

(** [not epubcheck_jar or not Path(epubcheck_jar).exists()], negated. *)
Definition jar_exists (epubcheck_jar : option string) : IO bool :=
  match epubcheck_jar with
  | None => io_ret false
  | Some EmptyString => io_ret false
  | Some jar => path_exists jar
  end.

(** Lines 265 to 287. *)
Definition validate_epub (epub_path : Path) (epubcheck_jar : option string)
    (report_out : Path) : IO unit :=
  let report := JObj [("epub", JStr epub_path); ("validated", JBool false);
                      ("errors", JNull)]%string in
  found <-- jar_exists epubcheck_jar ;;
  if negb found then write_text report_out (json_dumps lib report)
  else
    let jar := match epubcheck_jar with Some jar => jar | None => EmptyString end in
    let cmd := ["java"; "-jar"; jar; epub_path; "-mode"; "expensive"; "-out";
                report_out]%string in
    _ <-- run_cmd cmd false true ;;
    try_except
      (text <-- read_text report_out ;;
       j <-- (fun log => (answered (json_loads lib text), log)) ;;
       j <-- setitem j "validated" (JBool true) ;;
       write_text report_out (json_dumps lib j))
      (fun ex =>
         write_text report_out
           (json_dumps lib (JObj [("epub", JStr epub_path); ("validated", JBool true);
                                  ("raw_output", JNull)]%string))).

End Pipeline.

(** ** Vocabulary of the further properties *)

(** [sep.join(lines)] *)
Fixpoint join (sep : ascii) (lines : list string) : string :=
  match lines with
  | [] => EmptyString
  | [line] => line
  | line :: rest => (line ++ String sep (join sep rest))%string
  end.

(** [r] is within the rounding error of binary64 of the number [v], which
    is not negative: half a unit in the last of 53 bits, or half the
    smallest float. *)
Definition near (v r : R) : Prop :=
  (v - (v * bpow (-53) + bpow (-1075)) <= r <= v + (v * bpow (-53) + bpow (-1075)))%R.

(** A thousand kilometres, in millimetres. *)
Definition thousand_km : float := 1000000000.

(** A request of ordinary size: no length above a thousand kilometres, a
    resolution and a page count of at most 53 bits. *)
Definition ordinary_spec (s : CoverSpec) : Prop :=
  (width_mm s <=? thousand_km)%float = true
  /\ (height_mm s <=? thousand_km)%float = true
  /\ (bleed_mm s <=? thousand_km)%float = true
  /\ (thickness_per_page_mm s <=? thousand_km)%float = true
  /\ dpi s <= 2 ^ 53 /\ page_count s <= 2 ^ 53.

(** What a list of events holds: the commands started, the paths whose
    existence was asked and those found, the texts read, the texts written
    to the open file, and the files the program tried to write. *)
Definition commands (evs : list Event) : list (list string) :=
  flat_map (fun ev => match ev with SubprocessRun cmd _ _ => [cmd] | _ => [] end) evs.

Definition checked (evs : list Event) : list Path :=
  flat_map (fun ev => match ev with PathExists p _ => [p] | _ => [] end) evs.

Definition found (evs : list Event) : list Path :=
  flat_map (fun ev => match ev with PathExists p (Returns true) => [p] | _ => [] end) evs.

Definition texts_read (evs : list Event) : list (Path * string) :=
  flat_map (fun ev => match ev with ReadText p (Returns t) => [(p, t)] | _ => [] end) evs.

Definition file_writes (evs : list Event) : list string :=
  flat_map (fun ev => match ev with FileWrite t (Returns _) => [t] | _ => [] end) evs.

Definition written_paths (evs : list Event) : list Path :=
  flat_map (fun ev => match ev with
                      | WriteText p _ _ | WriteBytes p _ _ | OpenW p _ => [p]
                      | _ => []
                      end) evs.

(** [d.get(key)] on the members of a [dict]. *)
Fixpoint dict_get (key : string) (members : list (string * json)) : option json :=
  match members with
  | [] => None
  | (k, v) :: rest => if String.eqb k key then Some v else dict_get key rest
  end.

(** The parts that are not [None]. *)
Definition given {A : Type} (parts : list (option A)) : list A :=
  flat_map (fun p => match p with Some a => [a] | None => [] end) parts.

(** The command line of epubcheck. *)
Definition epubcheck_cmd (jar epub_path report_out : string) : list string :=
  ["java"; "-jar"; jar; epub_path; "-mode"; "expensive"; "-out"; report_out]%string.

(** An option of pandoc and its file, when the file was found. *)
Definition pandoc_option (present : bool) (flag : string) (file : option Path)
  : list string :=
  match present, file with
  | true, Some p => [flag; p]
  | _, _ => []
  end.

(** The file of an option of pandoc, when the file was found. *)
Definition option_file (present : bool) (file : option Path) : list Path :=
  match present, file with
  | true, Some p => [p]
  | _, _ => []
  end.

(** The last of a list of events. *)
Definition last_event (evs : list Event) : option Event :=
  List.last (map Some evs) None.

(** An environment in which every file exists and holds an empty JSON
    object, every call returns and every command succeeds. *)
Definition plain_library : Library :=
  {| lib_exists := fun _ _ => Returns true;
     lib_read_text := fun _ _ => Returns "{}"%string;
     lib_write_text := fun _ _ _ => Returns tt;
     lib_read_bytes := fun _ _ => Returns EmptyString;
     lib_write_bytes := fun _ _ _ => Returns tt;
     lib_open_w := fun _ _ => Returns tt;
     lib_file_write := fun _ _ => Returns tt;
     lib_file_close := fun _ => Returns tt;
     lib_run := fun _ _ _ => Returns 0;
     json_loads := fun _ => Returns (JObj []);
     json_dumps := fun _ => "{}"%string;
     path_suffix := fun _ => ".md"%string;
     str_lower := fun s => s |}.

(** The same, but every command fails with return code 1. *)
Definition failing_library : Library :=
  {| lib_exists := fun _ _ => Returns true;
     lib_read_text := fun _ _ => Returns "{}"%string;
     lib_write_text := fun _ _ _ => Returns tt;
     lib_read_bytes := fun _ _ => Returns EmptyString;
     lib_write_bytes := fun _ _ _ => Returns tt;
     lib_open_w := fun _ _ => Returns tt;
     lib_file_write := fun _ _ => Returns tt;
     lib_file_close := fun _ => Returns tt;
     lib_run := fun _ _ _ => Returns 1;
     json_loads := fun _ => Returns (JObj []);
     json_dumps := fun _ => "{}"%string;
     path_suffix := fun _ => ".pdf"%string;
     str_lower := fun s => s |}.

(** Whether the character [c] occurs in [s]. *)
Fixpoint occurs (c : ascii) (s : string) : bool :=
  match s with
  | EmptyString => false
  | String d t => Ascii.eqb d c || occurs c t
  end.

(** Text metrics of a monospaced font: every character is half as wide as
    the font is high. *)
Definition mono_extent (text : string) (font_size : Z) : Z * Z :=
  (Z.of_nat (String.length text) * (font_size / 2), font_size).

(** A title of two lines, with white space around it. *)
Definition two_line_title : string :=
  ("  Short" ++ String "010" "Stories ")%string.

(** * Properties *)

(** ** The error monad *)

Lemma bind_Ok {A B : Type} (r : result A) (k : A -> result B) (b : B) :
  (x <- r ;; k x) = Ok b -> exists a, r = Ok a /\ k a = Ok b.
Proof.
  destruct r as [a|e]; simpl; intros H; [exists a; auto | discriminate].
Qed.

Ltac inv_bind H :=
  let a := fresh "v" in
  let Ha := fresh "Hv" in
  apply bind_Ok in H; destruct H as [a [Ha H]].

Ltac panels :=
  unfold back, spine, front in *;
  cbn [x_px y_px width_px height_px] in *.

(** What a successful [layout] has computed. *)
Lemma layout_Ok (image_new : Z -> Z -> result unit) (s : CoverSpec) (l : Layout) :
  layout image_new s = Ok l ->
  exists spine_mm,
    compute_spine_width_mm (page_count s) (thickness_per_page_mm s) = Ok spine_mm
    /\ mm_to_px (full_w_mm s spine_mm) (dpi s) = Ok (full_w_px l)
    /\ mm_to_px (full_h_mm s) (dpi s) = Ok (full_h_px l)
    /\ mm_to_px (bleed_mm s) (dpi s) = Ok (bleed_px l)
    /\ mm_to_px (width_mm s) (dpi s) = Ok (page_w_px l)
    /\ mm_to_px (height_mm s) (dpi s) = Ok (page_h_px l)
    /\ mm_to_px spine_mm (dpi s) = Ok (spine_px l)
    /\ back_cover_x l = bleed_px l
    /\ spine_x l = back_cover_x l + page_w_px l
    /\ front_cover_x l = spine_x l + spine_px l.
Proof.
  unfold layout. intros H.
  inv_bind H. exists v.
  inv_bind H. inv_bind H. inv_bind H. inv_bind H. inv_bind H. inv_bind H.
  inv_bind H. inv_bind H. injection H as <-. simpl.
  repeat split; auto.
Qed.

(** A successful [layout] has created the canvas, of the full size. *)
Lemma layout_image_new (image_new : Z -> Z -> result unit) (s : CoverSpec)
    (l : Layout) :
  layout image_new s = Ok l -> image_new (full_w_px l) (full_h_px l) = Ok tt.
Proof.
  unfold layout. intros H.
  inv_bind H. inv_bind H. inv_bind H. inv_bind H. inv_bind H. inv_bind H.
  inv_bind H. inv_bind H. inv_bind H. injection H as <-. simpl.
  destruct v2. assumption.
Qed.

(** * Binary64 arithmetic *)

(** ** Powers of two *)

Lemma bpow_gt_0 (e : Z) : (0 < bpow e)%R.
Proof. apply powerRZ_lt. lra. Qed.

Lemma bpow_add (a b : Z) : bpow (a + b) = (bpow a * bpow b)%R.
Proof. apply powerRZ_add. lra. Qed.

Lemma bpow_0 : bpow 0 = 1%R.
Proof. reflexivity. Qed.

Lemma bpow_1 : bpow 1 = 2%R.
Proof. unfold bpow. simpl. lra. Qed.

Lemma bpow_succ (e : Z) : bpow (e + 1) = (2 * bpow e)%R.
Proof. rewrite bpow_add, bpow_1. lra. Qed.

Lemma bpow_opp (e : Z) : bpow (- e) = (/ bpow e)%R.
Proof. apply powerRZ_neg'. Qed.

Lemma bpow_m1 : bpow (-1) = (/ 2)%R.
Proof. change (-1) with (- (1)). rewrite bpow_opp, bpow_1. reflexivity. Qed.

Lemma bpow_ge_1 (k : Z) : 0 <= k -> (1 <= bpow k)%R.
Proof.
  intros H. pattern k. apply natlike_ind; [rewrite bpow_0; lra | | assumption].
  intros x Hx IH. unfold Z.succ. rewrite bpow_succ. lra.
Qed.

Lemma bpow_le (a b : Z) : a <= b -> (bpow a <= bpow b)%R.
Proof.
  intros H. replace b with (a + (b - a)) by lia. rewrite bpow_add.
  generalize (bpow_ge_1 (b - a) ltac:(lia)) (bpow_gt_0 a). nra.
Qed.

Lemma bpow_lt (a b : Z) : a < b -> (bpow a < bpow b)%R.
Proof.
  intros H. apply Rlt_le_trans with (bpow (a + 1)).
  - rewrite bpow_succ. generalize (bpow_gt_0 a). lra.
  - apply bpow_le. lia.
Qed.

Lemma bpow_lt_inv (a b : Z) : (bpow a < bpow b)%R -> a < b.
Proof.
  intros H. destruct (Z_lt_le_dec a b) as [L|L]; [assumption|].
  apply bpow_le in L. lra.
Qed.

Lemma bpow_IZR (k : Z) : 0 <= k -> IZR (2 ^ k) = bpow k.
Proof.
  intros H. pattern k. apply natlike_ind; [reflexivity | | assumption].
  intros x Hx IH. rewrite Z.pow_succ_r by assumption.
  rewrite mult_IZR, IH. unfold Z.succ. rewrite bpow_succ. reflexivity.
Qed.

(** An integer below a power of two stays a whole unit below it. *)
Lemma IZR_lt_bpow (m k : Z) : 0 <= k -> (IZR m < bpow k)%R -> (IZR m + 1 <= bpow k)%R.
Proof.
  intros Hk H. rewrite <- bpow_IZR in * by assumption.
  apply lt_IZR in H. rewrite <- plus_IZR. apply IZR_le. lia.
Qed.

(** ** Binary digits *)

Lemma digits2_pos_bounds (p : positive) :
  2 ^ (Zpos (digits2_pos p) - 1) <= Zpos p < 2 ^ Zpos (digits2_pos p).
Proof.
  induction p as [p IH|p IH|]; simpl digits2_pos.
  - rewrite Pos2Z.inj_succ.
    replace (Z.succ (Zpos (digits2_pos p)) - 1) with (Z.succ (Zpos (digits2_pos p) - 1)) by lia.
    rewrite !Z.pow_succ_r by lia. lia.
  - rewrite Pos2Z.inj_succ.
    replace (Z.succ (Zpos (digits2_pos p)) - 1) with (Z.succ (Zpos (digits2_pos p) - 1)) by lia.
    rewrite !Z.pow_succ_r by lia. lia.
  - simpl. lia.
Qed.

Lemma Zdigits2_nonneg (m : Z) : 0 <= Zdigits2 m.
Proof. destruct m; simpl; lia. Qed.

Lemma Zdigits2_pos (m : Z) : 0 < m -> 0 < Zdigits2 m.
Proof. destruct m; simpl; lia. Qed.

Lemma Zdigits2_bounds (m : Z) :
  0 < m -> (bpow (Zdigits2 m - 1) <= IZR m < bpow (Zdigits2 m))%R.
Proof.
  destruct m as [|p|p]; try lia. intros _. simpl Zdigits2.
  generalize (digits2_pos_bounds p). intros [H1 H2].
  rewrite <- !bpow_IZR by lia. split; [apply IZR_le | apply IZR_lt]; assumption.
Qed.

Lemma Zdigits2_unique (m k : Z) :
  (bpow (k - 1) <= IZR m < bpow k)%R -> 0 < m -> Zdigits2 m = k.
Proof.
  intros [H1 H2] Hm. generalize (Zdigits2_bounds m Hm). intros [H3 H4].
  assert (k - 1 < Zdigits2 m) by (apply bpow_lt_inv; lra).
  assert (Zdigits2 m - 1 < k) by (apply bpow_lt_inv; lra).
  lia.
Qed.

(** ** Locations *)

Lemma inbetween_bounds (m : Z) (x : R) (l : location) :
  inbetween m x l -> (IZR m <= x < IZR m + 1)%R.
Proof. destruct l as [|[| |]]; simpl; lra. Qed.

Lemma loc_of_shr_record_of_loc (m : Z) (l : location) :
  loc_of_shr_record (shr_record_of_loc m l) = l.
Proof. destruct l as [|[| |]]; reflexivity. Qed.

Lemma shr_m_shr_record_of_loc (m : Z) (l : location) :
  shr_m (shr_record_of_loc m l) = m.
Proof. destruct l as [|[| |]]; reflexivity. Qed.

Lemma IZR_xO (p : positive) : IZR (Zpos p~0) = (2 * IZR (Zpos p))%R.
Proof. rewrite <- mult_IZR. reflexivity. Qed.

Lemma IZR_xI (p : positive) : IZR (Zpos p~1) = (2 * IZR (Zpos p) + 1)%R.
Proof. rewrite <- mult_IZR, <- plus_IZR. reflexivity. Qed.

(** One step of the right shift halves the number and keeps its location. *)
Lemma shr_1_inbetween (mrs : shr_record) (x : R) :
  0 <= shr_m mrs ->
  inbetween (shr_m mrs) x (loc_of_shr_record mrs) ->
  0 <= shr_m (shr_1 mrs)
  /\ inbetween (shr_m (shr_1 mrs)) (x / 2) (loc_of_shr_record (shr_1 mrs)).
Proof.
  destruct mrs as [m r s]. simpl shr_m. intros Hm.
  destruct m as [|[p|p|]|p]; try lia;
    destruct r, s; simpl; try rewrite IZR_xO; try rewrite IZR_xI;
    intros H; (split; [lia | lra]).
Qed.

Lemma iter_pos_shr_1_inbetween (n : positive) (mrs : shr_record) (x : R) :
  0 <= shr_m mrs ->
  inbetween (shr_m mrs) x (loc_of_shr_record mrs) ->
  0 <= shr_m (SpecFloat.iter_pos shr_1 n mrs)
  /\ inbetween (shr_m (SpecFloat.iter_pos shr_1 n mrs)) (x * bpow (- Zpos n))
       (loc_of_shr_record (SpecFloat.iter_pos shr_1 n mrs)).
Proof.
  revert mrs x. induction n as [n IH|n IH|]; intros mrs x Hm H; simpl SpecFloat.iter_pos.
  - destruct (shr_1_inbetween mrs x Hm H) as [Hm1 H1].
    destruct (IH _ _ Hm1 H1) as [Hm2 H2].
    destruct (IH _ _ Hm2 H2) as [Hm3 H3].
    split; [assumption|].
    replace (x * bpow (- Zpos n~1))%R
      with (x / 2 * bpow (- Zpos n) * bpow (- Zpos n))%R; [assumption|].
    replace (- Zpos n~1) with (- Zpos n + - Zpos n + - 1) by lia.
    rewrite !bpow_add, bpow_m1. field.
  - destruct (IH _ _ Hm H) as [Hm2 H2].
    destruct (IH _ _ Hm2 H2) as [Hm3 H3].
    split; [assumption|].
    replace (x * bpow (- Zpos n~0))%R
      with (x * bpow (- Zpos n) * bpow (- Zpos n))%R; [assumption|].
    replace (- Zpos n~0) with (- Zpos n + - Zpos n) by lia.
    rewrite !bpow_add. ring.
  - destruct (shr_1_inbetween mrs x Hm H) as [Hm1 H1].
    split; [assumption|].
    rewrite bpow_opp, bpow_1. exact H1.
Qed.

(** The shift to the exponent [fexp] asks for. *)
Lemma shr_fexp_inbetween (m e : Z) (l : location) (x : R) :
  0 <= m -> inbetween m x l ->
  let '(mrs, e') := shr_fexp prec emax m e l in
  e' = Z.max e (fexp prec emax (Zdigits2 m + e))
  /\ 0 <= shr_m mrs
  /\ inbetween (shr_m mrs) (x * bpow (e - e')) (loc_of_shr_record mrs).
Proof.
  intros Hm H. unfold shr_fexp, shr.
  destruct (fexp prec emax (Zdigits2 m + e) - e) as [|n|n] eqn:E.
  - rewrite shr_m_shr_record_of_loc, loc_of_shr_record_of_loc.
    split; [lia|]. split; [assumption|].
    rewrite Z.sub_diag, bpow_0, Rmult_1_r. assumption.
  - destruct (iter_pos_shr_1_inbetween n (shr_record_of_loc m l) x) as [H1 H2].
    + rewrite shr_m_shr_record_of_loc; assumption.
    + rewrite shr_m_shr_record_of_loc, loc_of_shr_record_of_loc; assumption.
    + split; [lia|]. split; [assumption|].
      replace (e - (e + Zpos n)) with (- Zpos n) by lia. assumption.
  - rewrite shr_m_shr_record_of_loc, loc_of_shr_record_of_loc.
    split; [lia|]. split; [assumption|].
    rewrite Z.sub_diag, bpow_0, Rmult_1_r. assumption.
Qed.

(** ** Rounding to the nearest integer, halves to even *)

Lemma rne_IZR (k : Z) : rne (IZR k) k.
Proof. split; [lra | intros [H|H]; lra]. Qed.

Lemma rne_mono (x y : R) (n n' : Z) :
  (x <= y)%R -> rne x n -> rne y n' -> n <= n'.
Proof.
  intros Hxy [[H1 H2] H3] [[H4 H5] H6].
  destruct (Z_le_gt_dec n n') as [L|G]; [assumption|exfalso].
  assert (G' : (IZR n' + 1 <= IZR n)%R).
  { rewrite <- plus_IZR. apply IZR_le. lia. }
  assert (E : n = n' + 1).
  { apply eq_IZR. rewrite plus_IZR. lra. }
  assert (En : Z.even n = true) by (apply H3; left; lra).
  assert (En' : Z.even n' = true) by (apply H6; right; lra).
  subst n. rewrite Z.add_1_r, Z.even_succ, <- Z.negb_even, En' in En. discriminate.
Qed.

Lemma rne_unique (x : R) (n n' : Z) : rne x n -> rne x n' -> n = n'.
Proof.
  intros H H'. apply Z.le_antisymm; eapply rne_mono; eauto; lra.
Qed.

Lemma rne_le_IZR (x : R) (n k : Z) : rne x n -> (x <= IZR k)%R -> n <= k.
Proof. intros H L. apply (rne_mono x (IZR k)); auto using rne_IZR. Qed.

Lemma rne_ge_IZR (x : R) (n k : Z) : rne x n -> (IZR k <= x)%R -> k <= n.
Proof. intros H L. apply (rne_mono (IZR k) x); auto using rne_IZR. Qed.

Lemma rne_opp (x : R) (n : Z) : rne x n -> rne (- x) (- n).
Proof.
  intros [[H1 H2] H3].
  split; rewrite opp_IZR; [lra|].
  rewrite Z.even_opp. intros [H|H]; apply H3; [right|left]; lra.
Qed.

Lemma round_nearest_even_rne (m : Z) (x : R) (l : location) :
  inbetween m x l -> rne x (round_nearest_even m l).
Proof.
  destruct l as [|[| |]]; simpl; intros H.
  - subst x. apply rne_IZR.
  - destruct (Z.even m) eqn:E.
    + split; [lra | auto].
    + split; [rewrite plus_IZR; lra|].
      intros _. rewrite Z.add_1_r, Z.even_succ, <- Z.negb_even, E. reflexivity.
  - split; [lra | intros [H'|H']; lra].
  - split; [rewrite plus_IZR; lra | rewrite plus_IZR; intros [H'|H']; lra].
Qed.

Lemma round_nearest_even_ge (m : Z) (l : location) : m <= round_nearest_even m l.
Proof. destruct l as [|[| |]]; simpl; try destruct (Z.even m); lia. Qed.

(** ** Rounding to the binary64 format *)

Lemma fexp64_eq (k : Z) : fexp64 k = Z.max (k - 53) emin64.
Proof. reflexivity. Qed.

Lemma rounds_to_mono (v1 v2 r1 r2 : R) :
  (v1 <= v2)%R -> rounds_to v1 r1 -> rounds_to v2 r2 -> (r1 <= r2)%R.
Proof.
  intros Hv (E1 & n1 & (K1 & HE1 & Hu1 & Hl1) & Hn1 & ->)
            (E2 & n2 & (K2 & HE2 & Hu2 & Hl2) & Hn2 & ->).
  rewrite fexp64_eq in HE1, HE2.
  destruct (Z.lt_trichotomy E1 E2) as [L|[E|G]].
  - (* the larger number lies in a higher binade *)
    destruct Hl2 as [Hl2|Hl2]; [|lia].
    assert (HK : K1 < K2) by lia.
    assert (B2 : (bpow (K2 - 1) <= IZR n2 * bpow E2)%R).
    { assert (2 ^ 52 <= n2).
      { apply (rne_ge_IZR _ _ _ Hn2). rewrite bpow_IZR by lia.
        replace 52 with ((K2 - 1) + - E2) by lia. rewrite bpow_add.
        apply Rmult_le_compat_r; [apply Rlt_le, bpow_gt_0 | assumption]. }
      apply IZR_le in H. rewrite bpow_IZR in H by lia.
      replace (K2 - 1) with (52 + E2) by lia. rewrite bpow_add.
      apply Rmult_le_compat_r; [apply Rlt_le, bpow_gt_0 | assumption]. }
    apply Rle_trans with (2 := B2).
    destruct (Z_le_gt_dec E1 K1) as [L1|G1].
    + assert (n1 <= 2 ^ (K1 - E1)).
      { apply (rne_le_IZR _ _ _ Hn1). rewrite bpow_IZR by lia.
        replace (K1 - E1) with (K1 + - E1) by lia. rewrite bpow_add.
        apply Rmult_le_compat_r; [apply Rlt_le, bpow_gt_0 | lra]. }
      apply IZR_le in H. rewrite bpow_IZR in H by lia.
      apply Rle_trans with (bpow K1); [|apply bpow_le; lia].
      replace (bpow K1) with (bpow (K1 - E1) * bpow E1)%R
        by (rewrite <- bpow_add; f_equal; lia).
      apply Rmult_le_compat_r; [apply Rlt_le, bpow_gt_0 | assumption].
    + assert (n1 <= 0).
      { assert (v1 * bpow (- E1) < bpow (K1 + - E1))%R.
        { rewrite bpow_add. apply Rmult_lt_compat_r; [apply bpow_gt_0 | assumption]. }
        assert (bpow (K1 + - E1) <= bpow (-1))%R by (apply bpow_le; lia).
        rewrite bpow_m1 in *.
        destruct Hn1 as [[Hn1 _] _].
        assert (IZR n1 < 1)%R by lra.
        apply lt_IZR in H1. lia. }
      apply IZR_le in H.
      generalize (bpow_gt_0 E1) (bpow_gt_0 (K2 - 1)). nra.
  - rewrite <- E in Hn2 |- *. apply Rmult_le_compat_r; [apply Rlt_le, bpow_gt_0|].
    apply IZR_le. apply (rne_mono _ _ _ _ (Rmult_le_compat_r _ _ _ (Rlt_le _ _ (bpow_gt_0 (- E1))) Hv) Hn1 Hn2).
  - exfalso. destruct Hl1 as [Hl1|Hl1]; [|lia].
    assert (K1 - 1 < K2) by (apply bpow_lt_inv; lra). lia.
Qed.

Lemma rounds_to_unique (v r1 r2 : R) : rounds_to v r1 -> rounds_to v r2 -> r1 = r2.
Proof.
  intros H1 H2. apply Rle_antisym; eapply rounds_to_mono; eauto; lra.
Qed.

(** ** What [binary_round_aux] computes *)

Lemma binary_round_aux_renormalize (s : bool) (m e : Z) (l : location) :
  binary_round_aux prec emax s m e l
  = let '(mrs, e') := shr_fexp prec emax m e l in
    renormalize s (round_nearest_even (shr_m mrs) (loc_of_shr_record mrs)) e'.
Proof. reflexivity. Qed.

(** The mantissa already fits: nothing moves. *)
Lemma renormalize_fits (s : bool) (n F : Z) :
  0 <= n -> fexp64 (Zdigits2 n + F) = F ->
  match renormalize s n F with
  | S754_zero s' => s' = s /\ n = 0
  | S754_finite s' m' e' =>
      s' = s /\ Zpos m' = n /\ e' = F /\ SpecFloat.bounded prec emax m' e' = true
  | S754_infinity s' => s' = s /\ 0 < n /\ emax - prec < F
  | S754_nan => False
  end.
Proof.
  intros Hn HF. unfold renormalize, shr_fexp. rewrite HF, Z.sub_diag.
  unfold shr, shr_record_of_loc. cbn [shr_m].
  destruct n as [|p|p]; [auto | | lia].
  change (Zdigits2 (Zpos p)) with (Zpos (digits2_pos p)) in HF.
  destruct (Z.leb_spec F (emax - prec)) as [L|G].
  - repeat split; auto. unfold SpecFloat.bounded, canonical_mantissa.
    rewrite HF, Z.eqb_refl. apply Z.leb_le. assumption.
  - repeat split; auto; lia.
Qed.

(** The mantissa was rounded up to [2^53]: it is halved. *)
Lemma renormalize_carry (s : bool) (F : Z) :
  emin64 <= F ->
  match renormalize s (2 ^ 53) F with
  | S754_finite s' m' e' =>
      s' = s /\ Zpos m' = 2 ^ 52 /\ e' = F + 1 /\ SpecFloat.bounded prec emax m' e' = true
  | S754_infinity s' => s' = s /\ emax - prec < F + 1
  | _ => False
  end.
Proof.
  intros HF. unfold renormalize, shr_fexp.
  change (Zdigits2 (2 ^ 53)) with 54.
  replace (fexp64 (54 + F) - F) with 1 by (rewrite fexp64_eq; lia).
  change (shr (shr_record_of_loc (2 ^ 53) loc_Exact) F 1)
    with ({| shr_m := 2 ^ 52; shr_r := false; shr_s := false |}, F + 1).
  cbn [shr_m]. change (2 ^ 52) with (Zpos 4503599627370496).
  destruct (Z.leb_spec (F + 1) (emax - prec)) as [L|G].
  - repeat split; auto. unfold SpecFloat.bounded, canonical_mantissa.
    change (Zpos (digits2_pos 4503599627370496)) with 53.
    replace (fexp64 (53 + (F + 1))) with (F + 1) by (rewrite fexp64_eq; lia).
    rewrite Z.eqb_refl. apply Z.leb_le. assumption.
  - split; auto.
Qed.

Lemma Zdigits2_pow2 (k : Z) : 0 <= k -> Zdigits2 (2 ^ k) = k + 1.
Proof.
  intros Hk. apply Zdigits2_unique; [|lia].
  rewrite bpow_IZR by assumption. replace (k + 1 - 1) with k by lia.
  split; [lra | apply bpow_lt; lia].
Qed.

(** [binary_round_aux] rounds the number it is given to the format; a
    finite result is a valid float, and infinity stands for a rounded value
    of [2^1024] or more. *)
Lemma binary_round_aux_spec (s : bool) (m e : Z) (l : location) (x : R) :
  0 <= m -> inbetween m x l -> e <= fexp64 (Zdigits2 m + e) ->
  exists r, rounds_to (x * bpow e) r /\
    match binary_round_aux prec emax s m e l with
    | S754_zero s' => s' = s /\ r = 0%R
    | S754_finite s' m' e' =>
        s' = s /\ r = (IZR (Zpos m') * bpow e')%R
        /\ SpecFloat.bounded prec emax m' e' = true
    | S754_infinity s' => s' = s /\ (bpow emax <= r)%R
    | S754_nan => False
    end.
Proof.
  intros Hm Hx He. rewrite binary_round_aux_renormalize.
  generalize (shr_fexp_inbetween m e l x Hm Hx).
  destruct (shr_fexp prec emax m e l) as [mrs1 e1].
  intros (He1 & Hm1 & H1).
  set (d := Zdigits2 m) in *. set (F := fexp64 (d + e)) in *.
  rewrite Z.max_r in He1 by lia. subst e1.
  set (n := round_nearest_even (shr_m mrs1) (loc_of_shr_record mrs1)).
  assert (Hn : rne (x * bpow (e - F)) n) by (apply round_nearest_even_rne; assumption).
  assert (Hn0 : 0 <= n)
    by (generalize (round_nearest_even_ge (shr_m mrs1) (loc_of_shr_record mrs1)); fold n; lia).
  clearbody n. clear H1 Hm1 mrs1.
  assert (HF : F = Z.max (d + e - 53) emin64) by reflexivity.
  assert (Hd : 0 <= d) by apply Zdigits2_nonneg.
  (* the magnitude of [x] *)
  assert (Hxu : (x < bpow d)%R).
  { destruct (Z.eq_dec m 0) as [->|Hm0].
    - apply inbetween_bounds in Hx. simpl in Hx. unfold d, bpow. simpl. lra.
    - generalize (Zdigits2_bounds m ltac:(lia)). fold d. intros [_ Hb].
      apply IZR_lt_bpow in Hb; [|assumption].
      apply inbetween_bounds in Hx. lra. }
  assert (Hxl : (bpow (d - 1) <= x)%R \/ d = 0).
  { destruct (Z.eq_dec m 0) as [->|Hm0]; [right; reflexivity|left].
    generalize (Zdigits2_bounds m ltac:(lia)). fold d. intros [Hb _].
    apply inbetween_bounds in Hx. lra. }
  assert (Hx0 : (0 <= x)%R).
  { apply inbetween_bounds in Hx. apply IZR_le in Hm. lra. }
  assert (HC : cexp_of (x * bpow e) F).
  { exists (d + e). split; [reflexivity|]. split.
    - rewrite bpow_add. apply Rmult_lt_compat_r; [apply bpow_gt_0 | assumption].
    - destruct Hxl as [Hxl|Hxl]; [left | right; lia].
      replace (d + e - 1) with ((d - 1) + e) by lia. rewrite bpow_add.
      apply Rmult_le_compat_r; [apply Rlt_le, bpow_gt_0 | assumption]. }
  exists (IZR n * bpow F)%R. split.
  { exists F, n. split; [assumption|]. split; [|reflexivity].
    replace (x * bpow e * bpow (- F))%R with (x * bpow (e - F))%R; [assumption|].
    unfold Z.sub. rewrite bpow_add. ring. }
  (* the scaled number lies below [2^k] *)
  set (k := d + e - F).
  assert (Hxk : (x * bpow (e - F) < bpow k)%R).
  { unfold k. replace (d + e - F) with (d + (e - F)) by lia. rewrite bpow_add.
    apply Rmult_lt_compat_r; [apply bpow_gt_0 | assumption]. }
  destruct (Z_le_gt_dec k 0) as [Hk|Hk].
  - (* at most one unit of the smallest exponent *)
    assert (F = emin64) by lia.
    assert (n <= 1).
    { apply (rne_le_IZR _ _ _ Hn).
      apply Rle_trans with (bpow k); [lra|].
      change 1%R with (bpow 0). apply bpow_le. assumption. }
    generalize (renormalize_fits s n F Hn0).
    assert (fexp64 (Zdigits2 n + F) = F).
    { assert (Zdigits2 n <= 1) by (destruct n as [|[p|p|]|p]; simpl; lia).
      generalize (Zdigits2_nonneg n). rewrite fexp64_eq. lia. }
    intros HR. specialize (HR H1).
    destruct (renormalize s n F) as [s'|s'| |s' m' e'].
    + destruct HR as [-> ->]. split; [reflexivity | simpl; ring].
    + unfold emax, prec in HR. lia.
    + assumption.
    + destruct HR as (-> & <- & -> & Hb). auto.
  - (* a mantissa between [2^(k-1)] and [2^k] *)
    assert (Hd0 : d <> 0) by lia.
    destruct Hxl as [Hxl|Hxl]; [|contradiction].
    assert (Hxk' : (bpow (k - 1) <= x * bpow (e - F))%R).
    { unfold k. replace (d + e - F - 1) with ((d - 1) + (e - F)) by lia.
      rewrite bpow_add.
      apply Rmult_le_compat_r; [apply Rlt_le, bpow_gt_0 | assumption]. }
    assert (Hnl : 2 ^ (k - 1) <= n).
    { apply (rne_ge_IZR _ _ _ Hn). rewrite bpow_IZR by lia. assumption. }
    assert (Hnu : n <= 2 ^ k).
    { apply (rne_le_IZR _ _ _ Hn). rewrite bpow_IZR by lia. lra. }
    assert (0 < 2 ^ (k - 1)) by (apply Z.pow_pos_nonneg; lia).
    destruct (Z.eq_dec n (2 ^ k)) as [En|En].
    + destruct (Z.eq_dec k 53) as [Ek|Ek].
      * (* carry into the next binade *)
        rewrite Ek in En. subst n.
        generalize (renormalize_carry s F ltac:(lia)).
        destruct (renormalize s (2 ^ 53) F) as [s'|s'| |s' m' e']; try contradiction.
        -- intros [-> HI]. split; [reflexivity|].
           rewrite bpow_IZR, <- bpow_add by lia. apply bpow_le.
           unfold emax, prec in *. lia.
        -- intros (-> & -> & -> & Hb). split; [reflexivity|]. split; [|assumption].
           rewrite !bpow_IZR, <- !bpow_add by lia. f_equal. lia.
      * generalize (renormalize_fits s n F Hn0).
        assert (fexp64 (Zdigits2 n + F) = F).
        { rewrite En, Zdigits2_pow2 by lia. rewrite fexp64_eq. lia. }
        intros HR. specialize (HR H0).
        destruct (renormalize s n F) as [s'|s'| |s' m' e'].
        -- lia.
        -- unfold emax, prec in HR. lia.
        -- assumption.
        -- destruct HR as (-> & <- & -> & Hb). auto.
    + generalize (renormalize_fits s n F Hn0).
      assert (Zdigits2 n = k).
      { apply Zdigits2_unique; [|lia]. rewrite <- !bpow_IZR by lia.
        split; [apply IZR_le | apply IZR_lt]; lia. }
      assert (fexp64 (Zdigits2 n + F) = F).
      { rewrite H0. unfold k. replace (d + e - F + F) with (d + e) by lia. reflexivity. }
      intros HR. specialize (HR H1).
      destruct (renormalize s n F) as [s'|s'| |s' m' e'].
      * lia.
      * destruct HR as (-> & _ & HI). split; [reflexivity|].
        apply Rle_trans with (IZR (2 ^ (k - 1)) * bpow F)%R.
        -- rewrite bpow_IZR, <- bpow_add by lia. apply bpow_le.
           unfold emax, prec in *. lia.
        -- apply Rmult_le_compat_r; [apply Rlt_le, bpow_gt_0 | apply IZR_le; assumption].
      * assumption.
      * destruct HR as (-> & <- & -> & Hb). auto.
Qed.

(** ** Values of floats *)

Lemma bounded_canonical (m : positive) (e : Z) :
  SpecFloat.bounded prec emax m e = true ->
  e = Z.max (Zpos (digits2_pos m) + e - 53) emin64 /\ e <= 971.
Proof.
  unfold SpecFloat.bounded, canonical_mantissa. intros H.
  apply andb_true_iff in H. destruct H as [H1 H2].
  apply Z.eqb_eq in H1. apply Z.leb_le in H2. rewrite fexp64_eq in H1.
  unfold emax, prec in H2. lia.
Qed.

Lemma bounded_lt_emax (m : positive) (e : Z) :
  SpecFloat.bounded prec emax m e = true ->
  (IZR (Zpos m) * bpow e < bpow emax)%R.
Proof.
  intros H. apply bounded_canonical in H. destruct H as [H1 H2].
  generalize (Zdigits2_bounds (Zpos m) ltac:(lia)). simpl Zdigits2. intros [_ Hb].
  apply Rlt_le_trans with (bpow (Zpos (digits2_pos m)) * bpow e)%R.
  - apply Rmult_lt_compat_r; [apply bpow_gt_0 | assumption].
  - rewrite <- bpow_add. apply bpow_le. unfold emax. lia.
Qed.

Lemma rounds_to_0 : rounds_to 0 0.
Proof.
  exists emin64, 0. split.
  - exists emin64. split; [reflexivity|]. split; [apply bpow_gt_0 | right; reflexivity].
  - split; [rewrite Rmult_0_l; apply rne_IZR | ring].
Qed.

Lemma approx_0 (s : bool) : approx 0 (S754_zero s).
Proof. exists 0%R. split; [apply rounds_to_0 | reflexivity]. Qed.

Lemma approx_finite (v : R) (x : spec_float) :
  approx v x -> sf_finite x = true -> rounds_to v (SF2R x).
Proof.
  intros (r & Hr & H) Hf. destruct x as [s|s| |s m e]; try discriminate.
  - subst r. assumption.
  - destruct H as (-> & -> & _). assumption.
Qed.

Lemma approx_mono (v1 v2 : R) (x1 x2 : spec_float) :
  (v1 <= v2)%R -> approx v1 x1 -> approx v2 x2 -> sf_le x1 x2.
Proof.
  intros Hv H1 H2 Hf.
  assert (R2 := approx_finite _ _ H2 Hf).
  assert (B2 : (SF2R x2 < bpow emax)%R).
  { destruct H2 as (r & _ & H2). destruct x2 as [s|s| |s m e]; try discriminate.
    - apply bpow_gt_0.
    - destruct H2 as (-> & _ & Hb). apply bounded_lt_emax. assumption. }
  destruct x1 as [s|s| |s m e].
  - split; [reflexivity|]. apply (rounds_to_mono v1 v2); auto.
    apply approx_finite; auto.
  - exfalso. destruct H1 as (r & Hr & _ & Hb).
    generalize (rounds_to_mono _ _ _ _ Hv Hr R2). lra.
  - destruct H1 as (r & _ & []).
  - split; [reflexivity|]. apply (rounds_to_mono v1 v2); auto.
    apply approx_finite; auto.
Qed.

(** ** [float(n)] *)

Lemma Pos_iter_xO (a d : positive) : Zpos (Pos.iter xO a d) = Zpos a * 2 ^ Zpos d.
Proof.
  induction d as [|d IH] using Pos.peano_ind.
  - simpl. lia.
  - rewrite Pos.iter_succ, Pos2Z.inj_succ, Z.pow_succ_r by lia.
    change (Zpos (Pos.iter xO a d)~0) with (2 * Zpos (Pos.iter xO a d)).
    rewrite IH. ring.
Qed.

Lemma binary_round_approx (p : positive) :
  approx (IZR (Zpos p)) (binary_round prec emax false p 0).
Proof.
  unfold binary_round, shl_align.
  set (F := fexp64 (Zpos (digits2_pos p) + 0)).
  assert (HF : F = Z.max (Zpos (digits2_pos p) - 53) emin64)
    by (unfold F; rewrite fexp64_eq; f_equal; lia).
  destruct (F - 0) as [|d|d] eqn:E.
  - destruct (binary_round_aux_spec false (Zpos p) 0 loc_Exact (IZR (Zpos p)))
      as (r & Hr & H); [lia | reflexivity | simpl Zdigits2; fold F; lia |].
    rewrite bpow_0, Rmult_1_r in Hr. exists r. split; [assumption|].
    destruct (binary_round_aux prec emax false (Zpos p) 0 loc_Exact); tauto.
  - destruct (binary_round_aux_spec false (Zpos p) 0 loc_Exact (IZR (Zpos p)))
      as (r & Hr & H); [lia | reflexivity | simpl Zdigits2; fold F; lia |].
    rewrite bpow_0, Rmult_1_r in Hr. exists r. split; [assumption|].
    destruct (binary_round_aux prec emax false (Zpos p) 0 loc_Exact); tauto.
  - assert (HFd : F = Zneg d) by lia.
    assert (Hd : Zdigits2 (Zpos (Pos.iter xO p d)) = Zpos (digits2_pos p) + Zpos d).
    { apply Zdigits2_unique; [|lia]. rewrite Pos_iter_xO, mult_IZR, bpow_IZR by lia.
      generalize (Zdigits2_bounds (Zpos p) ltac:(lia)). simpl Zdigits2. intros [B1 B2].
      replace (Zpos (digits2_pos p) + Zpos d - 1) with ((Zpos (digits2_pos p) - 1) + Zpos d) by lia.
      rewrite !bpow_add. generalize (bpow_gt_0 (Zpos d)). nra. }
    destruct (binary_round_aux_spec false (Zpos (Pos.iter xO p d)) F loc_Exact
                (IZR (Zpos (Pos.iter xO p d))))
      as (r & Hr & H); [lia | reflexivity | |].
    + rewrite Hd. rewrite fexp64_eq. lia.
    + replace (IZR (Zpos (Pos.iter xO p d)) * bpow F)%R with (IZR (Zpos p)) in Hr.
      * exists r. split; [assumption|].
        destruct (binary_round_aux prec emax false (Zpos (Pos.iter xO p d)) F loc_Exact); tauto.
      * rewrite Pos_iter_xO, mult_IZR, bpow_IZR, Rmult_assoc, <- bpow_add by lia.
        replace (Zpos d + F) with 0 by lia. rewrite bpow_0. ring.
Qed.

(** ** Multiplication *)

Lemma Zdigits2_mul_ge (a b : positive) :
  Zpos (digits2_pos a) + Zpos (digits2_pos b) - 1 <= Zdigits2 (Zpos (a * b)).
Proof.
  generalize (Zdigits2_bounds (Zpos a) ltac:(lia)) (Zdigits2_bounds (Zpos b) ltac:(lia))
             (Zdigits2_bounds (Zpos (a * b)) ltac:(lia)).
  simpl Zdigits2. intros [A1 _] [B1 _] [_ C2].
  rewrite Pos2Z.inj_mul, mult_IZR in C2.
  assert (H : (bpow (Zpos (digits2_pos a) - 1 + (Zpos (digits2_pos b) - 1))
               < bpow (Zpos (digits2_pos (a * b))))%R).
  { rewrite bpow_add.
    generalize (bpow_gt_0 (Zpos (digits2_pos a) - 1)) (bpow_gt_0 (Zpos (digits2_pos b) - 1)).
    nra. }
  apply bpow_lt_inv in H. lia.
Qed.

Lemma SF64mul_approx (mx my : positive) (ex ey : Z) :
  SpecFloat.bounded prec emax mx ex = true ->
  SpecFloat.bounded prec emax my ey = true ->
  approx (IZR (Zpos mx) * bpow ex * (IZR (Zpos my) * bpow ey))
    (SF64mul (S754_finite false mx ex) (S754_finite false my ey)).
Proof.
  intros Bx By. apply bounded_canonical in Bx, By.
  unfold SF64mul, SFmul. simpl xorb.
  destruct (binary_round_aux_spec false (Zpos (mx * my)) (ex + ey) loc_Exact
              (IZR (Zpos (mx * my)))) as (r & Hr & H); [lia | reflexivity | |].
  - generalize (Zdigits2_mul_ge mx my). rewrite fexp64_eq. lia.
  - exists r. split.
    + replace (IZR (Zpos mx) * bpow ex * (IZR (Zpos my) * bpow ey))%R
        with (IZR (Zpos (mx * my)) * bpow (ex + ey))%R; [assumption|].
      rewrite Pos2Z.inj_mul, mult_IZR, bpow_add. ring.
    + destruct (binary_round_aux prec emax false (Zpos (mx * my)) (ex + ey) loc_Exact);
        tauto.
Qed.

(** ** Division *)

Lemma new_location_inbetween (a q r : Z) :
  0 < a -> 0 <= r < a ->
  inbetween q (IZR (a * q + r) / IZR a) (new_location a r).
Proof.
  intros Ha Hr.
  assert (Ha' : (0 < IZR a)%R) by (apply IZR_lt; assumption).
  replace (IZR (a * q + r) / IZR a)%R with (IZR q + IZR r / IZR a)%R
    by (rewrite plus_IZR, mult_IZR; field; lra).
  assert (Hr0 : (0 <= IZR r)%R) by (apply IZR_le; lia).
  assert (Hra : (IZR r < IZR a)%R) by (apply IZR_lt; lia).
  assert (T : forall c : R, (IZR r / IZR a < c <-> IZR r < c * IZR a)%R).
  { intros c. split; intros H.
    - apply Rmult_lt_compat_r with (r := IZR a) in H; [|assumption].
      unfold Rdiv in H. rewrite Rmult_assoc, Rinv_l, Rmult_1_r in H by lra. assumption.
    - apply Rmult_lt_reg_r with (IZR a); [assumption|].
      unfold Rdiv. rewrite Rmult_assoc, Rinv_l, Rmult_1_r by lra. assumption. }
  assert (T' : forall c : R, (c < IZR r / IZR a <-> c * IZR a < IZR r)%R).
  { intros c. split; intros H.
    - apply Rmult_lt_compat_r with (r := IZR a) in H; [|assumption].
      unfold Rdiv in H. rewrite Rmult_assoc, Rinv_l, Rmult_1_r in H by lra. assumption.
    - apply Rmult_lt_reg_r with (IZR a); [assumption|].
      unfold Rdiv. rewrite Rmult_assoc, Rinv_l, Rmult_1_r by lra. assumption. }
  assert (U : (IZR r / IZR a < 1)%R) by (apply T; lra).
  assert (Z : r = 0 -> (IZR q + IZR r / IZR a)%R = IZR q).
  { intros ->. unfold Rdiv. rewrite Rmult_0_l. ring. }
  assert (P : r <> 0 -> (0 < IZR r / IZR a)%R).
  { intros Hr1. apply T'. rewrite Rmult_0_l. apply IZR_lt. lia. }
  unfold new_location. destruct (Z.even a) eqn:Ea.
  - unfold new_location_even.
    destruct (Z.eqb_spec r 0) as [Hr1|Hr1]; [exact (Z Hr1)|]. specialize (P Hr1).
    destruct (Z.compare_spec (2 * r) a) as [E|E|E]; simpl.
    + apply (f_equal IZR) in E. rewrite mult_IZR in E.
      assert (IZR r / IZR a = / 2)%R; [|lra].
      apply Rmult_eq_reg_r with (IZR a); [|lra].
      unfold Rdiv. rewrite Rmult_assoc, Rinv_l by lra. lra.
    + apply IZR_lt in E. rewrite mult_IZR in E.
      assert (IZR r / IZR a < / 2)%R by (apply T; lra). lra.
    + apply IZR_lt in E. rewrite mult_IZR in E.
      assert (/ 2 < IZR r / IZR a)%R by (apply T'; lra). lra.
  - unfold new_location_odd.
    destruct (Z.eqb_spec r 0) as [Hr1|Hr1]; [exact (Z Hr1)|]. specialize (P Hr1).
    assert (Ho : 2 * r <> a).
    { intros <-. rewrite Z.even_mul in Ea. discriminate. }
    destruct (Z.compare_spec (2 * r + 1) a) as [E|E|E]; simpl.
    + assert (E' : 2 * r < a) by lia. apply IZR_lt in E'. rewrite mult_IZR in E'.
      assert (IZR r / IZR a < / 2)%R by (apply T; lra). lra.
    + assert (E' : 2 * r < a) by lia. apply IZR_lt in E'. rewrite mult_IZR in E'.
      assert (IZR r / IZR a < / 2)%R by (apply T; lra). lra.
    + assert (E' : a < 2 * r) by lia. apply IZR_lt in E'. rewrite mult_IZR in E'.
      assert (/ 2 < IZR r / IZR a)%R by (apply T'; lra). lra.
Qed.

Lemma SFdiv_core_binary_spec (mx my : positive) (ex ey : Z) :
  let '(q, e', l) := SFdiv_core_binary prec emax (Zpos mx) ex (Zpos my) ey in
  0 <= q
  /\ inbetween q (IZR (Zpos mx) * bpow ex / (IZR (Zpos my) * bpow ey) * bpow (- e')) l
  /\ e' <= fexp64 (Zdigits2 q + e').
Proof.
  unfold SFdiv_core_binary.
  set (d1 := Zdigits2 (Zpos mx)). set (d2 := Zdigits2 (Zpos my)).
  set (e' := IntDef.Z.min (fexp64 (d1 + ex - (d2 + ey))) (ex - ey)).
  assert (He' : e' = Z.min (fexp64 (d1 + ex - (d2 + ey))) (ex - ey)) by reflexivity.
  clearbody e'.
  set (s := ex - ey - e').
  assert (Hs : 0 <= s) by (unfold s; lia).
  set (m' := match s with
             | Zpos _ => IntDef.Z.shiftl (Zpos mx) s
             | 0 => Zpos mx
             | Zneg _ => 0
             end).
  assert (Hm' : m' = Zpos mx * 2 ^ s).
  { unfold m'. destruct s as [|p|p]; [lia | | lia].
    apply (Z.shiftl_mul_pow2 (Zpos mx) (Zpos p)). lia. }
  clearbody m'.
  generalize (Z_div_mod m' (Zpos my) ltac:(lia)).
  change (IntDef.Z.div_eucl m' (Zpos my)) with (Z.div_eucl m' (Zpos my)).
  destruct (Z.div_eucl m' (Zpos my)) as [q r]. intros [Hq Hr].
  assert (H2s : 0 < 2 ^ s) by (apply Z.pow_pos_nonneg; lia).
  assert (Hq0 : 0 <= q) by nia.
  split; [assumption|]. split.
  - replace (IZR (Zpos mx) * bpow ex / (IZR (Zpos my) * bpow ey) * bpow (- e'))%R
      with (IZR (Zpos my * q + r) / IZR (Zpos my))%R.
    + apply new_location_inbetween; lia.
    + rewrite <- Hq, Hm', mult_IZR, bpow_IZR by assumption.
      unfold s. unfold Z.sub. rewrite !bpow_add, !bpow_opp.
      generalize (bpow_gt_0 ey) (bpow_gt_0 e'). intros G1 G2.
      assert (G3 : (0 < IZR (Zpos my))%R) by (apply IZR_lt; lia).
      field. repeat split; lra.
  - (* the quotient has enough digits *)
    assert (Hd : d1 + s - d2 <= Zdigits2 q).
    { destruct (Z_le_gt_dec (d1 + s - d2) 0) as [L|G].
      - generalize (Zdigits2_nonneg q). lia.
      - generalize (digits2_pos_bounds mx) (digits2_pos_bounds my).
        fold (Zdigits2 (Zpos mx)) (Zdigits2 (Zpos my)). fold d1 d2. intros [A1 _] [_ B2].
        assert (Hq1 : 2 ^ (d1 + s - d2 - 1) <= q).
        { destruct (Z_le_gt_dec (2 ^ (d1 + s - d2 - 1)) q) as [L|G']; [assumption|exfalso].
          assert (P1 : 2 ^ (d1 - 1) * 2 ^ s = 2 ^ d2 * 2 ^ (d1 + s - d2 - 1)).
          { assert (0 < d1) by (apply Zdigits2_pos; lia).
            assert (0 < d2) by (apply Zdigits2_pos; lia).
            rewrite <- !Z.pow_add_r by lia. f_equal. lia. }
          assert (P2 : 0 < 2 ^ (d1 + s - d2 - 1)) by (apply Z.pow_pos_nonneg; lia).
          nia. }
        destruct (Z.eq_dec q 0) as [->|Hq2].
        + assert (0 < 2 ^ (d1 + s - d2 - 1)) by (apply Z.pow_pos_nonneg; lia). lia.
        + generalize (Zdigits2_bounds q ltac:(lia)). intros [_ C2].
          rewrite <- bpow_IZR in C2 by (apply Zdigits2_nonneg).
          apply lt_IZR in C2.
          assert (2 ^ (d1 + s - d2 - 1) < 2 ^ Zdigits2 q) by lia.
          apply Z.pow_lt_mono_r_iff in H; [lia | lia | apply Zdigits2_nonneg]. }
    rewrite !fexp64_eq in *. lia.
Qed.

Lemma SF64div_approx (mx my : positive) (ex ey : Z) :
  approx (IZR (Zpos mx) * bpow ex / (IZR (Zpos my) * bpow ey))
    (SF64div (S754_finite false mx ex) (S754_finite false my ey)).
Proof.
  unfold SF64div, SFdiv. simpl xorb.
  generalize (SFdiv_core_binary_spec mx my ex ey).
  destruct (SFdiv_core_binary prec emax (Zpos mx) ex (Zpos my) ey) as [[q e'] l].
  intros (Hq & Hl & He).
  destruct (binary_round_aux_spec false q e' l _ Hq Hl He) as (r & Hr & H).
  exists r. split.
  - replace (IZR (Zpos mx) * bpow ex / (IZR (Zpos my) * bpow ey))%R
      with (IZR (Zpos mx) * bpow ex / (IZR (Zpos my) * bpow ey) * bpow (- e') * bpow e')%R;
      [assumption|].
    rewrite Rmult_assoc, <- bpow_add. replace (- e' + e') with 0 by lia.
    rewrite bpow_0. ring.
  - destruct (binary_round_aux prec emax false q e' l); tauto.
Qed.

(** ** Comparison of valid floats *)

Lemma bounded_exponent_lt (m1 m2 : positive) (e1 e2 : Z) :
  SpecFloat.bounded prec emax m1 e1 = true ->
  SpecFloat.bounded prec emax m2 e2 = true ->
  e1 < e2 ->
  (IZR (Zpos m1) * bpow e1 <= IZR (Zpos m2) * bpow e2)%R.
Proof.
  intros B1 B2 L. apply bounded_canonical in B1, B2.
  generalize (Zdigits2_bounds (Zpos m1) ltac:(lia)) (Zdigits2_bounds (Zpos m2) ltac:(lia)).
  simpl Zdigits2. intros [_ U1] [L2 _].
  apply Rle_trans with (bpow (Zpos (digits2_pos m1) + e1)).
  - rewrite bpow_add. apply Rmult_le_compat_r; [apply Rlt_le, bpow_gt_0 | lra].
  - apply Rle_trans with (bpow (Zpos (digits2_pos m2) - 1 + e2)).
    + apply bpow_le. lia.
    + rewrite bpow_add. apply Rmult_le_compat_r; [apply Rlt_le, bpow_gt_0 | lra].
Qed.

Lemma SFleb_nonneg (x1 x2 : spec_float) :
  valid_binary x1 = true -> valid_binary x2 = true ->
  sf_nonneg x1 -> SFleb x1 x2 = true ->
  sf_nonneg x2 /\ sf_le x1 x2.
Proof.
  unfold SFleb, sf_le.
  destruct x1 as [s1|s1| |s1 m1 e1], x2 as [s2|s2| |s2 m2 e2]; simpl;
    intros V1 V2 N1 H; try discriminate; subst;
    repeat match goal with b : bool |- _ => destruct b end; try discriminate;
    (split; [first [exact I | reflexivity]|]);
    intros Hf; try discriminate Hf; (split; [reflexivity|]);
    try lra;
    try (generalize (bpow_gt_0 e2) (IZR_lt 0 (Zpos m2) ltac:(lia)); nra).
  revert H. change (IntDef.Z.compare e1 e2) with (e1 ?= e2).
  destruct (Z.compare_spec e1 e2) as [E|L|G]; try discriminate.
  - subst e2. change (PosDef.Pos.compare_cont Eq m1 m2) with (Pos.compare m1 m2).
    destruct (Pos.compare_spec m1 m2) as [E|L|G]; try discriminate; intros _.
    + subst. lra.
    + apply Rmult_le_compat_r; [apply Rlt_le, bpow_gt_0 | apply IZR_le; lia].
  - intros _. apply bounded_exponent_lt; assumption.
Qed.

(** ** [round] *)

Lemma round_half_even_pos_rne (m : positive) (e : Z) :
  rne (IZR (Zpos m) * bpow e) (Py.round_half_even_pos m e).
Proof.
  destruct e as [|p|p]; unfold Py.round_half_even_pos.
  - rewrite bpow_0, Rmult_1_r, Z.pow_0_r, Z.mul_1_r. apply rne_IZR.
  - rewrite <- bpow_IZR, <- mult_IZR by lia. apply rne_IZR.
  - set (d := 2 ^ Zpos p).
    assert (Hd : 0 < d) by (apply Z.pow_pos_nonneg; lia).
    assert (Ed : Z.even d = true).
    { unfold d. replace (Zpos p) with (Z.succ (Zpos p - 1)) by lia.
      rewrite Z.pow_succ_r by lia. rewrite Z.even_mul. reflexivity. }
    generalize (Z.div_mod (Zpos m) d ltac:(lia)) (Z.mod_pos_bound (Zpos m) d Hd).
    set (q := Zpos m / d). set (r := Zpos m mod d). intros Hq Hr.
    clearbody q r.
    assert (Hx : (IZR (Zpos m) * bpow (Zneg p))%R = (IZR (d * q + r) / IZR d)%R).
    { rewrite <- Hq. unfold d. rewrite bpow_IZR by lia.
      change (Zneg p) with (- Zpos p). rewrite bpow_opp. reflexivity. }
    rewrite Hx.
    replace (match 2 * r ?= d with
             | Eq => if Z.even q then q else q + 1
             | Lt => q
             | Gt => q + 1
             end) with (round_nearest_even q (new_location d r)).
    + apply round_nearest_even_rne, new_location_inbetween; assumption.
    + unfold new_location. rewrite Ed. unfold new_location_even.
      destruct (Z.eqb_spec r 0) as [->|Hr0].
      * change (2 * 0) with 0. destruct (Z.compare_spec 0 d); try lia. reflexivity.
      * change (IntDef.Z.compare (IntDef.Z.mul 2 r) d) with (2 * r ?= d).
        destruct (2 * r ?= d); reflexivity.
Qed.

Lemma round_Ok (x : float) (n : Z) :
  Py.round x = Ok n -> isfinite x = true /\ rne (F2R x) n.
Proof.
  unfold Py.round, isfinite, F2R.
  destruct (Prim2SF x) as [s|s| |s m e]; simpl; try discriminate.
  - intros H. injection H as <-. split; [reflexivity | apply rne_IZR].
  - intros H. injection H as <-. split; [reflexivity|].
    destruct s; [apply rne_opp|]; apply round_half_even_pos_rne.
Qed.

Lemma round_isfinite (x : float) :
  isfinite x = true -> exists n, Py.round x = Ok n.
Proof.
  unfold Py.round, isfinite.
  destruct (Prim2SF x) as [s|s| |s m e]; simpl; try discriminate; eauto.
Qed.

Lemma round_mono (y1 y2 : float) (n2 : Z) :
  sf_le (Prim2SF y1) (Prim2SF y2) ->
  Py.round y2 = Ok n2 ->
  exists n1, Py.round y1 = Ok n1 /\ n1 <= n2.
Proof.
  intros L H2. apply round_Ok in H2. destruct H2 as [F2 R2].
  destruct (L F2) as [F1 V]. destruct (round_isfinite y1 F1) as [n1 H1].
  exists n1. split; [assumption|].
  apply round_Ok in H1. destruct H1 as [_ R1].
  exact (rne_mono _ _ _ _ V R1 R2).
Qed.

(** ** Signs through the float operations *)

Lemma binary_round_aux_sign (s : bool) (m e : Z) (l : location) :
  match binary_round_aux prec emax s m e l with
  | S754_nan => True
  | S754_zero s' | S754_infinity s' | S754_finite s' _ _ => s' = s
  end.
Proof.
  unfold binary_round_aux.
  destruct (shr_fexp prec emax m e l) as [mrs e'].
  destruct (shr_fexp prec emax _ e' loc_Exact) as [mrs' e''].
  destruct (shr_m mrs'); auto.
  destruct (e'' <=? emax - prec); auto.
Qed.

Lemma binary_round_aux_nonneg (m e : Z) (l : location) :
  sf_nonneg (binary_round_aux prec emax false m e l).
Proof.
  generalize (binary_round_aux_sign false m e l).
  destruct (binary_round_aux prec emax false m e l); simpl; auto.
Qed.

Lemma SF64mul_nonneg (x y : spec_float) :
  sf_nonneg x -> sf_nonneg y -> sf_nonneg (SF64mul x y).
Proof.
  destruct x as [sx|sx| |sx mx ex], y as [sy|sy| |sy my ey]; simpl; auto;
    intros; subst; simpl; auto.
  apply binary_round_aux_nonneg.
Qed.

Lemma SF64div_nonneg (x : spec_float) (m : positive) (e : Z) :
  sf_nonneg x -> sf_nonneg (SF64div x (S754_finite false m e)).
Proof.
  destruct x as [sx|sx| |sx mx ex]; simpl; auto; intros; subst; simpl; auto.
  unfold SF64div, SFdiv.
  destruct (SFdiv_core_binary prec emax (Z.pos mx) ex (Z.pos m) e) as [[q e'] l].
  apply binary_round_aux_nonneg.
Qed.

Lemma Prim2SF_nonneg (x : float) :
  (0 <=? x)%float = true -> sf_nonneg (Prim2SF x).
Proof.
  rewrite leb_spec. change (Prim2SF 0) with (S754_zero false).
  destruct (Prim2SF x) as [s|s| |s m e]; simpl; auto; destruct s; auto; discriminate.
Qed.

Lemma SF2R_nonneg (x : spec_float) : sf_nonneg x -> (0 <= SF2R x)%R.
Proof.
  destruct x as [s|s| |s m e]; simpl; try lra. intros ->.
  apply Rmult_le_pos; [apply IZR_le; lia | apply Rlt_le, bpow_gt_0].
Qed.

(** ** Negating the resolution or the page count *)

Lemma binary_round_aux_opp (s : bool) (m e : Z) (l : location) :
  binary_round_aux prec emax (negb s) m e l
  = SFopp (binary_round_aux prec emax s m e l).
Proof.
  unfold binary_round_aux.
  destruct (shr_fexp prec emax m e l) as [mrs e'].
  destruct (shr_fexp prec emax _ e' loc_Exact) as [mrs' e''].
  destruct (shr_m mrs'); auto.
  destruct (e'' <=? emax - prec); auto.
Qed.

Lemma SFopp_involutive_aux (x : spec_float) : SFopp (SFopp x) = x.
Proof. destruct x as [s|s| |s m e]; simpl; try destruct s; reflexivity. Qed.

Lemma binary_normalize_opp (n : Z) :
  n <> 0 ->
  binary_normalize prec emax (- n) 0 false
  = SFopp (binary_normalize prec emax n 0 false).
Proof.
  destruct n as [|p|p]; intros H; [congruence | |]; simpl;
    unfold binary_round;
    destruct (shl_align p 0 _) as [mz ez].
  - apply (binary_round_aux_opp false).
  - rewrite (binary_round_aux_opp false), SFopp_involutive_aux. reflexivity.
Qed.

Lemma opp_involutive (f : float) : (- - f)%float = f.
Proof.
  apply Prim2SF_inj. rewrite !opp_spec. apply SFopp_involutive_aux.
Qed.

Lemma SF2Prim_opp (x : spec_float) : SF2Prim (SFopp x) = (- SF2Prim x)%float.
Proof.
  destruct x as [[|]|[|]| |[|] m e]; simpl; try reflexivity.
  symmetry. apply opp_involutive.
Qed.

Lemma SF64mul_opp_r (x y : spec_float) :
  SF64mul x (SFopp y) = SFopp (SF64mul x y).
Proof.
  destruct x as [sx|sx| |sx mx ex], y as [sy|sy| |sy my ey]; simpl; auto;
    try (destruct sx, sy; reflexivity).
  rewrite <- binary_round_aux_opp. f_equal. destruct sx, sy; reflexivity.
Qed.

Lemma mul_opp_r (x y : float) : (x * - y)%float = (- (x * y))%float.
Proof.
  apply Prim2SF_inj. rewrite opp_spec, !mul_spec, opp_spec. apply SF64mul_opp_r.
Qed.

Lemma SF64mul_opp_l (x y : spec_float) :
  SF64mul (SFopp x) y = SFopp (SF64mul x y).
Proof.
  destruct x as [sx|sx| |sx mx ex], y as [sy|sy| |sy my ey]; simpl; auto;
    try (destruct sx, sy; reflexivity).
  rewrite <- binary_round_aux_opp. f_equal. destruct sx, sy; reflexivity.
Qed.

Lemma mul_opp_l (x y : float) : (- x * y)%float = (- (x * y))%float.
Proof.
  apply Prim2SF_inj. rewrite opp_spec, !mul_spec, opp_spec. apply SF64mul_opp_l.
Qed.

Lemma round_opp (y : float) :
  Py.round (- y) = (n <- Py.round y ;; Ok (- n)).
Proof.
  unfold Py.round. rewrite opp_spec.
  destruct (Prim2SF y) as [s|s| |s m e]; simpl; auto.
  destruct s; simpl; f_equal; lia.
Qed.

Lemma float_of_int_opp (n : Z) :
  n <> 0 ->
  Py.float_of_int (- n) = (f <- Py.float_of_int n ;; Ok (- f)%float).
Proof.
  intros H. unfold Py.float_of_int. rewrite binary_normalize_opp by assumption.
  destruct (binary_normalize prec emax n 0 false) as [s|s| |s m e].
  - exact (f_equal Ok (SF2Prim_opp (S754_zero s))).
  - reflexivity.
  - exact (f_equal Ok (SF2Prim_opp S754_nan)).
  - exact (f_equal Ok (SF2Prim_opp (S754_finite s m e))).
Qed.

(** ** [float(n)] is a valid float *)

Lemma binary_round_opp (p : positive) :
  binary_round prec emax true p 0 = SFopp (binary_round prec emax false p 0).
Proof.
  unfold binary_round. destruct (shl_align p 0 _) as [mz ez].
  apply (binary_round_aux_opp false).
Qed.

Lemma binary_normalize_shape (n : Z) :
  match binary_normalize prec emax n 0 false with
  | S754_zero _ => True
  | S754_finite s m e => s = (n <? 0) /\ SpecFloat.bounded prec emax m e = true
  | S754_infinity s => s = (n <? 0)
  | S754_nan => False
  end.
Proof.
  destruct n as [|p|p]; simpl binary_normalize; [exact I | |].
  - destruct (binary_round_approx p) as (r & _ & H).
    destruct (binary_round prec emax false p 0); tauto.
  - rewrite binary_round_opp.
    destruct (binary_round_approx p) as (r & _ & H).
    destruct (binary_round prec emax false p 0) as [s|s| |s m e]; simpl; try tauto.
    + destruct H as [-> _]. reflexivity.
    + destruct H as (-> & _ & H). auto.
Qed.

Lemma float_of_int_inv (n : Z) (d : float) :
  Py.float_of_int n = Ok d ->
  d = SF2Prim (binary_normalize prec emax n 0 false)
  /\ sf_finite (binary_normalize prec emax n 0 false) = true.
Proof.
  unfold Py.float_of_int. generalize (binary_normalize_shape n).
  destruct (binary_normalize prec emax n 0 false) as [s|s| |s m e];
    intros S H; try discriminate; try contradiction;
    (split; [cbv beta iota in H; congruence | reflexivity]).
Qed.

Lemma float_of_int_Ok (n : Z) (d : float) :
  Py.float_of_int n = Ok d ->
  Prim2SF d = binary_normalize prec emax n 0 false
  /\ isfinite d = true
  /\ (0 <= n -> sf_nonneg (Prim2SF d)).
Proof.
  intros H. apply float_of_int_inv in H. destruct H as [-> F].
  unfold isfinite. generalize (binary_normalize_shape n).
  destruct (binary_normalize prec emax n 0 false) as [s|s| |s m e];
    intros S; try discriminate; try contradiction.
  - rewrite Prim2SF_SF2Prim by reflexivity. simpl. auto.
  - destruct S as [-> B]. rewrite Prim2SF_SF2Prim by exact B.
    simpl. repeat split. intros Hn. apply Z.ltb_ge. assumption.
Qed.

(** An integer of at most 53 bits is converted exactly. *)
Lemma rounds_to_small_integer (p : positive) :
  Zpos p <= 2 ^ 53 -> rounds_to (IZR (Zpos p)) (IZR (Zpos p)).
Proof.
  intros Hp.
  generalize (Zdigits2_bounds (Zpos p) ltac:(lia)). simpl Zdigits2.
  set (K := Zpos (digits2_pos p)). intros [L U].
  assert (HK : 1 <= K <= 54).
  { split; [unfold K; lia|].
    assert (bpow (K - 1) < bpow 54)%R; [|apply bpow_lt_inv in H; lia].
    apply Rle_lt_trans with (1 := L). apply IZR_le in Hp.
    rewrite bpow_IZR in Hp by lia.
    apply Rle_lt_trans with (1 := Hp). apply bpow_lt. lia. }
  assert (C : cexp_of (IZR (Zpos p)) (K - 53)).
  { exists K. split; [rewrite fexp64_eq; lia | auto]. }
  destruct (Z.eq_dec K 54) as [E|E].
  - assert (Zpos p = 2 ^ 53).
    { apply Z.le_antisymm; [assumption|]. apply le_IZR.
      rewrite bpow_IZR by lia. rewrite E in L. exact L. }
    exists (K - 53), (2 ^ 52). split; [assumption|].
    rewrite H, E, !bpow_IZR, <- !bpow_add by lia. split; [|reflexivity].
    change (bpow (53 + - (54 - 53))) with (bpow 52).
    rewrite <- bpow_IZR by lia. apply rne_IZR.
  - exists (K - 53), (Zpos p * 2 ^ (53 - K)). split; [assumption|].
    rewrite mult_IZR, bpow_IZR by lia. split.
    + replace (- (K - 53)) with (53 - K) by lia. rewrite <- bpow_IZR, <- mult_IZR by lia.
      apply rne_IZR.
    + rewrite Rmult_assoc, <- bpow_add. replace (53 - K + (K - 53)) with 0 by lia.
      rewrite bpow_0. ring.
Qed.

Lemma float_of_int_exact (n : Z) :
  Z.abs n <= 2 ^ 53 ->
  exists f, Py.float_of_int n = Ok f /\ F2R f = IZR n.
Proof.
  intros Hn.
  assert (P : forall p, Zpos p <= 2 ^ 53 ->
                        exists m e, binary_round prec emax false p 0 = S754_finite false m e
                                    /\ SpecFloat.bounded prec emax m e = true
                                    /\ (IZR (Zpos m) * bpow e)%R = IZR (Zpos p)).
  { intros p Hp. destruct (binary_round_approx p) as (r & Hr & H).
    assert (Er := rounds_to_unique _ _ _ Hr (rounds_to_small_integer p Hp)).
    assert (Pp : (0 < IZR (Zpos p))%R) by (apply IZR_lt; lia).
    assert (Up : (IZR (Zpos p) < bpow emax)%R).
    { apply IZR_le in Hp. rewrite bpow_IZR in Hp by lia.
      apply Rle_lt_trans with (1 := Hp). apply bpow_lt. reflexivity. }
    destruct (binary_round prec emax false p 0) as [s|s| |s m e]; try contradiction.
    - lra.
    - destruct H as [_ H]. lra.
    - destruct H as (-> & H & B). exists m, e. repeat split; [assumption | lra]. }
  unfold Py.float_of_int, F2R. destruct n as [|p|p].
  - exists zero. split; reflexivity.
  - destruct (P p Hn) as (m & e & E & B & V). simpl binary_normalize. rewrite E.
    eexists. split; [reflexivity|]. rewrite Prim2SF_SF2Prim by exact B. exact V.
  - destruct (P p ltac:(lia)) as (m & e & E & B & V). simpl binary_normalize.
    rewrite binary_round_opp, E. eexists. split; [reflexivity|].
    change (SFopp (S754_finite false m e)) with (S754_finite true m e).
    rewrite Prim2SF_SF2Prim by exact B. simpl. rewrite V.
    change (Zneg p) with (- Zpos p). rewrite opp_IZR. reflexivity.
Qed.

(** ** Small numbers do not overflow *)

Lemma binary_round_aux_small (s : bool) (m e : Z) (l : location) (x : R) :
  0 <= m -> inbetween m x l -> e <= fexp64 (Zdigits2 m + e) ->
  (x * bpow e <= bpow 53)%R ->
  sf_finite (binary_round_aux prec emax s m e l) = true.
Proof.
  intros Hm Hx He Hs.
  destruct (binary_round_aux_spec s m e l x Hm Hx He) as (r & Hr & H).
  assert (R53 : rounds_to (bpow 53) (bpow 53)).
  { rewrite <- bpow_IZR by lia. change (2 ^ 53) with (Zpos 9007199254740992).
    apply rounds_to_small_integer. vm_compute. discriminate. }
  assert (L := rounds_to_mono _ _ _ _ Hs Hr R53).
  assert (U : (bpow 53 < bpow emax)%R) by (apply bpow_lt; reflexivity).
  destruct (binary_round_aux prec emax s m e l) as [s'|s'| |s' m' e'];
    try reflexivity; [destruct H; lra | contradiction].
Qed.

Lemma SF64mul_small (x y : spec_float) :
  valid_binary x = true -> valid_binary y = true ->
  sf_finite x = true -> sf_finite y = true ->
  (SFmag x <= bpow 53)%R -> (SFmag y <= 1)%R ->
  sf_finite (SF64mul x y) = true.
Proof.
  destruct x as [sx|sx| |sx mx ex], y as [sy|sy| |sy my ey];
    try discriminate; try reflexivity.
  cbn [valid_binary sf_finite SFmag]. intros Bx By _ _ Sx Sy.
  assert (Px : (0 < IZR (Zpos mx) * bpow ex)%R).
  { apply Rmult_lt_0_compat; [apply IZR_lt; lia | apply bpow_gt_0]. }
  assert (Py : (0 < IZR (Zpos my) * bpow ey)%R).
  { apply Rmult_lt_0_compat; [apply IZR_lt; lia | apply bpow_gt_0]. }
  apply bounded_canonical in Bx, By.
  apply (binary_round_aux_small _ _ _ _ (IZR (Zpos (mx * my)))); [lia | reflexivity | |].
  - generalize (Zdigits2_mul_ge mx my). rewrite fexp64_eq. lia.
  - replace (IZR (Zpos (mx * my)) * bpow (ex + ey))%R
      with (IZR (Zpos mx) * bpow ex * (IZR (Zpos my) * bpow ey))%R
      by (rewrite Pos2Z.inj_mul, mult_IZR, bpow_add; ring).
    generalize (bpow_gt_0 53). nra.
Qed.

(** ** Division by a positive number and multiplication by a non-negative
    one keep the order *)

Lemma SF64div_finite_approx (x : spec_float) (mc : positive) (ec : Z) :
  sf_nonneg x -> sf_finite x = true ->
  approx (SF2R x / (IZR (Zpos mc) * bpow ec)) (SF64div x (S754_finite false mc ec)).
Proof.
  destruct x as [s|s| |s m e]; simpl; try discriminate; intros N _.
  - unfold Rdiv. rewrite Rmult_0_l. apply approx_0.
  - subst s. apply SF64div_approx.
Qed.

Lemma SF64div_mono (x1 x2 : spec_float) (mc : positive) (ec : Z) :
  sf_nonneg x1 -> sf_nonneg x2 -> sf_le x1 x2 ->
  sf_le (SF64div x1 (S754_finite false mc ec)) (SF64div x2 (S754_finite false mc ec)).
Proof.
  intros N1 N2 L Hf.
  assert (F2 : sf_finite x2 = true).
  { destruct x2 as [s|s| |s m e]; try reflexivity; discriminate. }
  destruct (L F2) as [F1 V].
  assert (C : (0 < IZR (Zpos mc) * bpow ec)%R).
  { apply Rmult_lt_0_compat; [apply IZR_lt; lia | apply bpow_gt_0]. }
  refine (approx_mono _ _ _ _ _ (SF64div_finite_approx x1 mc ec N1 F1)
            (SF64div_finite_approx x2 mc ec N2 F2) Hf).
  apply Rmult_le_compat_r; [apply Rlt_le, Rinv_0_lt_compat; assumption | assumption].
Qed.

Lemma SF64mul_finite_approx (x : spec_float) (md : positive) (ed : Z) :
  sf_nonneg x -> sf_finite x = true -> valid_binary x = true ->
  SpecFloat.bounded prec emax md ed = true ->
  approx (SF2R x * (IZR (Zpos md) * bpow ed)) (SF64mul x (S754_finite false md ed)).
Proof.
  destruct x as [s|s| |s m e]; simpl; try discriminate; intros N _ V B.
  - rewrite Rmult_0_l. apply approx_0.
  - subst s. apply SF64mul_approx; assumption.
Qed.

Lemma SF64mul_mono (x1 x2 d : spec_float) :
  sf_nonneg x1 -> sf_nonneg x2 -> sf_nonneg d ->
  valid_binary x1 = true -> valid_binary x2 = true -> valid_binary d = true ->
  sf_le x1 x2 ->
  sf_le (SF64mul x1 d) (SF64mul x2 d).
Proof.
  intros N1 N2 Nd V1 V2 Vd L Hf.
  assert (F2 : sf_finite x2 = true).
  { destruct x2 as [s|s| |s m e], d as [sd|sd| |sd md ed]; try reflexivity; discriminate. }
  destruct (L F2) as [F1 V].
  destruct d as [sd|sd| |sd md ed].
  - destruct x1 as [s1|s1| |s1 m1 e1], x2 as [s2|s2| |s2 m2 e2];
      try discriminate; simpl; split; auto; lra.
  - destruct x2 as [s|s| |s m e]; discriminate.
  - destruct x2 as [s|s| |s m e]; discriminate.
  - simpl in Nd. subst sd.
    assert (C : (0 <= IZR (Zpos md) * bpow ed)%R).
    { apply Rmult_le_pos; [apply IZR_le; lia | apply Rlt_le, bpow_gt_0]. }
    refine (approx_mono _ _ _ _ _ (SF64mul_finite_approx x1 md ed N1 F1 V1 Vd)
              (SF64mul_finite_approx x2 md ed N2 F2 V2 Vd) Hf).
    apply Rmult_le_compat_r; assumption.
Qed.

(** ** Dividing by 25.4 does not overflow *)

Lemma rounds_to_valid (m : positive) (e : Z) :
  SpecFloat.bounded prec emax m e = true ->
  rounds_to (IZR (Zpos m) * bpow e) (IZR (Zpos m) * bpow e).
Proof.
  intros B. apply bounded_canonical in B. destruct B as [B _].
  generalize (Zdigits2_bounds (Zpos m) ltac:(lia)). simpl Zdigits2. intros [L U].
  exists e, (Zpos m). split; [|split; [|reflexivity]].
  - exists (Zpos (digits2_pos m) + e). split; [rewrite fexp64_eq; lia|]. split.
    + rewrite bpow_add. apply Rmult_lt_compat_r; [apply bpow_gt_0 | assumption].
    + left. replace (Zpos (digits2_pos m) + e - 1) with (Zpos (digits2_pos m) - 1 + e) by lia.
      rewrite bpow_add. apply Rmult_le_compat_r; [apply Rlt_le, bpow_gt_0 | assumption].
  - rewrite Rmult_assoc, <- bpow_add. replace (e + - e) with 0 by lia.
    rewrite bpow_0, Rmult_1_r. apply rne_IZR.
Qed.

Lemma SF64div_25_4_finite (x : spec_float) :
  valid_binary x = true -> sf_finite x = true ->
  sf_finite (SF64div x (S754_finite false 7149464408450662 (-48))) = true.
Proof.
  destruct x as [s|s| |s m e]; try discriminate; intros V _; [reflexivity|].
  simpl in V. unfold SF64div, SFdiv.
  generalize (SFdiv_core_binary_spec m 7149464408450662 e (-48)).
  destruct (SFdiv_core_binary prec emax (Zpos m) e (Zpos 7149464408450662) (-48))
    as [[q e'] l].
  intros (Hq & Hl & He).
  destruct (binary_round_aux_spec (xorb s false) q e' l _ Hq Hl He) as (r & Hr & H).
  destruct (binary_round_aux prec emax (xorb s false) q e' l) as [s'|s'| |s' m' e'0];
    try reflexivity; try contradiction.
  exfalso. destruct H as [_ H].
  assert (L : (r <= IZR (Zpos m) * bpow e)%R).
  { refine (rounds_to_mono _ _ _ _ _ Hr (rounds_to_valid m e V)).
    replace (IZR (Zpos m) * bpow e / (IZR 7149464408450662 * bpow (-48)) * bpow (- e') * bpow e')%R
      with (IZR (Zpos m) * bpow e / (IZR 7149464408450662 * bpow (-48)))%R.
    - assert (C : (1 <= IZR 7149464408450662 * bpow (-48))%R).
      { change (-48) with (- (48)). rewrite bpow_opp, <- bpow_IZR by lia.
        change (2 ^ 48) with 281474976710656.
        apply Rmult_le_reg_r with (IZR 281474976710656); [lra|].
        rewrite Rmult_assoc, Rinv_l by lra. lra. }
      assert (P : (0 < IZR (Zpos m) * bpow e)%R).
      { apply Rmult_lt_0_compat; [apply IZR_lt; lia | apply bpow_gt_0]. }
      apply Rmult_le_reg_r with (IZR 7149464408450662 * bpow (-48))%R; [lra|].
      unfold Rdiv. rewrite Rmult_assoc, Rinv_l by lra. nra.
    - rewrite Rmult_assoc, <- bpow_add. replace (- e' + e') with 0 by lia.
      rewrite bpow_0. ring. }
  generalize (bounded_lt_emax m e V). lra.
Qed.

(** * The unit converter *)

Lemma Prim2SF_25_4 : Prim2SF 25.4 = S754_finite false 7149464408450662 (-48).
Proof. reflexivity. Qed.

Lemma Prim2SF_product (mm d : float) :
  Prim2SF (mm / 25.4 * d)
  = SF64mul (SF64div (Prim2SF mm) (S754_finite false 7149464408450662 (-48)))
      (Prim2SF d).
Proof. rewrite mul_spec, div_spec, Prim2SF_25_4. reflexivity. Qed.

Lemma float_of_int_0 : Py.float_of_int 0 = Ok zero.
Proof. reflexivity. Qed.

Lemma mm_to_px_dpi_0 (mm : float) :
  mm_to_px mm 0 = Ok 0 \/ mm_to_px mm 0 = Raise ValueError.
Proof.
  unfold mm_to_px. rewrite float_of_int_0. simpl bind.
  unfold Py.round. rewrite mul_spec. change (Prim2SF zero) with (S754_zero false).
  destruct (Prim2SF (mm / 25.4)) as [s|s| |s m e]; simpl; auto.
Qed.

Lemma mm_to_px_opp_dpi (mm : float) (dpi : Z) :
  mm_to_px mm (- dpi) = (n <- mm_to_px mm dpi ;; Ok (- n)).
Proof.
  destruct (Z.eq_dec dpi 0) as [->|Hd].
  - simpl Z.opp. destruct (mm_to_px_dpi_0 mm) as [H|H]; rewrite H; reflexivity.
  - unfold mm_to_px. rewrite float_of_int_opp by assumption.
    destruct (Py.float_of_int dpi) as [d|e]; simpl bind; [|reflexivity].
    rewrite mul_opp_r. apply round_opp.
Qed.

Lemma mm_to_px_finite_dpi_0 (mm : float) :
  isfinite mm = true -> mm_to_px mm 0 = Ok 0.
Proof.
  intros F. unfold mm_to_px. rewrite float_of_int_0. unfold bind, Py.round.
  rewrite Prim2SF_product. change (Prim2SF zero) with (S754_zero false).
  generalize (SF64div_25_4_finite (Prim2SF mm) (Prim2SF_valid mm) F).
  destruct (SF64div (Prim2SF mm) _) as [s|s| |s m e]; try discriminate; reflexivity.
Qed.

(** C2 (as the code has it): [mm_to_px] does not look at the sign of [dpi].
    For every finite [mm] it returns 0 at [dpi = 0], and at [- dpi] it
    returns the negation of its value at [dpi], raising exactly when that
    call raises. *)
Theorem mm_to_px_no_dpi_check (mm : float) (dpi : Z) :
  isfinite mm = true ->
  mm_to_px mm 0 = Ok 0
  /\ mm_to_px mm (- dpi) = (n <- mm_to_px mm dpi ;; Ok (- n)).
Proof.
  intros F. split; [apply mm_to_px_finite_dpi_0; assumption | apply mm_to_px_opp_dpi].
Qed.

Lemma mm_to_px_no_dpi_check_witness :
  isfinite 25.4 = true
  /\ mm_to_px 25.4 0 = Ok 0
  /\ mm_to_px 25.4 (- 300) = (n <- mm_to_px 25.4 300 ;; Ok (- n)).
Proof.
  split; [reflexivity|]. apply (mm_to_px_no_dpi_check 25.4 300). reflexivity.
Defined.

(** C2, refuted as stated: a zero and a negative resolution both give a
    silently computed value. *)
Lemma mm_to_px_nonpositive_dpi_returns :
  mm_to_px 10 0 = Ok 0 /\ mm_to_px 25.4 (-300) = Ok (-300).
Proof. split; vm_compute; reflexivity. Qed.

(** ** Order and sign *)

Lemma mm_to_px_nonneg (mm : float) (dpi n : Z) :
  sf_nonneg (Prim2SF mm) -> 0 <= dpi -> mm_to_px mm dpi = Ok n -> 0 <= n.
Proof.
  unfold mm_to_px. intros N Hd H. inv_bind H.
  apply float_of_int_Ok in Hv. destruct Hv as (_ & _ & Nd). specialize (Nd Hd).
  apply round_Ok in H. destruct H as [_ H].
  apply (rne_ge_IZR _ _ 0 H). unfold F2R. apply SF2R_nonneg.
  rewrite Prim2SF_product. apply SF64mul_nonneg; [|assumption].
  apply SF64div_nonneg. assumption.
Qed.

Lemma mm_to_px_0 (dpi : Z) (d : float) :
  Py.float_of_int dpi = Ok d -> mm_to_px 0 dpi = Ok 0.
Proof.
  intros H. unfold mm_to_px. rewrite H. unfold bind, Py.round.
  rewrite mul_spec. change (Prim2SF (0 / 25.4)) with (S754_zero false).
  apply float_of_int_Ok in H. destruct H as (_ & Fd & _). unfold isfinite in Fd.
  destruct (Prim2SF d) as [sd|sd| |sd md ed]; try discriminate; reflexivity.
Qed.

(** C9: for a positive resolution and [0 <= mm1 <= mm2], whenever the
    conversion of [mm2] returns, the conversion of [mm1] returns a value
    that is not larger, and the conversion of 0 mm returns 0. *)
Theorem mm_to_px_monotone (mm1 mm2 : float) (dpi n2 : Z) :
  0 < dpi ->
  (0 <=? mm1)%float = true -> (mm1 <=? mm2)%float = true ->
  mm_to_px mm2 dpi = Ok n2 ->
  mm_to_px 0 dpi = Ok 0
  /\ exists n1, mm_to_px mm1 dpi = Ok n1 /\ n1 <= n2.
Proof.
  intros Hd H0 H12 H. unfold mm_to_px in H. inv_bind H.
  split; [exact (mm_to_px_0 dpi v Hv)|].
  unfold mm_to_px. rewrite Hv. unfold bind.
  apply float_of_int_Ok in Hv. destruct Hv as (_ & Fd & Nd).
  specialize (Nd ltac:(lia)).
  - apply round_mono with (2 := H). rewrite !Prim2SF_product.
    assert (N1 := Prim2SF_nonneg mm1 H0).
    rewrite leb_spec in H12.
    destruct (SFleb_nonneg _ _ (Prim2SF_valid mm1) (Prim2SF_valid mm2) N1 H12)
      as [N2 L].
    apply SF64mul_mono; try (apply SF64div_nonneg; assumption);
      try assumption; try apply Prim2SF_valid.
    + rewrite <- Prim2SF_25_4, <- div_spec. apply Prim2SF_valid.
    + rewrite <- Prim2SF_25_4, <- div_spec. apply Prim2SF_valid.
    + apply SF64div_mono; assumption.
Qed.

Lemma mm_to_px_monotone_witness :
  0 < 300 /\ (0 <=? 52)%float = true /\ (52 <=? 74)%float = true
  /\ mm_to_px 74 300 = Ok 874
  /\ mm_to_px 0 300 = Ok 0
  /\ exists n1, mm_to_px 52 300 = Ok n1 /\ n1 <= 874.
Proof.
  split; [lia|]. split; [reflexivity|]. split; [reflexivity|].
  split; [vm_compute; reflexivity|].
  apply (mm_to_px_monotone 52 74 300 874);
    [lia | reflexivity | reflexivity | vm_compute; reflexivity].
Defined.

(** ** One rounding policy *)

Lemma mm_to_px_nearest (mm : float) (dpi : Z) (d : float) :
  Py.float_of_int dpi = Ok d ->
  isfinite (mm / 25.4 * d) = true ->
  exists n, mm_to_px mm dpi = Ok n /\ rne (F2R (mm / 25.4 * d)) n.
Proof.
  intros Hd F. unfold mm_to_px. rewrite Hd. unfold bind.
  destruct (round_isfinite _ F) as [n Hn]. exists n. split; [assumption|].
  apply round_Ok in Hn. tauto.
Qed.

(** C10 (as the code has it): a resolution of at most 53 bits is converted
    to a float exactly;
    whenever the float product [mm / 25.4 * float(dpi)] is finite,
    [mm_to_px] returns the integer nearest to it, an exact half going to
    the even neighbour; and every pixel quantity of one layout (bleed, page
    width, page height, spine, canvas width and height) is such a
    conversion of its own millimetre quantity. *)
Theorem rounding_policy :
  (forall dpi : Z,
      Z.abs dpi <= 2 ^ 53 ->
      exists d, Py.float_of_int dpi = Ok d /\ F2R d = IZR dpi)
  /\ (forall (mm : float) (dpi : Z) (d : float),
      Py.float_of_int dpi = Ok d ->
      isfinite (mm / 25.4 * d) = true ->
      exists n, mm_to_px mm dpi = Ok n
                /\ rne (F2R (mm / 25.4 * d)) n
                /\ forall n', rne (F2R (mm / 25.4 * d)) n' -> n' = n)
  /\ (forall (image_new : Z -> Z -> result unit) (s : CoverSpec) (l : Layout),
        layout image_new s = Ok l ->
        exists spine_mm,
          compute_spine_width_mm (page_count s) (thickness_per_page_mm s) = Ok spine_mm
          /\ mm_to_px (bleed_mm s) (dpi s) = Ok (bleed_px l)
          /\ mm_to_px (width_mm s) (dpi s) = Ok (page_w_px l)
          /\ mm_to_px (height_mm s) (dpi s) = Ok (page_h_px l)
          /\ mm_to_px spine_mm (dpi s) = Ok (spine_px l)
          /\ mm_to_px (full_w_mm s spine_mm) (dpi s) = Ok (full_w_px l)
          /\ mm_to_px (full_h_mm s) (dpi s) = Ok (full_h_px l)).
Proof.
  split; [exact float_of_int_exact|]. split.
  - intros mm dpi d Hd F. destruct (mm_to_px_nearest mm dpi d Hd F) as (n & Hn & R).
    exists n. split; [assumption|]. split; [assumption|].
    intros n' R'. exact (rne_unique _ _ _ R' R).
  - intros image_new s l H. apply layout_Ok in H.
    destruct H as (sp & Hsp & Hfw & Hfh & Hb & Hw & Hh & Hs & _).
    exists sp. tauto.
Qed.

Lemma rounding_policy_witness :
  (exists d, Py.float_of_int 300 = Ok d /\ F2R d = IZR 300)
  /\ (exists n, mm_to_px 52 300 = Ok n
             /\ rne (F2R (52 / 25.4 * 300)) n
             /\ forall n', rne (F2R (52 / 25.4 * 300)) n' -> n' = n)
  /\ mm_to_px 3 300 = Ok (bleed_px default_layout).
Proof.
  destruct rounding_policy as (H0 & H1 & H2). split; [|split].
  - apply (H0 300). vm_compute; discriminate.
  - apply (H1 52%float 300 300%float); reflexivity.
  - destruct (H2 roomy_image_new (default_spec 120) default_layout)
      as (sp & _ & H & _);
      [vm_compute; reflexivity | exact H].
Defined.

(** The numbers of three floats, as fractions. *)
Lemma F2R_half_pixel_mm :
  F2R half_pixel_mm = (6355079474178367 / 36028797018963968)%R.
Proof.
  unfold F2R. change (Prim2SF half_pixel_mm)
    with (S754_finite false 6355079474178367 (-55)).
  cbn [SF2R]. change (-55) with (- (55)). rewrite bpow_opp, <- bpow_IZR by lia.
  change (2 ^ 55) with 36028797018963968. reflexivity.
Qed.

Lemma F2R_25_4_exact : F2R 25.4 = (7149464408450662 / 281474976710656)%R.
Proof.
  unfold F2R. change (Prim2SF 25.4)
    with (S754_finite false 7149464408450662 (-48)).
  cbn [SF2R]. change (-48) with (- (48)). rewrite bpow_opp, <- bpow_IZR by lia.
  change (2 ^ 48) with 281474976710656. reflexivity.
Qed.

Lemma F2R_4_5 : F2R 4.5 = (9 / 2)%R.
Proof.
  unfold F2R. change (Prim2SF 4.5)
    with (S754_finite false 5066549580791808 (-50)).
  cbn [SF2R]. change (-50) with (- (50)). rewrite bpow_opp, <- bpow_IZR by lia.
  change (2 ^ 50) with 1125899906842624. lra.
Qed.

(** C10, refuted as stated: the integer returned is not always the nearest
    to the exact quotient of mm * dpi by 25.4.  At 72 dpi the length
    0x1.693e93e93e93fp-3 mm is above half a pixel, whether 25.4 is taken
    exactly or as its float, so that the nearest integer is 1; the float
    product is 0.5 and [mm_to_px] returns 0.  And 4.5 mm at 127 dpi is
    exactly 22.5 pixels, whose even neighbour is 22, where [mm_to_px]
    returns 23. *)
Lemma mm_to_px_not_exact_quotient :
  mm_to_px half_pixel_mm 72 = Ok 0
  /\ rne (F2R half_pixel_mm * 72 / (127 / 5)) 1
  /\ rne (F2R half_pixel_mm * 72 / F2R 25.4) 1
  /\ ~ rne (F2R half_pixel_mm * 72 / (127 / 5)) 0
  /\ ~ rne (F2R half_pixel_mm * 72 / F2R 25.4) 0
  /\ mm_to_px 4.5 127 = Ok 23
  /\ rne (F2R 4.5 * 127 / (127 / 5)) 22.
Proof.
  rewrite F2R_half_pixel_mm, F2R_25_4_exact, F2R_4_5.
  split; [vm_compute; reflexivity|].
  unfold rne.
  split; [split; [lra | intros [H|H]; lra]|].
  split; [split; [lra | intros [H|H]; lra]|].
  split; [intros [H _]; lra|].
  split; [intros [H _]; lra|].
  split; [vm_compute; reflexivity|].
  split; [lra | reflexivity].
Qed.

(** * The spine estimate *)

(** C3 (as the code has it): for every page count of at most 53 bits,
    negative or not, the spine estimate returns the float product of the
    page count, converted exactly, and the thickness; a negative count
    gives the negated width instead of an error. *)
Theorem spine_width_no_sign_check (n : Z) (t : float) :
  Z.abs n <= 2 ^ 53 ->
  exists f,
    Py.float_of_int n = Ok f /\ F2R f = IZR n
    /\ compute_spine_width_mm n t = Ok (f * t)%float
    /\ compute_spine_width_mm (- n) t
       = Ok (if (n =? 0)%Z then f * t else - (f * t))%float.
Proof.
  intros Hn. destruct (float_of_int_exact n Hn) as (f & H & V).
  exists f. split; [assumption|]. split; [assumption|].
  unfold compute_spine_width_mm. split.
  - rewrite H. reflexivity.
  - destruct (Z.eqb_spec n 0) as [->|Hn0].
    + simpl Z.opp. rewrite H. reflexivity.
    + rewrite float_of_int_opp, H by assumption. simpl.
      rewrite mul_opp_l. reflexivity.
Qed.

Lemma spine_width_no_sign_check_witness :
  Z.abs 120 <= 2 ^ 53
  /\ exists f,
       Py.float_of_int 120 = Ok f /\ F2R f = IZR 120
       /\ compute_spine_width_mm 120 0.0025 = Ok (f * 0.0025)%float
       /\ compute_spine_width_mm (- 120) 0.0025
          = Ok (if (120 =? 0)%Z then f * 0.0025 else - (f * 0.0025))%float.
Proof.
  split; [vm_compute; discriminate|].
  apply (spine_width_no_sign_check 120 0.0025). vm_compute; discriminate.
Defined.

(** C3, refuted as stated: a negative page count returns a value. *)
Lemma spine_width_negative_returns :
  compute_spine_width_mm (-1) 0.5 = Ok (-0.5)%float.
Proof. vm_compute. reflexivity. Qed.

(** * The layout *)

Lemma default_spec_valid (n : Z) : 0 <= n -> valid_spec (default_spec n).
Proof.
  intros H. unfold valid_spec; simpl. repeat split; auto; reflexivity.
Qed.

(** ** The reference scenario *)

(** C7: A8 trim 52 x 74 mm, bleed 3 mm, 300 dpi, 120 pages of 0.0025 mm;
    the canvas the imaging library is asked for is 1303 by 945 pixels, and
    with every library that creates it the layout is the one expected. *)
Theorem reference_scenario :
  compute_spine_width_mm 120 0.0025 = Ok 0.3%float
  /\ full_w_mm (default_spec 120) 0.3 = 110.3%float
  /\ full_h_mm (default_spec 120) = 80%float
  /\ mm_to_px 110.3 300 = Ok 1303 /\ mm_to_px 80 300 = Ok 945
  /\ forall image_new : Z -> Z -> result unit,
       image_new 1303 945 = Ok tt ->
       exists l, layout image_new (default_spec 120) = Ok l
         /\ full_w_px l = 1303 /\ full_h_px l = 945
         /\ width_px (back l) = 614 /\ width_px (spine l) = 4
         /\ width_px (front l) = 614
         /\ bleed_px l = 35.
Proof.
  split; [vm_compute; reflexivity|].
  split; [vm_compute; reflexivity|].
  split; [vm_compute; reflexivity|].
  split; [vm_compute; reflexivity|].
  split; [vm_compute; reflexivity|].
  intros image_new H. exists default_layout. split; [|repeat split; reflexivity].
  unfold layout.
  change (compute_spine_width_mm (page_count (default_spec 120))
            (thickness_per_page_mm (default_spec 120)))
    with (Ok 0.3%float : result float).
  unfold bind at 1.
  change (mm_to_px (full_w_mm (default_spec 120) 0.3) (dpi (default_spec 120)))
    with (Ok 1303 : result Z).
  unfold bind at 1.
  change (mm_to_px (full_h_mm (default_spec 120)) (dpi (default_spec 120)))
    with (Ok 945 : result Z).
  unfold bind at 1. rewrite H. vm_compute. reflexivity.
Qed.

Lemma reference_scenario_witness :
  roomy_image_new 1303 945 = Ok tt
  /\ exists l, layout roomy_image_new (default_spec 120) = Ok l
       /\ full_w_px l = 1303 /\ full_h_px l = 945
       /\ width_px (back l) = 614 /\ width_px (spine l) = 4
       /\ width_px (front l) = 614
       /\ bleed_px l = 35.
Proof.
  split; [reflexivity|].
  destruct reference_scenario as (_ & _ & _ & _ & _ & H).
  apply (H roomy_image_new). reflexivity.
Defined.

(** ** The canvas and the panels *)

(** C1 (as the code has it): the three pixel widths are independent
    conversions, the panels laid from the left bleed end at
    [2 * page_w_px + spine_px + bleed_px], so the right bleed ends at
    [2 * page_w_px + spine_px + 2 * bleed_px]; the canvas width is a fourth
    independent conversion, that of the full width in millimetres. *)
Theorem canvas_width_independent (image_new : Z -> Z -> result unit)
    (s : CoverSpec) (l : Layout) :
  layout image_new s = Ok l ->
  mm_to_px (width_mm s) (dpi s) = Ok (page_w_px l)
  /\ mm_to_px (bleed_mm s) (dpi s) = Ok (bleed_px l)
  /\ (exists spine_mm,
        compute_spine_width_mm (page_count s) (thickness_per_page_mm s) = Ok spine_mm
        /\ mm_to_px spine_mm (dpi s) = Ok (spine_px l)
        /\ mm_to_px (full_w_mm s spine_mm) (dpi s) = Ok (full_w_px l))
  /\ x_px (back l) = bleed_px l
  /\ x_px (front l) + width_px (front l) + bleed_px l
     = 2 * page_w_px l + spine_px l + 2 * bleed_px l.
Proof.
  intros H. apply layout_Ok in H.
  destruct H as (sp & Hsp & Hfw & Hfh & Hb & Hw & Hh & Hs & Hbx & Hsx & Hfx).
  split; [assumption|]. split; [assumption|].
  split; [exists sp; auto|].
  panels. lia.
Qed.

Lemma canvas_width_independent_witness :
  layout roomy_image_new (default_spec 120)
  = Ok {| full_w_px := 1303; full_h_px := 945; bleed_px := 35;
          page_w_px := 614; page_h_px := 874; spine_px := 4;
          back_cover_x := 35; spine_x := 649; front_cover_x := 653 |}
  /\ 653 + 614 + 35 = 2 * 614 + 4 + 2 * 35.
Proof.
  split; [vm_compute; reflexivity|].
  apply (canvas_width_independent roomy_image_new (default_spec 120)
           {| full_w_px := 1303; full_h_px := 945; bleed_px := 35;
              page_w_px := 614; page_h_px := 874; spine_px := 4;
              back_cover_x := 35; spine_x := 649; front_cover_x := 653 |}).
  vm_compute; reflexivity.
Defined.

(** C1, refuted as stated: on the default A8 request the canvas is 1303
    pixels wide while the panels and the two bleeds add up to 1302. *)
Lemma canvas_width_drifts :
  valid_spec (default_spec 120)
  /\ exists l, layout roomy_image_new (default_spec 120) = Ok l
     /\ full_w_px l = 1303
     /\ 2 * page_w_px l + spine_px l + 2 * bleed_px l = 1302
     /\ x_px (front l) + width_px (front l) + bleed_px l <> full_w_px l.
Proof.
  split; [apply default_spec_valid; lia|].
  eexists. split; [vm_compute; reflexivity|].
  panels. cbn. repeat split; lia.
Qed.

(** When the full size is converted, what the imaging library raises on the
    creation of the canvas is what the layout raises. *)
Lemma layout_image_new_raises (image_new : Z -> Z -> result unit) (s : CoverSpec)
    (spine_mm : float) (w h : Z) (e : PyError) :
  compute_spine_width_mm (page_count s) (thickness_per_page_mm s) = Ok spine_mm ->
  mm_to_px (full_w_mm s spine_mm) (dpi s) = Ok w ->
  mm_to_px (full_h_mm s) (dpi s) = Ok h ->
  image_new w h = Raise e ->
  layout image_new s = Raise e.
Proof.
  intros Hsp Hw Hh He. unfold layout.
  rewrite Hsp; unfold bind at 1. rewrite Hw; unfold bind at 1.
  rewrite Hh; unfold bind at 1. rewrite He. reflexivity.
Qed.

(** C4 (as the code has it): the layout tests no pixel dimension itself.
    It is returned exactly when the spine estimate and the conversions
    return and the imaging library creates the canvas of the converted full
    size, with the values of the conversions, whatever their sign; and when
    the library refuses the canvas, its exception is the one of the
    layout. *)
Theorem layout_checks_no_dimension (image_new : Z -> Z -> result unit)
    (s : CoverSpec) (l : Layout) :
  (layout image_new s = Ok l <->
   exists spine_mm,
     compute_spine_width_mm (page_count s) (thickness_per_page_mm s) = Ok spine_mm
     /\ mm_to_px (full_w_mm s spine_mm) (dpi s) = Ok (full_w_px l)
     /\ mm_to_px (full_h_mm s) (dpi s) = Ok (full_h_px l)
     /\ image_new (full_w_px l) (full_h_px l) = Ok tt
     /\ mm_to_px (bleed_mm s) (dpi s) = Ok (bleed_px l)
     /\ mm_to_px (width_mm s) (dpi s) = Ok (page_w_px l)
     /\ mm_to_px (height_mm s) (dpi s) = Ok (page_h_px l)
     /\ mm_to_px spine_mm (dpi s) = Ok (spine_px l)
     /\ back_cover_x l = bleed_px l
     /\ spine_x l = back_cover_x l + page_w_px l
     /\ front_cover_x l = spine_x l + spine_px l)
  /\ (forall spine_mm w h e,
        compute_spine_width_mm (page_count s) (thickness_per_page_mm s) = Ok spine_mm ->
        mm_to_px (full_w_mm s spine_mm) (dpi s) = Ok w ->
        mm_to_px (full_h_mm s) (dpi s) = Ok h ->
        image_new w h = Raise e ->
        layout image_new s = Raise e).
Proof.
  split; [|apply layout_image_new_raises]. split.
  - intros H. assert (I := layout_image_new _ _ _ H). apply layout_Ok in H.
    destruct H as (sp & Hsp & Hfw & Hfh & Hb & Hw & Hh & Hs & Hbx & Hsx & Hfx).
    exists sp. repeat split; assumption.
  - intros (sp & Hsp & Hfw & Hfh & Hi & Hb & Hw & Hh & Hs & Hbx & Hsx & Hfx).
    destruct l as [fw fh b pw ph sw bx sx fx]. cbn [full_w_px full_h_px bleed_px
      page_w_px page_h_px spine_px back_cover_x spine_x front_cover_x] in *.
    unfold layout. rewrite Hsp; unfold bind at 1. rewrite Hfw; unfold bind at 1.
    rewrite Hfh; unfold bind at 1. rewrite Hi; unfold bind at 1.
    rewrite Hb; unfold bind at 1; unfold bind at 1.
    rewrite Hw; unfold bind at 1. rewrite Hh; unfold bind at 1.
    rewrite Hs; unfold bind at 1. subst. reflexivity.
Qed.

Lemma layout_checks_no_dimension_witness :
  layout roomy_image_new zero_width_spec
  = Ok {| full_w_px := 74; full_h_px := 945; bleed_px := 35;
          page_w_px := 0; page_h_px := 874; spine_px := 4;
          back_cover_x := 35; spine_x := 35; front_cover_x := 39 |}.
Proof.
  apply (layout_checks_no_dimension roomy_image_new zero_width_spec).
  exists 0.3%float. repeat split; vm_compute; reflexivity.
Defined.

(** C4, refuted as stated: with a trim width of 0 mm the page is 0 pixels
    wide and the layout is returned all the same, by every imaging library
    that creates the canvas of 74 by 945 pixels. *)
Lemma layout_accepts_zero_width :
  mm_to_px 0 300 = Ok 0
  /\ exists l,
       layout roomy_image_new zero_width_spec = Ok l
       /\ page_w_px l = 0 /\ width_px (back l) <= 0 /\ width_px (front l) <= 0
       /\ roomy_image_new (full_w_px l) (full_h_px l) = Ok tt.
Proof.
  split; [vm_compute; reflexivity|].
  eexists. split; [vm_compute; reflexivity|].
  panels. cbn. repeat split; lia.
Qed.

(** With a resolution of -300 the conversions return a canvas of -1303 by
    -945 pixels; it is the imaging library that refuses it. *)
Lemma layout_negative_canvas_refused :
  mm_to_px 110.3 (-300) = Ok (-1303) /\ mm_to_px 80 (-300) = Ok (-945)
  /\ layout roomy_image_new negative_dpi_spec = Raise ValueError.
Proof. repeat split; vm_compute; reflexivity. Qed.

(** ** Contiguous panels *)



(** ** A book without pages *)

Lemma mm_to_px_zero_mul (t : float) (dpi n : Z) :
  mm_to_px (zero * t) dpi = Ok n -> n = 0.
Proof.
  unfold mm_to_px. intros H. inv_bind H. revert H.
  unfold Py.round. rewrite mul_spec, div_spec, mul_spec.
  change (Prim2SF zero) with (S754_zero false).
  change (Prim2SF 25.4) with (S754_finite false 7149464408450662 (-48)).
  destruct (Prim2SF t) as [st|st| |st mt et], (Prim2SF v) as [sd|sd| |sd md ed];
    simpl; congruence.
Qed.

(** C8: with [page_count = 0] the spine is 0 pixels wide and the front panel
    starts where the back panel ends. *)
Theorem zero_pages_no_spine (image_new : Z -> Z -> result unit)
    (s : CoverSpec) (l : Layout) :
  page_count s = 0 ->
  layout image_new s = Ok l ->
  width_px (spine l) = 0 /\ x_px (front l) = x_px (back l) + width_px (back l).
Proof.
  intros H0 H. apply layout_Ok in H.
  destruct H as (sp & Hsp & Hfw & Hfh & Hb & Hw & Hh & Hs & Hbx & Hsx & Hfx).
  rewrite H0 in Hsp. unfold compute_spine_width_mm in Hsp.
  rewrite float_of_int_0 in Hsp. simpl in Hsp. injection Hsp as <-.
  apply mm_to_px_zero_mul in Hs.
  panels. lia.
Qed.

Lemma zero_pages_no_spine_witness :
  page_count (default_spec 0) = 0
  /\ layout roomy_image_new (default_spec 0)
     = Ok {| full_w_px := 1299; full_h_px := 945; bleed_px := 35;
             page_w_px := 614; page_h_px := 874; spine_px := 0;
             back_cover_x := 35; spine_x := 649; front_cover_x := 649 |}
  /\ 649 + 0 - 649 = 0 /\ 649 = 35 + (35 + 614 - 35).
Proof.
  split; [reflexivity|]. split; [vm_compute; reflexivity|].
  apply (zero_pages_no_spine roomy_image_new (default_spec 0)
           {| full_w_px := 1299; full_h_px := 945; bleed_px := 35;
              page_w_px := 614; page_h_px := 874; spine_px := 0;
              back_cover_x := 35; spine_x := 649; front_cover_x := 649 |});
    [reflexivity | vm_compute; reflexivity].
Defined.

(** * The text of the front cover *)

(** ** With pixel quantities of at most 52 bits the text is placed *)

Lemma small_ratio_mag (r : float) :
  small_ratio r = true ->
  sf_finite (Prim2SF r) = true /\ (SFmag (Prim2SF r) <= 1)%R.
Proof.
  unfold small_ratio. destruct (Prim2SF r) as [s|s| |s m e]; try discriminate.
  - intros _. split; [reflexivity | simpl; lra].
  - intros H. apply andb_true_iff in H. destruct H as [He Hm].
    apply Z.leb_le in He, Hm. split; [reflexivity|]. cbn [SFmag].
    apply IZR_le in Hm. rewrite bpow_IZR in Hm by lia.
    apply Rle_trans with (bpow (- e) * bpow e)%R.
    + apply Rmult_le_compat_r; [apply Rlt_le, bpow_gt_0 | assumption].
    + rewrite <- bpow_add. replace (- e + e) with 0 by lia. rewrite bpow_0. lra.
Qed.

Lemma float_of_int_mag (n : Z) :
  Z.abs n <= 2 ^ 53 ->
  exists f, Py.float_of_int n = Ok f
            /\ sf_finite (Prim2SF f) = true /\ (SFmag (Prim2SF f) <= bpow 53)%R.
Proof.
  intros Hn. destruct (float_of_int_exact n Hn) as (f & H & V).
  exists f. split; [assumption|].
  destruct (float_of_int_Ok n f H) as (_ & F & _). split; [exact F|].
  unfold F2R in V. apply IZR_le in Hn. rewrite bpow_IZR in Hn by lia.
  rewrite abs_IZR in Hn.
  destruct (Prim2SF f) as [s|s| |s m e]; cbn [SFmag SF2R] in *;
    try (generalize (bpow_gt_0 53); lra).
  assert (P : (0 < IZR (Zpos m) * bpow e)%R).
  { apply Rmult_lt_0_compat; [apply IZR_lt; lia | apply bpow_gt_0]. }
  revert Hn. unfold Rabs. destruct (Rcase_abs (IZR n)); destruct s; lra.
Qed.

Lemma int_of_float_isfinite (x : float) :
  isfinite x = true -> exists n, Py.int_of_float x = Ok n.
Proof.
  unfold Py.int_of_float, isfinite.
  destruct (Prim2SF x) as [s|s| |s m e]; simpl; try discriminate; eauto.
Qed.

Lemma scaled_returns (h : Z) (ratio : float) :
  Z.abs h <= 2 ^ 53 -> small_ratio ratio = true ->
  exists n, scaled h ratio = Ok n.
Proof.
  intros Hh Hr. unfold scaled.
  destruct (float_of_int_mag h Hh) as (f & -> & F & M). unfold bind.
  destruct (small_ratio_mag ratio Hr) as [Fr Mr].
  apply int_of_float_isfinite. unfold isfinite. rewrite mul_spec.
  apply SF64mul_small; auto using Prim2SF_valid.
Qed.

Lemma truediv_int_2_returns (a : Z) :
  Z.abs a <= 2 ^ 53 -> exists f, Py.truediv_int a 2 = Ok f.
Proof.
  intros Ha.
  assert (P : forall (s : bool) (p : positive), Zpos p <= 2 ^ 53 ->
            exists f,
              (let '(q, e, l) := SFdiv_core_binary prec emax (Zpos p) 0 2 0 in
               match binary_round_aux prec emax s q e l with
               | S754_infinity _ => Raise OverflowError
               | sf => Ok (SF2Prim sf)
               end) = Ok f).
  { intros s p Hp. generalize (SFdiv_core_binary_spec p 2 0 0).
    destruct (SFdiv_core_binary prec emax (Zpos p) 0 2 0) as [[q e] l].
    intros (Hq & Hl & He).
    assert (F : sf_finite (binary_round_aux prec emax s q e l) = true).
    { apply (binary_round_aux_small s q e l _ Hq Hl He).
      rewrite Rmult_assoc, <- bpow_add. replace (- e + e) with 0 by lia.
      rewrite !bpow_0, !Rmult_1_r. apply IZR_le in Hp. rewrite bpow_IZR in Hp by lia.
      assert (0 < IZR (Zpos p))%R by (apply IZR_lt; lia). lra. }
    destruct (binary_round_aux prec emax s q e l); try discriminate; eauto. }
  unfold Py.truediv_int. destruct a as [|p|p].
  - eexists. reflexivity.
  - apply (P (xorb (Zpos p <? 0) (2 <? 0)) p). exact Ha.
  - apply (P (xorb (Zneg p <? 0) (2 <? 0)) p). exact Ha.
Qed.

Lemma centered_x_returns (l : Layout) (w : Z) :
  Z.abs (page_w_px l - w) <= 2 ^ 53 -> Z.abs (front_cover_x l) <= 2 ^ 53 ->
  exists x, centered_x l w = Ok x.
Proof.
  intros Hw Hx. unfold centered_x.
  destruct (truediv_int_2_returns _ Hw) as [half ->].
  destruct (float_of_int_exact _ Hx) as (fx & -> & _).
  eexists. reflexivity.
Qed.

Lemma draw_title_lines_returns textsize (l : Layout) (font : Z)
    (lines : list string) (y : Z) :
  (forall text size, Z.abs (page_w_px l - fst (textsize text size)) <= 2 ^ 53) ->
  Z.abs (front_cover_x l) <= 2 ^ 53 ->
  exists calls, draw_title_lines textsize l font lines y = Ok calls.
Proof.
  intros Hw Hx. revert y. induction lines as [|line rest IH]; intros y; simpl.
  - eexists. reflexivity.
  - generalize (Hw line font). destruct (textsize line font) as [w h]. simpl. intros Hwl.
    destruct (centered_x_returns l w Hwl Hx) as [x ->].
    destruct (IH (y + (h + 6))) as [calls ->].
    eexists. reflexivity.
Qed.

Lemma front_cover_text_returns textsize (l : Layout) (title author : string) :
  Z.abs (page_h_px l) <= 2 ^ 53 ->
  Z.abs (front_cover_x l) <= 2 ^ 53 ->
  (forall text size, Z.abs (page_w_px l - fst (textsize text size)) <= 2 ^ 53) ->
  exists calls, front_cover_text textsize l title author = Ok calls.
Proof.
  intros Hh Hx Hw. unfold front_cover_text.
  destruct (scaled_returns (page_h_px l) 0.12 Hh eq_refl) as [t ->]. unfold bind at 1.
  destruct (scaled_returns (page_h_px l) 0.07 Hh eq_refl) as [a ->]. unfold bind at 1.
  destruct (scaled_returns (page_h_px l) 0.18 Hh eq_refl) as [off ->]. unfold bind at 1.
  destruct (draw_title_lines_returns textsize l (Z.max 12 t)
              (Py.split "010" (Py.strip title)) (bleed_px l + off) Hw Hx) as [calls ->].
  unfold bind at 1.
  generalize (Hw ("By " ++ author)%string (Z.max 10 a)).
  destruct (textsize _ _) as [w h]. simpl fst. intros Hwa.
  destruct (centered_x_returns l w Hwa Hx) as [ax ->]. unfold bind.
  eexists. reflexivity.
Qed.

Lemma draw_title_lines_texts textsize (l : Layout) (font : Z)
    (lines : list string) (y : Z) (calls : list TextCall) :
  draw_title_lines textsize l font lines y = Ok calls ->
  map tc_text calls = lines.
Proof.
  revert y calls. induction lines as [|line rest IH]; intros y calls H; simpl in H.
  - injection H as <-. reflexivity.
  - destruct (textsize line font) as [w h].
    inv_bind H. inv_bind H. injection H as <-. simpl. f_equal. eauto.
Qed.

Lemma split_not_nil (sep : ascii) (s : string) : Py.split sep s <> [].
Proof.
  destruct s as [|c t]; simpl; [discriminate|].
  destruct (Ascii.eqb c sep); [discriminate|].
  destruct (Py.split sep t); discriminate.
Qed.

(** One call per line of the stripped title, of which there is always at
    least one, then the author line, which always starts with "By ". *)
Lemma front_cover_text_lines textsize (l : Layout) (title author : string)
    (calls : list TextCall) :
  front_cover_text textsize l title author = Ok calls ->
  map tc_text calls
  = Py.split "010" (Py.strip title) ++ [("By " ++ author)%string]
  /\ (2 <= List.length calls)%nat.
Proof.
  unfold front_cover_text. intros H.
  inv_bind H. inv_bind H. inv_bind H. inv_bind H.
  destruct (textsize _ _) as [w h].
  inv_bind H. inv_bind H. injection H as <-.
  apply draw_title_lines_texts in Hv2.
  rewrite map_app, length_app, <- Hv2. simpl. split; [reflexivity|].
  generalize (split_not_nil "010" (Py.strip title)). rewrite <- Hv2.
  destruct v2; simpl; [congruence | lia].
Qed.

(** C5 (as the code has it): with a title that is empty once stripped and an
    empty author, on a layout and with text metrics of at most 52 bits, the
    text placement returns, and two texts are drawn on the front cover, in
    this order: the empty title line, then the author line "By ". *)
Theorem empty_text_front_cover textsize (l : Layout) (title : string) :
  Py.strip title = ""%string ->
  Z.abs (page_h_px l) <= 2 ^ 53 ->
  Z.abs (front_cover_x l) <= 2 ^ 53 ->
  (forall text size, Z.abs (page_w_px l - fst (textsize text size)) <= 2 ^ 53) ->
  exists calls,
    front_cover_text textsize l title "" = Ok calls
    /\ map tc_text calls = [""; "By "]%string /\ List.length calls = 2%nat.
Proof.
  intros E Hh Hx Hw.
  destruct (front_cover_text_returns textsize l title "" Hh Hx Hw) as [calls H].
  exists calls. split; [assumption|].
  apply front_cover_text_lines in H. destruct H as [H _].
  rewrite E in H. simpl in H.
  split; [exact H|]. rewrite <- (length_map tc_text), H. reflexivity.
Qed.

Lemma empty_text_front_cover_witness :
  Py.strip "" = ""%string
  /\ Z.abs (page_h_px default_layout) <= 2 ^ 53
  /\ Z.abs (front_cover_x default_layout) <= 2 ^ 53
  /\ (forall text size,
        Z.abs (page_w_px default_layout - fst (no_extent text size)) <= 2 ^ 53)
  /\ exists calls,
       front_cover_text no_extent default_layout "" "" = Ok calls
       /\ map tc_text calls = [""; "By "]%string /\ List.length calls = 2%nat.
Proof.
  split; [reflexivity|].
  split; [vm_compute; discriminate|].
  split; [vm_compute; discriminate|].
  split; [intros text size; vm_compute; discriminate|].
  apply (empty_text_front_cover no_extent default_layout "");
    [reflexivity | vm_compute; discriminate | vm_compute; discriminate
    | intros text size; vm_compute; discriminate].
Defined.

(** C5, refuted as stated: with an empty title and an empty author two texts
    are placed on the default A8 cover, and the second one is not empty. *)
Lemma empty_text_is_placed :
  layout roomy_image_new (default_spec 120) = Ok default_layout
  /\ front_cover_text no_extent default_layout "" "" = Ok empty_cover_calls
  /\ empty_cover_calls <> []
  /\ map tc_text empty_cover_calls = [""; "By "]%string.
Proof.
  split; [vm_compute; reflexivity|].
  split; [vm_compute; reflexivity|].
  split; [discriminate | reflexivity].
Qed.

(** * Further properties of the unit converter *)

(** ** Uniqueness of the representation *)

Lemma bounded_value_inj (m1 m2 : positive) (e1 e2 : Z) :
  SpecFloat.bounded prec emax m1 e1 = true ->
  SpecFloat.bounded prec emax m2 e2 = true ->
  (IZR (Zpos m1) * bpow e1)%R = (IZR (Zpos m2) * bpow e2)%R ->
  m1 = m2 /\ e1 = e2.
Proof.
  intros B1 B2 V. apply bounded_canonical in B1, B2.
  generalize (Zdigits2_bounds (Zpos m1) ltac:(lia)) (Zdigits2_bounds (Zpos m2) ltac:(lia)).
  simpl Zdigits2. set (d1 := Zpos (digits2_pos m1)). set (d2 := Zpos (digits2_pos m2)).
  fold d1 in B1. fold d2 in B2. intros [L1 U1] [L2 U2].
  assert (K : d1 + e1 = d2 + e2).
  { assert (A : (bpow (d1 - 1 + e1) < bpow (d2 + e2))%R).
    { rewrite !bpow_add. generalize (bpow_gt_0 e1) (bpow_gt_0 e2). nra. }
    assert (B : (bpow (d2 - 1 + e2) < bpow (d1 + e1))%R).
    { rewrite !bpow_add. generalize (bpow_gt_0 e1) (bpow_gt_0 e2). nra. }
    apply bpow_lt_inv in A, B. lia. }
  assert (E : e1 = e2) by lia. subst e2. split; [|reflexivity].
  assert (IZR (Zpos m1) = IZR (Zpos m2)).
  { apply Rmult_eq_reg_r with (bpow e1); [assumption|].
    generalize (bpow_gt_0 e1). lra. }
  apply eq_IZR in H. congruence.
Qed.

(** A finite result of [binary_round_aux] on a number that a valid float
    represents is that float. *)
Lemma binary_round_aux_exact (s : bool) (m e : Z) (l : location) (x : R)
    (m0 : positive) (e0 : Z) :
  0 <= m -> inbetween m x l -> e <= fexp64 (Zdigits2 m + e) ->
  SpecFloat.bounded prec emax m0 e0 = true ->
  (x * bpow e)%R = (IZR (Zpos m0) * bpow e0)%R ->
  binary_round_aux prec emax s m e l = S754_finite s m0 e0.
Proof.
  intros Hm Hx He B V.
  destruct (binary_round_aux_spec s m e l x Hm Hx He) as (r & Hr & H).
  rewrite V in Hr.
  assert (Er := rounds_to_unique _ _ _ Hr (rounds_to_valid m0 e0 B)).
  assert (P : (0 < IZR (Zpos m0) * bpow e0)%R).
  { apply Rmult_lt_0_compat; [apply IZR_lt; lia | apply bpow_gt_0]. }
  generalize (bounded_lt_emax m0 e0 B). intros U.
  destruct (binary_round_aux prec emax s m e l) as [s'|s'| |s' m' e'];
    try contradiction.
  - destruct H. lra.
  - destruct H. lra.
  - destruct H as (-> & Hv & B').
    destruct (bounded_value_inj m' m0 e' e0 B' B) as [-> ->]; [lra | reflexivity].
Qed.

(** ** Multiplying by one, multiplying the other way round *)

Lemma Prim2SF_one : Prim2SF 1 = S754_finite false 4503599627370496 (-52).
Proof. reflexivity. Qed.

Lemma SF64mul_one_r (x : spec_float) :
  valid_binary x = true -> sf_finite x = true ->
  SF64mul x (S754_finite false 4503599627370496 (-52)) = x.
Proof.
  destruct x as [s|s| |s m e]; try discriminate; intros V _.
  - simpl. destruct s; reflexivity.
  - cbn [valid_binary] in V. unfold SF64mul, SFmul.
    replace (xorb s false) with s by (destruct s; reflexivity).
    assert (C := bounded_canonical m e V).
    apply (binary_round_aux_exact _ _ _ _ (IZR (Zpos (m * 4503599627370496))));
      [lia | reflexivity | | assumption |].
    + generalize (Zdigits2_mul_ge m 4503599627370496).
      change (Zpos (digits2_pos 4503599627370496)) with 53.
      rewrite fexp64_eq. lia.
    + rewrite Pos2Z.inj_mul, mult_IZR, bpow_add.
      change (Zpos 4503599627370496) with (2 ^ 52). rewrite bpow_IZR by lia.
      rewrite Rmult_assoc, (Rmult_comm (bpow 52)), !Rmult_assoc, <- bpow_add.
      change (-52 + 52) with 0. rewrite bpow_0. ring.
Qed.

Lemma SF64mul_comm (x y : spec_float) : SF64mul x y = SF64mul y x.
Proof.
  destruct x as [sx|sx| |sx mx ex], y as [sy|sy| |sy my ey]; simpl;
    try reflexivity; try (rewrite xorb_comm; reflexivity).
  rewrite xorb_comm, (Pos.mul_comm my mx), (Z.add_comm ey ex). reflexivity.
Qed.

Lemma SF64mul_mono_r (x d1 d2 : spec_float) :
  sf_nonneg x -> sf_nonneg d1 -> sf_nonneg d2 ->
  valid_binary x = true -> valid_binary d1 = true -> valid_binary d2 = true ->
  sf_le d1 d2 ->
  sf_le (SF64mul x d1) (SF64mul x d2).
Proof.
  intros. rewrite (SF64mul_comm x d1), (SF64mul_comm x d2).
  apply SF64mul_mono; assumption.
Qed.

Lemma sf_le_trans (x y z : spec_float) : sf_le x y -> sf_le y z -> sf_le x z.
Proof.
  intros H1 H2 F. destruct (H2 F) as [Fy V2]. destruct (H1 Fy) as [Fx V1].
  split; [assumption | lra].
Qed.

Lemma sf_le_refl (x : spec_float) : sf_le x x.
Proof. intros F. split; [assumption | lra]. Qed.

(** ** [float(n)] keeps the order *)

Lemma binary_normalize_approx (n : Z) :
  0 <= n -> approx (IZR n) (binary_normalize prec emax n 0 false).
Proof.
  destruct n as [|p|p]; intros H; [apply approx_0 | apply binary_round_approx | lia].
Qed.

Lemma float_of_int_mono (n1 n2 : Z) (d2 : float) :
  0 <= n1 <= n2 -> Py.float_of_int n2 = Ok d2 ->
  exists d1, Py.float_of_int n1 = Ok d1 /\ sf_le (Prim2SF d1) (Prim2SF d2).
Proof.
  intros [H1 H12] H2.
  destruct (float_of_int_Ok n2 d2 H2) as (E2 & F2 & _).
  assert (L : sf_le (binary_normalize prec emax n1 0 false)
                (binary_normalize prec emax n2 0 false)).
  { apply (approx_mono (IZR n1) (IZR n2)); [apply IZR_le; assumption | |];
      apply binary_normalize_approx; lia. }
  unfold isfinite in F2. rewrite E2 in F2. destruct (L F2) as [F1 _].
  assert (exists d1, Py.float_of_int n1 = Ok d1) as [d1 Hd1].
  { unfold Py.float_of_int.
    destruct (binary_normalize prec emax n1 0 false); try discriminate; eauto. }
  exists d1. split; [assumption|].
  destruct (float_of_int_Ok n1 d1 Hd1) as (E1 & _ & _). rewrite E1, E2. exact L.
Qed.

(** ** The product under the rounding *)

Lemma product_mono (mm1 mm2 d1 d2 : float) :
  sf_nonneg (Prim2SF mm1) -> sf_nonneg (Prim2SF mm2) ->
  sf_nonneg (Prim2SF d1) -> sf_nonneg (Prim2SF d2) ->
  sf_le (Prim2SF mm1) (Prim2SF mm2) -> sf_le (Prim2SF d1) (Prim2SF d2) ->
  sf_le (Prim2SF (mm1 / 25.4 * d1)) (Prim2SF (mm2 / 25.4 * d2)).
Proof.
  intros N1 N2 Nd1 Nd2 L Ld. rewrite !Prim2SF_product.
  set (c := S754_finite false 7149464408450662 (-48)).
  assert (V : forall mm, valid_binary (SF64div (Prim2SF mm) c) = true).
  { intros mm. unfold c. rewrite <- Prim2SF_25_4, <- div_spec. apply Prim2SF_valid. }
  apply sf_le_trans with (SF64mul (SF64div (Prim2SF mm1) c) (Prim2SF d2)).
  - apply SF64mul_mono_r; auto using Prim2SF_valid. apply SF64div_nonneg; assumption.
  - apply SF64mul_mono; auto using Prim2SF_valid;
      try (apply SF64div_nonneg; assumption).
    apply SF64div_mono; assumption.
Qed.

(** X1: A higher resolution never gives fewer pixels: for a length that is not
    negative and [0 <= dpi1 <= dpi2], whenever the conversion at [dpi2]
    returns, the conversion at [dpi1] returns a value between 0 and it. *)
Theorem mm_to_px_dpi_monotone (mm : float) (dpi1 dpi2 n2 : Z) :
  (0 <=? mm)%float = true ->
  0 <= dpi1 <= dpi2 ->
  mm_to_px mm dpi2 = Ok n2 ->
  exists n1, mm_to_px mm dpi1 = Ok n1 /\ 0 <= n1 <= n2.
Proof.
  intros Hmm Hd H. assert (N := Prim2SF_nonneg mm Hmm).
  unfold mm_to_px in H. inv_bind H.
  destruct (float_of_int_mono dpi1 dpi2 v Hd Hv) as (d1 & Hd1 & L).
  destruct (float_of_int_Ok dpi1 d1 Hd1) as (_ & _ & N1).
  destruct (float_of_int_Ok dpi2 v Hv) as (_ & _ & N2).
  destruct (round_mono (mm / 25.4 * d1) (mm / 25.4 * v) n2) as (n1 & Hn1 & Le);
    [|assumption|].
  - apply product_mono; auto using sf_le_refl; [apply N1 | apply N2]; lia.
  - assert (E : mm_to_px mm dpi1 = Ok n1).
    { unfold mm_to_px. rewrite Hd1. exact Hn1. }
    exists n1. split; [assumption|]. split; [|assumption].
    apply (mm_to_px_nonneg mm dpi1 n1 N); [lia | assumption].
Qed.

Lemma mm_to_px_dpi_monotone_witness :
  (0 <=? 52)%float = true /\ 0 <= 72 <= 300 /\ mm_to_px 52 300 = Ok 614
  /\ exists n1, mm_to_px 52 72 = Ok n1 /\ 0 <= n1 <= 614.
Proof.
  split; [reflexivity|]. split; [lia|]. split; [vm_compute; reflexivity|].
  apply (mm_to_px_dpi_monotone 52 72 300 614);
    [reflexivity | lia | vm_compute; reflexivity].
Defined.

(** X2: More pages never give a narrower spine: for a thickness that is not
    negative and [0 <= pages1 <= pages2], whenever the spine of [pages2]
    pages is estimated and converted, so is the spine of [pages1] pages, to
    a pixel width between 0 and that of [pages2]. *)
Theorem spine_px_monotone (pages1 pages2 : Z) (t : float) (dpi : Z)
    (w2 : float) (n2 : Z) :
  0 <= pages1 <= pages2 ->
  (0 <=? t)%float = true ->
  0 <= dpi ->
  compute_spine_width_mm pages2 t = Ok w2 ->
  mm_to_px w2 dpi = Ok n2 ->
  exists w1 n1,
    compute_spine_width_mm pages1 t = Ok w1
    /\ mm_to_px w1 dpi = Ok n1 /\ 0 <= n1 <= n2.
Proof.
  intros Hp Ht Hd Hw2 Hn2. assert (Nt := Prim2SF_nonneg t Ht).
  unfold compute_spine_width_mm in *. inv_bind Hw2. injection Hw2 as <-.
  destruct (float_of_int_mono pages1 pages2 v Hp Hv) as (f1 & Hf1 & L).
  destruct (float_of_int_Ok pages1 f1 Hf1) as (_ & _ & N1).
  destruct (float_of_int_Ok pages2 v Hv) as (_ & _ & N2).
  specialize (N1 ltac:(lia)). specialize (N2 ltac:(lia)).
  rewrite Hf1. exists (f1 * t)%float. unfold bind.
  assert (Lw : sf_le (Prim2SF (f1 * t)) (Prim2SF (v * t))).
  { rewrite !mul_spec. apply SF64mul_mono; auto using Prim2SF_valid. }
  assert (Nw1 : sf_nonneg (Prim2SF (f1 * t))).
  { rewrite mul_spec. apply SF64mul_nonneg; assumption. }
  assert (Nw2 : sf_nonneg (Prim2SF (v * t))).
  { rewrite mul_spec. apply SF64mul_nonneg; assumption. }
  unfold mm_to_px in Hn2. inv_bind Hn2.
  destruct (float_of_int_Ok dpi v0 Hv0) as (_ & _ & Nd). specialize (Nd Hd).
  destruct (round_mono (f1 * t / 25.4 * v0) (v * t / 25.4 * v0) n2) as (n1 & Hn1 & Le);
    [|assumption|].
  - apply product_mono; auto using sf_le_refl.
  - assert (E : mm_to_px (f1 * t) dpi = Ok n1).
    { unfold mm_to_px. rewrite Hv0. exact Hn1. }
    exists n1. split; [reflexivity|]. split; [assumption|]. split; [|assumption].
    apply (mm_to_px_nonneg (f1 * t) dpi n1 Nw1 Hd E).
Qed.

Lemma spine_px_monotone_witness :
  0 <= 120 <= 400 /\ (0 <=? 0.0025)%float = true /\ 0 <= 300
  /\ compute_spine_width_mm 400 0.0025 = Ok 1%float
  /\ mm_to_px 1 300 = Ok 12
  /\ exists w1 n1,
       compute_spine_width_mm 120 0.0025 = Ok w1
       /\ mm_to_px w1 300 = Ok n1 /\ 0 <= n1 <= 12.
Proof.
  split; [lia|]. split; [reflexivity|]. split; [lia|].
  split; [vm_compute; reflexivity|]. split; [vm_compute; reflexivity|].
  apply (spine_px_monotone 120 400 0.0025 300 1 12);
    [lia | reflexivity | lia | vm_compute; reflexivity | vm_compute; reflexivity].
Defined.

(** ** Negative lengths, and one inch *)

Lemma SF64div_opp_l (x : spec_float) (m : positive) (e : Z) :
  SF64div (SFopp x) (S754_finite false m e)
  = SFopp (SF64div x (S754_finite false m e)).
Proof.
  destruct x as [s|s| |s mx ex]; simpl; try reflexivity;
    try (destruct s; reflexivity).
  unfold SF64div, SFdiv.
  destruct (SFdiv_core_binary prec emax (Zpos mx) ex (Zpos m) e) as [[q e'] l].
  rewrite <- binary_round_aux_opp. f_equal. destruct s; reflexivity.
Qed.

(** X3: A negative length is converted like its opposite, with the sign put
    back: [mm_to_px(-mm, dpi) = - mm_to_px(mm, dpi)], raising exactly when
    the conversion of [mm] raises. *)
Theorem mm_to_px_opp_mm (mm : float) (dpi : Z) :
  mm_to_px (- mm) dpi = (n <- mm_to_px mm dpi ;; Ok (- n)).
Proof.
  unfold mm_to_px. destruct (Py.float_of_int dpi) as [d|e]; [|reflexivity].
  unfold bind.
  replace (- mm / 25.4 * d)%float with (- (mm / 25.4 * d))%float; [apply round_opp|].
  rewrite <- mul_opp_l. f_equal.
  apply Prim2SF_inj. rewrite opp_spec, !div_spec, opp_spec, Prim2SF_25_4.
  symmetry. apply SF64div_opp_l.
Qed.

(** X4: One inch is exactly [dpi] pixels: [mm_to_px(25.4, dpi) = dpi] for every
    resolution of at most 53 bits, negative ones included. *)
Theorem mm_to_px_one_inch (dpi : Z) :
  Z.abs dpi <= 2 ^ 53 -> mm_to_px 25.4 dpi = Ok dpi.
Proof.
  intros H. destruct (float_of_int_exact dpi H) as (d & Hd & V).
  destruct (float_of_int_Ok dpi d Hd) as (_ & F & _).
  unfold mm_to_px. rewrite Hd. unfold bind.
  change (25.4 / 25.4)%float with 1%float.
  replace (1 * d)%float with d.
  - destruct (round_isfinite d F) as [n Hn]. rewrite Hn. f_equal.
    apply round_Ok in Hn. destruct Hn as [_ Hn]. rewrite V in Hn.
    exact (rne_unique _ _ _ Hn (rne_IZR dpi)).
  - apply Prim2SF_inj. rewrite mul_spec, Prim2SF_one, SF64mul_comm.
    symmetry. apply SF64mul_one_r; [apply Prim2SF_valid | exact F].
Qed.

Lemma mm_to_px_one_inch_witness :
  Z.abs 300 <= 2 ^ 53 /\ mm_to_px 25.4 300 = Ok 300.
Proof.
  split; [vm_compute; discriminate|].
  apply (mm_to_px_one_inch 300). vm_compute; discriminate.
Defined.

(** * Further properties of the layout *)

(** ** Nothing is negative *)

Lemma binary_round_nonneg (m : positive) (e : Z) :
  sf_nonneg (binary_round prec emax false m e).
Proof.
  unfold binary_round. destruct (shl_align m e _) as [mz ez].
  apply binary_round_aux_nonneg.
Qed.

Lemma SF64add_nonneg (x y : spec_float) :
  sf_nonneg x -> sf_nonneg y -> sf_nonneg (SF64add x y).
Proof.
  destruct x as [sx|sx| |sx mx ex], y as [sy|sy| |sy my ey];
    cbn [sf_nonneg]; intros Hx Hy; subst; try exact I;
    try (destruct sx; exact I); try (destruct sy; exact I);
    try (destruct sx, sy; exact I); try reflexivity.
  unfold SF64add, SFadd. cbn [cond_Zopp].
  destruct (shl_align mx ex _) as [a ea], (shl_align my ey _) as [b eb].
  cbn [fst]. apply binary_round_nonneg.
Qed.

Lemma Prim2SF_pos_nonneg (x : float) :
  (0 <? x)%float = true -> sf_nonneg (Prim2SF x).
Proof.
  rewrite ltb_spec. change (Prim2SF 0) with (S754_zero false).
  destruct (Prim2SF x) as [s|s| |s m e]; simpl; auto; destruct s; auto; discriminate.
Qed.

(** X5: On a valid request no pixel quantity of the layout is negative: the
    canvas, the bleed, the page and the spine have sizes of at least 0, and
    the three panels start at offsets in the order back, spine, front. *)
Theorem layout_nonneg (image_new : Z -> Z -> result unit)
    (s : CoverSpec) (l : Layout) :
  valid_spec s ->
  layout image_new s = Ok l ->
  0 <= full_w_px l /\ 0 <= full_h_px l /\ 0 <= bleed_px l
  /\ 0 <= page_w_px l /\ 0 <= page_h_px l /\ 0 <= spine_px l
  /\ 0 <= back_cover_x l <= spine_x l /\ spine_x l <= front_cover_x l.
Proof.
  intros (Vd & Vp & Vw & Vh & Vb & Vt) H. apply layout_Ok in H.
  destruct H as (sp & Hsp & Hfw & Hfh & Hb & Hw & Hh & Hs & Hbx & Hsx & Hfx).
  assert (Nw := Prim2SF_pos_nonneg _ Vw). assert (Nh := Prim2SF_pos_nonneg _ Vh).
  assert (Nb := Prim2SF_nonneg _ Vb). assert (Nt := Prim2SF_nonneg _ Vt).
  assert (N2 : sf_nonneg (Prim2SF 2)) by (apply Prim2SF_nonneg; reflexivity).
  assert (Nsp : sf_nonneg (Prim2SF sp)).
  { unfold compute_spine_width_mm in Hsp. inv_bind Hsp. injection Hsp as <-.
    apply float_of_int_Ok in Hv. destruct Hv as (_ & _ & Nv).
    rewrite mul_spec. apply SF64mul_nonneg; auto. }
  assert (Nfw : sf_nonneg (Prim2SF (full_w_mm s sp))).
  { unfold full_w_mm. rewrite !add_spec, !mul_spec.
    auto using SF64add_nonneg, SF64mul_nonneg. }
  assert (Nfh : sf_nonneg (Prim2SF (full_h_mm s))).
  { unfold full_h_mm. rewrite !add_spec, !mul_spec.
    auto using SF64add_nonneg, SF64mul_nonneg. }
  assert (D : 0 <= dpi s) by lia.
  assert (P := fun mm n => mm_to_px_nonneg mm (dpi s) n).
  assert (0 <= full_w_px l) by eauto. assert (0 <= full_h_px l) by eauto.
  assert (0 <= bleed_px l) by eauto. assert (0 <= page_w_px l) by eauto.
  assert (0 <= page_h_px l) by eauto. assert (0 <= spine_px l) by eauto.
  lia.
Qed.

Lemma layout_nonneg_witness :
  valid_spec (default_spec 120)
  /\ layout roomy_image_new (default_spec 120) = Ok default_layout
  /\ 0 <= full_w_px default_layout /\ 0 <= spine_px default_layout.
Proof.
  split; [apply default_spec_valid; lia|].
  split; [vm_compute; reflexivity|].
  destruct (layout_nonneg roomy_image_new (default_spec 120) default_layout)
    as (H1 & _ & _ & _ & _ & H6 & _);
    [apply default_spec_valid; lia | vm_compute; reflexivity |].
  split; [exact H1 | exact H6].
Defined.

(** * The ebook cover *)

(** ** The quotient of two integers *)

Lemma rounds_to_1 : rounds_to 1 1.
Proof.
  generalize (rounds_to_valid 4503599627370496 (-52) eq_refl).
  replace (IZR (Zpos 4503599627370496) * bpow (-52))%R with 1%R; [auto|].
  change (-52) with (- (52)). rewrite bpow_opp, <- bpow_IZR by lia.
  change (2 ^ 52) with 4503599627370496. field.
Qed.

Lemma SF2R_one : SF2R (S754_finite false 4503599627370496 (-52)) = 1%R.
Proof.
  cbn [SF2R]. change (-52) with (- (52)). rewrite bpow_opp, <- bpow_IZR by lia.
  change (2 ^ 52) with 4503599627370496. field.
Qed.

Lemma approx_1 : approx 1 (S754_finite false 4503599627370496 (-52)).
Proof.
  exists 1%R. split; [apply rounds_to_1|].
  split; [reflexivity|]. split; [|reflexivity].
  symmetry. apply SF2R_one.
Qed.

Lemma div_core_approx (s : bool) (a b : positive) :
  let '(q, e, l) := SFdiv_core_binary prec emax (Zpos a) 0 (Zpos b) 0 in
  0 <= q /\ inbetween q (IZR (Zpos a) / IZR (Zpos b) * bpow (- e)) l
  /\ e <= fexp64 (Zdigits2 q + e).
Proof.
  generalize (SFdiv_core_binary_spec a b 0 0).
  destruct (SFdiv_core_binary prec emax (Zpos a) 0 (Zpos b) 0) as [[q e] l].
  rewrite bpow_0, !Rmult_1_r. auto.
Qed.

Lemma approx_valid (v : R) (x : spec_float) : approx v x -> valid_binary x = true.
Proof. intros (r & _ & H). destruct x; simpl; tauto. Qed.

Lemma approx_nonneg (v : R) (x : spec_float) : approx v x -> sf_nonneg x.
Proof. intros (r & _ & H). destruct x; simpl; tauto. Qed.

(** The quotient of a non-negative by a positive integer is the rounded
    quotient, or does not fit. *)
Lemma truediv_int_approx (a b : Z) (f : float) :
  0 <= a -> 0 < b -> Py.truediv_int a b = Ok f ->
  approx (IZR a / IZR b) (Prim2SF f).
Proof.
  intros Ha Hb. unfold Py.truediv_int.
  destruct b as [|pb|pb]; try lia. destruct a as [|pa|pa]; try lia.
  - intros H. injection H as <-. unfold Rdiv. rewrite Rmult_0_l. apply approx_0.
  - cbn [Z.abs Z.ltb Z.compare xorb].
    generalize (div_core_approx false pa pb).
    destruct (SFdiv_core_binary prec emax (Zpos pa) 0 (Zpos pb) 0) as [[q e] l].
    intros (Hq & Hl & He).
    destruct (binary_round_aux_spec false q e l _ Hq Hl He) as (r & Hr & H).
    assert (A : approx (IZR (Zpos pa) / IZR (Zpos pb))
                  (binary_round_aux prec emax false q e l)).
    { exists r. split.
      - replace (IZR (Zpos pa) / IZR (Zpos pb))%R
          with (IZR (Zpos pa) / IZR (Zpos pb) * bpow (- e) * bpow e)%R; [assumption|].
        rewrite Rmult_assoc, <- bpow_add. replace (- e + e) with 0 by lia.
        rewrite bpow_0. ring.
      - destruct (binary_round_aux prec emax false q e l); tauto. }
    assert (V := approx_valid _ _ A).
    destruct (binary_round_aux prec emax false q e l) as [s|s| |s m' e'] eqn:E;
      intros H'; try discriminate;
      assert (Ef : f = SF2Prim (binary_round_aux prec emax false q e l))
        by (rewrite E; cbv beta iota in H'; congruence);
      rewrite Ef, Prim2SF_SF2Prim, E by (rewrite E; exact V); exact A.
Qed.

(** A quotient of at most 1 is computed, and is a float between 0 and 1. *)
Lemma truediv_int_le_1 (a b : Z) :
  0 <= a <= b -> 0 < b ->
  exists f, Py.truediv_int a b = Ok f
            /\ sf_nonneg (Prim2SF f)
            /\ sf_le (Prim2SF f) (S754_finite false 4503599627370496 (-52)).
Proof.
  intros Ha Hb.
  assert (Q : (IZR a / IZR b <= 1)%R).
  { assert (0 < IZR b)%R by (apply IZR_lt; lia).
    apply Rmult_le_reg_r with (IZR b); [assumption|].
    unfold Rdiv. rewrite Rmult_assoc, Rinv_l, Rmult_1_r, Rmult_1_l by lra.
    apply IZR_le. lia. }
  assert (P : forall f, Py.truediv_int a b = Ok f ->
                        sf_nonneg (Prim2SF f)
                        /\ sf_le (Prim2SF f) (S754_finite false 4503599627370496 (-52))).
  { intros f H. apply truediv_int_approx in H; try lia.
    split; [exact (approx_nonneg _ _ H) | exact (approx_mono _ _ _ _ Q H approx_1)]. }
  destruct (Py.truediv_int a b) as [f|err] eqn:E; [exists f; auto|exfalso].
  revert E. unfold Py.truediv_int.
  destruct b as [|pb|pb]; try lia. destruct a as [|pa|pa]; try lia; [discriminate|].
  cbn [Z.abs Z.ltb Z.compare xorb].
  generalize (div_core_approx false pa pb).
  destruct (SFdiv_core_binary prec emax (Zpos pa) 0 (Zpos pb) 0) as [[q e] l].
  intros (Hq & Hl & He).
  assert (F : sf_finite (binary_round_aux prec emax false q e l) = true).
  { apply (binary_round_aux_small false q e l _ Hq Hl He).
    rewrite Rmult_assoc, <- bpow_add. replace (- e + e) with 0 by lia.
    rewrite bpow_0, Rmult_1_r. apply Rle_trans with (1 := Q).
    replace 1%R with (bpow 0) by apply bpow_0. apply bpow_le. lia. }
  destruct (binary_round_aux prec emax false q e l); discriminate.
Qed.

(** ** An integer times a ratio of at most 1 *)

Lemma scale_le (n : Z) (f r : float) :
  0 <= n -> Py.float_of_int n = Ok f -> F2R f = IZR n ->
  sf_nonneg (Prim2SF r) ->
  sf_le (Prim2SF r) (S754_finite false 4503599627370496 (-52)) ->
  isfinite (f * r) = true /\ (0 <= F2R (f * r) <= IZR n)%R.
Proof.
  intros Hn Hf V Nr Lr.
  destruct (float_of_int_Ok n f Hf) as (_ & F & N). specialize (N Hn).
  unfold isfinite, F2R in *. rewrite mul_spec.
  assert (L : sf_le (SF64mul (Prim2SF f) (Prim2SF r)) (Prim2SF f)).
  { rewrite <- (SF64mul_one_r (Prim2SF f)) at 2 by auto using Prim2SF_valid.
    apply SF64mul_mono_r; auto using Prim2SF_valid; reflexivity. }
  destruct (L F) as [F' L']. split; [exact F'|]. split; [|lra].
  apply SF2R_nonneg, SF64mul_nonneg; assumption.
Qed.

(** ** The size of the cover *)

(** X6: With two positive aspect numbers and a long side of at most 53 bits
    that is not negative, the size is computed: the side named by the
    larger aspect number is exactly [long_side_px] pixels, the height if
    both are equal, and the other side lies between 0 and [long_side_px]. *)
Theorem ebook_cover_size_bounds (aspect_w aspect_h long_side_px : Z) :
  0 < aspect_w -> 0 < aspect_h -> 0 <= long_side_px <= 2 ^ 53 ->
  exists width height,
    ebook_cover_size aspect_w aspect_h long_side_px = Ok (width, height)
    /\ (aspect_w <= aspect_h -> height = long_side_px /\ 0 <= width <= long_side_px)
    /\ (aspect_h < aspect_w -> width = long_side_px /\ 0 <= height <= long_side_px).
Proof.
  intros Hw Hh Hl.
  assert (P : forall a b, 0 < a <= b ->
            exists n, (ratio <- Py.truediv_int a b ;;
                       h <- Py.float_of_int long_side_px ;;
                       Py.round (h * ratio)%float) = Ok n /\ 0 <= n <= long_side_px).
  { intros a b Hab.
    destruct (truediv_int_le_1 a b) as (r & -> & Nr & Lr); try lia.
    destruct (float_of_int_exact long_side_px) as (f & Hf & V); [lia|].
    unfold bind. rewrite Hf.
    destruct (scale_le long_side_px f r) as (F & B); auto; try lia.
    destruct (round_isfinite _ F) as [n Hn]. exists n. split; [assumption|].
    apply round_Ok in Hn. destruct Hn as [_ Hn]. split.
    - apply (rne_ge_IZR _ _ 0 Hn). lra.
    - apply (rne_le_IZR _ _ _ Hn). lra. }
  unfold ebook_cover_size. rewrite Z.geb_leb.
  destruct (Z.leb_spec aspect_w aspect_h) as [L|L].
  - destruct (P aspect_w aspect_h) as (n & Hn & B); [lia|].
    exists n, long_side_px. split.
    + revert Hn. unfold bind.
      destruct (Py.truediv_int aspect_w aspect_h); [|discriminate].
      destruct (Py.float_of_int long_side_px); [|discriminate].
      intros ->. reflexivity.
    + split; [auto | lia].
  - destruct (P aspect_h aspect_w) as (n & Hn & B); [lia|].
    exists long_side_px, n. split.
    + revert Hn. unfold bind.
      destruct (Py.truediv_int aspect_h aspect_w); [|discriminate].
      destruct (Py.float_of_int long_side_px); [|discriminate].
      intros ->. reflexivity.
    + split; [lia | auto].
Qed.

Lemma ebook_cover_size_bounds_witness :
  0 < 52 /\ 0 < 74 /\ 0 <= AMAZON_LONG_SIDE_PX <= 2 ^ 53
  /\ exists width height,
       ebook_cover_size 52 74 AMAZON_LONG_SIDE_PX = Ok (width, height)
       /\ (52 <= 74 -> height = AMAZON_LONG_SIDE_PX
                       /\ 0 <= width <= AMAZON_LONG_SIDE_PX)
       /\ (74 < 52 -> width = AMAZON_LONG_SIDE_PX
                      /\ 0 <= height <= AMAZON_LONG_SIDE_PX).
Proof.
  split; [lia|]. split; [lia|].
  split; [split; vm_compute; discriminate|].
  apply (ebook_cover_size_bounds 52 74 AMAZON_LONG_SIDE_PX);
    [lia | lia | split; vm_compute; discriminate].
Defined.

(** X7: A longer long side never gives a smaller cover: for two positive aspect
    numbers and [0 <= long1 <= long2], whenever the size for [long2] is
    computed, so is the size for [long1], and neither side is larger. *)
Theorem ebook_cover_size_monotone (aspect_w aspect_h long1 long2 w2 h2 : Z) :
  0 < aspect_w -> 0 < aspect_h -> 0 <= long1 <= long2 ->
  ebook_cover_size aspect_w aspect_h long2 = Ok (w2, h2) ->
  exists w1 h1,
    ebook_cover_size aspect_w aspect_h long1 = Ok (w1, h1)
    /\ w1 <= w2 /\ h1 <= h2.
Proof.
  intros Hw Hh Hl.
  assert (P : forall a b n2, 0 < a -> 0 < b ->
            (ratio <- Py.truediv_int a b ;;
             h <- Py.float_of_int long2 ;;
             Py.round (h * ratio)%float) = Ok n2 ->
            exists n1, (ratio <- Py.truediv_int a b ;;
                        h <- Py.float_of_int long1 ;;
                        Py.round (h * ratio)%float) = Ok n1 /\ n1 <= n2).
  { intros a b n2 Ha Hb H. inv_bind H. inv_bind H.
    assert (A := truediv_int_approx a b v ltac:(lia) Hb Hv).
    destruct (float_of_int_mono long1 long2 v0 Hl Hv0) as (f1 & Hf1 & L).
    destruct (float_of_int_Ok long1 f1 Hf1) as (_ & _ & N1).
    destruct (float_of_int_Ok long2 v0 Hv0) as (_ & _ & N2).
    unfold bind. rewrite Hv, Hf1. apply (round_mono _ (v0 * v)%float); [|assumption].
    rewrite !mul_spec.
    apply SF64mul_mono; auto using Prim2SF_valid; try (apply N1 || apply N2; lia).
    exact (approx_nonneg _ _ A). }
  unfold ebook_cover_size. destruct (aspect_h >=? aspect_w); intros H.
  - destruct (P aspect_w aspect_h w2 Hw Hh) as (n1 & Hn1 & Le).
    + revert H. unfold bind.
      destruct (Py.truediv_int aspect_w aspect_h); [|discriminate].
      destruct (Py.float_of_int long2); [|discriminate].
      destruct (Py.round _); [|discriminate]. congruence.
    + exists n1, long1. split.
      * revert Hn1. unfold bind.
        destruct (Py.truediv_int aspect_w aspect_h); [|discriminate].
        destruct (Py.float_of_int long1); [|discriminate].
        intros ->. reflexivity.
      * split; [assumption|]. inv_bind H. inv_bind H. inv_bind H. injection H as _ <-. lia.
  - destruct (P aspect_h aspect_w h2 Hh Hw) as (n1 & Hn1 & Le).
    + revert H. unfold bind.
      destruct (Py.truediv_int aspect_h aspect_w); [|discriminate].
      destruct (Py.float_of_int long2); [|discriminate].
      destruct (Py.round _); [|discriminate]. congruence.
    + exists long1, n1. split.
      * revert Hn1. unfold bind.
        destruct (Py.truediv_int aspect_h aspect_w); [|discriminate].
        destruct (Py.float_of_int long1); [|discriminate].
        intros ->. reflexivity.
      * split; [|assumption]. inv_bind H. inv_bind H. inv_bind H. injection H as <- _. lia.
Qed.

Lemma ebook_cover_size_monotone_witness :
  0 < 52 /\ 0 < 74 /\ 0 <= 800 <= 1600
  /\ ebook_cover_size 52 74 1600 = Ok (1124, 1600)
  /\ exists w1 h1,
       ebook_cover_size 52 74 800 = Ok (w1, h1) /\ w1 <= 1124 /\ h1 <= 1600.
Proof.
  split; [lia|]. split; [lia|]. split; [lia|].
  split; [vm_compute; reflexivity|].
  apply (ebook_cover_size_monotone 52 74 800 1600 1124 1600);
    [lia | lia | lia | vm_compute; reflexivity].
Defined.

(** ** A square cover *)

Lemma truediv_int_same (a : Z) : a <> 0 -> Py.truediv_int a a = Ok 1%float.
Proof.
  assert (P : forall (p : positive),
            (let '(q, e, l) := SFdiv_core_binary prec emax (Zpos p) 0 (Zpos p) 0 in
             match binary_round_aux prec emax false q e l with
             | S754_infinity _ => Raise OverflowError
             | sf => Ok (SF2Prim sf)
             end) = Ok 1%float).
  { intros p. generalize (div_core_approx false p p).
    destruct (SFdiv_core_binary prec emax (Zpos p) 0 (Zpos p) 0) as [[q e] l].
    intros (Hq & Hl & He).
    rewrite (binary_round_aux_exact false q e l _ 4503599627370496 (-52) Hq Hl He eq_refl).
    - reflexivity.
    - generalize SF2R_one. cbn [SF2R]. intros ->.
      rewrite Rmult_assoc, <- bpow_add. replace (- e + e) with 0 by lia.
      rewrite bpow_0. field. apply not_0_IZR. discriminate. }
  intros Ha. unfold Py.truediv_int. destruct a as [|p|p]; [congruence | |]; apply P.
Qed.

(** X8: Two equal aspect numbers give a square cover of [long_side_px] pixels,
    for every long side of at most 53 bits and every aspect number but 0,
    negative ones included. *)
Theorem ebook_cover_square (aspect long_side_px : Z) :
  aspect <> 0 -> Z.abs long_side_px <= 2 ^ 53 ->
  ebook_cover_size aspect aspect long_side_px = Ok (long_side_px, long_side_px).
Proof.
  intros Ha Hl. unfold ebook_cover_size.
  rewrite Z.geb_leb, Z.leb_refl, (truediv_int_same aspect Ha).
  destruct (float_of_int_exact long_side_px Hl) as (f & Hf & V).
  destruct (float_of_int_Ok long_side_px f Hf) as (_ & F & _).
  unfold bind. rewrite Hf.
  replace (f * 1)%float with f.
  - destruct (round_isfinite f F) as [n Hn]. rewrite Hn. do 2 f_equal.
    apply round_Ok in Hn. destruct Hn as [_ Hn]. rewrite V in Hn.
    exact (rne_unique _ _ _ Hn (rne_IZR long_side_px)).
  - apply Prim2SF_inj. rewrite mul_spec, Prim2SF_one.
    symmetry. apply SF64mul_one_r; [apply Prim2SF_valid | exact F].
Qed.

Lemma ebook_cover_square_witness :
  1 <> 0 /\ Z.abs 1600 <= 2 ^ 53 /\ ebook_cover_size 1 1 1600 = Ok (1600, 1600).
Proof.
  split; [discriminate|]. split; [vm_compute; discriminate|].
  apply (ebook_cover_square 1 1600); [discriminate | vm_compute; discriminate].
Defined.

(** ** Aspect numbers that are not positive *)

Lemma float_of_int_not_zero_division (n : Z) :
  Py.float_of_int n <> Raise ZeroDivisionError.
Proof.
  unfold Py.float_of_int. destruct (binary_normalize prec emax n 0 false); discriminate.
Qed.

Lemma round_not_zero_division (x : float) : Py.round x <> Raise ZeroDivisionError.
Proof. unfold Py.round. destruct (Prim2SF x); discriminate. Qed.

Lemma truediv_int_zero_division (a b : Z) :
  Py.truediv_int a b = Raise ZeroDivisionError <-> b = 0.
Proof.
  unfold Py.truediv_int. split.
  - destruct b as [|pb|pb]; [reflexivity | |]; destruct a as [|pa|pa]; try discriminate;
      destruct (SFdiv_core_binary prec emax _ 0 _ 0) as [[q e] l];
      destruct (binary_round_aux prec emax _ q e l); discriminate.
  - intros ->. destruct a; reflexivity.
Qed.

(** X9: The size computation divides by the larger of the two aspect numbers,
    and by the height when they are equal: it raises [ZeroDivisionError]
    exactly when the larger one is 0, whatever the long side. *)
Theorem ebook_cover_size_zero_division (aspect_w aspect_h long_side_px : Z) :
  ebook_cover_size aspect_w aspect_h long_side_px = Raise ZeroDivisionError
  <-> Z.max aspect_w aspect_h = 0.
Proof.
  assert (P : forall a b,
            (ratio <- Py.truediv_int a b ;;
             h <- Py.float_of_int long_side_px ;;
             n <- Py.round (h * ratio)%float ;;
             Ok (n, long_side_px)) = Raise ZeroDivisionError <-> b = 0).
  { intros a b. rewrite <- (truediv_int_zero_division a b). unfold bind.
    destruct (Py.truediv_int a b) as [r|e]; [|split; congruence].
    generalize (float_of_int_not_zero_division long_side_px).
    destruct (Py.float_of_int long_side_px) as [h|e].
    - generalize (round_not_zero_division (h * r)).
      destruct (Py.round (h * r)); intros; split; congruence.
    - intros; split; congruence. }
  assert (Q : forall a b,
            (ratio <- Py.truediv_int a b ;;
             h <- Py.float_of_int long_side_px ;;
             n <- Py.round (h * ratio)%float ;;
             Ok (long_side_px, n)) = Raise ZeroDivisionError <-> b = 0).
  { intros a b. rewrite <- (P a b). unfold bind.
    destruct (Py.truediv_int a b) as [r|e]; [|tauto].
    destruct (Py.float_of_int long_side_px) as [h|e]; [|tauto].
    destruct (Py.round (h * r)); [split; discriminate | tauto]. }
  unfold ebook_cover_size. rewrite Z.geb_leb.
  destruct (Z.leb_spec aspect_w aspect_h) as [L|L].
  - rewrite (P aspect_w aspect_h). lia.
  - rewrite (Q aspect_h aspect_w). lia.
Qed.

(** X10: Exchanging two different aspect numbers exchanges the sides of the
    cover, and raises exactly when the original call raises. *)
Theorem ebook_cover_size_swap (aspect_w aspect_h long_side_px : Z) :
  aspect_w <> aspect_h ->
  ebook_cover_size aspect_h aspect_w long_side_px
  = (size <- ebook_cover_size aspect_w aspect_h long_side_px ;;
     Ok (snd size, fst size)).
Proof.
  intros Hne. unfold ebook_cover_size. rewrite !Z.geb_leb.
  destruct (Z.leb_spec aspect_w aspect_h), (Z.leb_spec aspect_h aspect_w); try lia;
    unfold bind;
    destruct (Py.truediv_int _ _) as [r|]; try reflexivity;
    destruct (Py.float_of_int long_side_px) as [f|]; try reflexivity;
    destruct (Py.round _); reflexivity.
Qed.

Lemma ebook_cover_size_swap_witness :
  52 <> 74
  /\ ebook_cover_size 74 52 1600
     = (size <- ebook_cover_size 52 74 1600 ;; Ok (snd size, fst size)).
Proof.
  split; [discriminate|]. apply (ebook_cover_size_swap 52 74 1600). discriminate.
Defined.

(** * The text of the two covers *)

(** ** [int(h * ratio)] lies between 0 and [h] *)

Lemma Ok_eq {A : Type} (a b : A) : Ok a = Ok b -> a = b.
Proof. congruence. Qed.

Lemma int_of_float_floor (x : float) (n : Z) :
  sf_nonneg (Prim2SF x) -> Py.int_of_float x = Ok n ->
  (IZR n <= F2R x < IZR n + 1)%R.
Proof.
  unfold Py.int_of_float, F2R.
  destruct (Prim2SF x) as [s|s| |s m e]; cbn [sf_nonneg SF2R]; intros N H;
    try discriminate.
  - apply Ok_eq in H. subst n. lra.
  - subst s. destruct e as [|p|p]; apply Ok_eq in H; subst n.
    + rewrite Z.pow_0_r, Z.mul_1_r, bpow_0. lra.
    + rewrite mult_IZR, bpow_IZR by lia. lra.
    + change (Zneg p) with (- Zpos p). rewrite bpow_opp, <- bpow_IZR by lia.
      assert (D : 0 < 2 ^ Zpos p) by (apply Z.pow_pos_nonneg; lia).
      generalize (Z.div_mod (Zpos m) (2 ^ Zpos p) ltac:(lia))
                 (Z.mod_pos_bound (Zpos m) (2 ^ Zpos p) D).
      set (q := Zpos m / 2 ^ Zpos p). set (r := Zpos m mod 2 ^ Zpos p).
      intros E [R0 R1]. rewrite E, plus_IZR, mult_IZR.
      apply IZR_lt in D. apply IZR_le in R0. apply IZR_lt in R1.
      set (d := IZR (2 ^ Zpos p)) in *.
      replace ((d * IZR q + IZR r) * / d)%R with (IZR q + IZR r * / d)%R
        by (field; lra).
      assert (0 <= IZR r * / d < 1)%R; [|lra]. split.
      * apply Rmult_le_pos; [assumption | apply Rlt_le, Rinv_0_lt_compat; assumption].
      * apply Rmult_lt_reg_r with d; [assumption|].
        rewrite Rmult_assoc, Rinv_l, Rmult_1_r, Rmult_1_l by lra. assumption.
Qed.

Lemma small_ratio_le_1 (r : float) :
  small_ratio r = true -> sf_nonneg (Prim2SF r) ->
  sf_le (Prim2SF r) (S754_finite false 4503599627370496 (-52)).
Proof.
  intros H N _. destruct (small_ratio_mag r H) as [F M]. split; [exact F|].
  rewrite SF2R_one. revert N M.
  destruct (Prim2SF r) as [s|s| |s m e]; cbn [sf_nonneg SF2R SFmag]; try lra.
  intros ->. auto.
Qed.

Lemma scaled_bounds (h n : Z) (ratio : float) :
  0 <= h <= 2 ^ 53 -> small_ratio ratio = true -> (0 <=? ratio)%float = true ->
  scaled h ratio = Ok n -> 0 <= n <= h.
Proof.
  intros Hh Hs Hr H. assert (N := Prim2SF_nonneg ratio Hr).
  destruct (float_of_int_exact h) as (f & Hf & V); [lia|].
  unfold scaled in H. rewrite Hf in H. unfold bind in H.
  destruct (scale_le h f ratio) as (F & B0 & B1); auto using small_ratio_le_1; [lia|].
  destruct (float_of_int_Ok h f Hf) as (_ & _ & Nf).
  destruct (int_of_float_floor (f * ratio) n) as [L U]; [|assumption|].
  - rewrite mul_spec. apply SF64mul_nonneg; [apply Nf; lia | assumption].
  - split.
    + assert (H0 : (IZR (-1) < IZR n)%R) by lra. apply lt_IZR in H0. lia.
    + apply le_IZR. lra.
Qed.

(** ** The title lines of the print cover *)

Lemma draw_title_lines_stacked textsize (l : Layout) (font : Z)
    (lines : list string) (y : Z) (calls : list TextCall) :
  draw_title_lines textsize l font lines y = Ok calls ->
  (forall c, In c calls -> tc_font_size c = font /\ tc_fill c = (20, 20, 20))
  /\ (forall c, nth_error calls 0 = Some c -> tc_y c = y)
  /\ (forall i c1 c2,
        nth_error calls i = Some c1 -> nth_error calls (S i) = Some c2 ->
        tc_y c2 = tc_y c1 + (snd (textsize (tc_text c1) font) + 6)).
Proof.
  revert y calls. induction lines as [|line rest IH]; intros y calls H; simpl in H.
  - apply Ok_eq in H. subst calls. split; [intros c []|].
    split; [discriminate|]. intros [|i]; discriminate.
  - destruct (textsize line font) as [w h] eqn:E.
    inv_bind H. inv_bind H. apply Ok_eq in H. subst calls.
    destruct (IH _ _ Hv0) as (F & Y & S). split; [|split].
    + intros c [<-|Hc]; [split; reflexivity | auto].
    + intros c Hc. apply (f_equal (fun o => match o with Some c => tc_y c | None => y end)) in Hc.
      simpl in Hc. congruence.
    + intros [|i] c1 c2 H1 H2.
      * simpl in H1, H2. injection H1 as <-. apply Y in H2. cbn [tc_y tc_text].
        rewrite E. exact H2.
      * simpl in H1, H2. eauto.
Qed.

(** X11: Each line of the title starts 6 pixels below the end of the line
    before it, as the text metrics measure that line, and in the same font
    size. *)
Theorem front_cover_title_stacked textsize (l : Layout) (title author : string)
    (calls : list TextCall) (i : nat) (c1 c2 : TextCall) :
  front_cover_text textsize l title author = Ok calls ->
  nth_error calls i = Some c1 -> nth_error calls (S i) = Some c2 ->
  (S (S i) < List.length calls)%nat ->
  tc_y c2 = tc_y c1 + (snd (textsize (tc_text c1) (tc_font_size c1)) + 6)
  /\ tc_font_size c2 = tc_font_size c1.
Proof.
  unfold front_cover_text. intros H H1 H2 Hi.
  inv_bind H. inv_bind H. inv_bind H. inv_bind H.
  destruct (textsize ("By " ++ author)%string _) as [w h].
  inv_bind H. inv_bind H. apply Ok_eq in H. subst calls.
  rewrite length_app in Hi. simpl in Hi.
  rewrite nth_error_app1 in H1, H2 by lia.
  destruct (draw_title_lines_stacked _ _ _ _ _ _ Hv2) as (F & _ & S).
  destruct (F c1 (nth_error_In _ _ H1)) as [F1 _].
  destruct (F c2 (nth_error_In _ _ H2)) as [F2 _].
  rewrite F1, F2. split; [eauto | reflexivity].
Qed.

Lemma front_cover_title_stacked_witness :
  exists calls c1 c2,
    front_cover_text mono_extent default_layout two_line_title "A. Writer" = Ok calls
    /\ nth_error calls 0 = Some c1 /\ nth_error calls 1 = Some c2
    /\ (2 < List.length calls)%nat
    /\ tc_y c2 = tc_y c1 + (snd (mono_extent (tc_text c1) (tc_font_size c1)) + 6)
    /\ tc_font_size c2 = tc_font_size c1.
Proof.
  eexists. eexists. eexists.
  split; [vm_compute; reflexivity|].
  split; [reflexivity|]. split; [reflexivity|].
  split; [simpl; lia|].
  eapply (front_cover_title_stacked mono_extent default_layout two_line_title "A. Writer" _ 0%nat);
    [vm_compute; reflexivity | reflexivity | reflexivity | simpl; lia].
Defined.

(** X12: With a page height of at most 53 bits that is not negative, the first
    line of the title and the author line start inside the vertical extent
    of the front panel, the title font has between 12 pixels and the page
    height (or 12), the author font between 10 pixels and the page height
    (or 10). *)
Theorem front_cover_text_inside textsize (l : Layout) (title author : string)
    (calls : list TextCall) :
  0 <= page_h_px l <= 2 ^ 53 ->
  front_cover_text textsize l title author = Ok calls ->
  exists c a,
    nth_error calls 0 = Some c
    /\ nth_error calls (List.length calls - 1) = Some a
    /\ bleed_px l <= tc_y c <= bleed_px l + page_h_px l
    /\ bleed_px l <= tc_y a <= bleed_px l + page_h_px l
    /\ 12 <= tc_font_size c <= Z.max 12 (page_h_px l)
    /\ 10 <= tc_font_size a <= Z.max 10 (page_h_px l).
Proof.
  unfold front_cover_text. intros Hh H.
  inv_bind H. inv_bind H. inv_bind H. inv_bind H.
  destruct (textsize ("By " ++ author)%string _) as [w h].
  inv_bind H. inv_bind H. apply Ok_eq in H. subst calls.
  apply scaled_bounds in Hv, Hv0, Hv1, Hv4; try reflexivity; try assumption.
  destruct (draw_title_lines_stacked _ _ _ _ _ _ Hv2) as (F & Y & _).
  assert (T := draw_title_lines_texts _ _ _ _ _ _ Hv2).
  destruct v2 as [|c v2].
  { exfalso. apply (split_not_nil "010" (Py.strip title)). rewrite <- T. reflexivity. }
  exists c. eexists. split; [reflexivity|]. split.
  - rewrite length_app. simpl List.length.
    replace (S (List.length v2) + 1 - 1)%nat with (List.length (c :: v2)) by (simpl; lia).
    rewrite nth_error_app2, Nat.sub_diag by lia. reflexivity.
  - cbn [tc_y tc_font_size]. rewrite (Y c eq_refl).
    destruct (F c (or_introl eq_refl)) as [-> _]. lia.
Qed.

Lemma front_cover_text_inside_witness :
  0 <= page_h_px default_layout <= 2 ^ 53
  /\ front_cover_text no_extent default_layout "" "" = Ok empty_cover_calls
  /\ exists c a,
       nth_error empty_cover_calls 0 = Some c
       /\ nth_error empty_cover_calls (List.length empty_cover_calls - 1) = Some a
       /\ bleed_px default_layout <= tc_y c
          <= bleed_px default_layout + page_h_px default_layout
       /\ bleed_px default_layout <= tc_y a
          <= bleed_px default_layout + page_h_px default_layout
       /\ 12 <= tc_font_size c <= Z.max 12 (page_h_px default_layout)
       /\ 10 <= tc_font_size a <= Z.max 10 (page_h_px default_layout).
Proof.
  split; [split; vm_compute; discriminate|].
  split; [vm_compute; reflexivity|].
  apply (front_cover_text_inside no_extent default_layout "" "");
    [split; vm_compute; discriminate | vm_compute; reflexivity].
Defined.

(** ** The title is drawn whole *)

Lemma join_split (sep : ascii) (s : string) : join sep (Py.split sep s) = s.
Proof.
  induction s as [|c t IH]; [reflexivity|]. simpl Py.split.
  generalize (split_not_nil sep t). destruct (Ascii.eqb_spec c sep) as [->|Hc].
  - destruct (Py.split sep t) as [|w ws]; [congruence|]. intros _.
    change (join sep (EmptyString :: w :: ws))
      with (EmptyString ++ String sep (join sep (w :: ws)))%string.
    rewrite IH. reflexivity.
  - destruct (Py.split sep t) as [|w ws]; [congruence|]. intros _.
    rewrite <- IH. destruct ws; reflexivity.
Qed.

Lemma split_no_sep (sep : ascii) (s : string) :
  Forall (fun line => occurs sep line = false) (Py.split sep s).
Proof.
  induction s as [|c t IH]; simpl Py.split.
  - constructor; [reflexivity | constructor].
  - destruct (Ascii.eqb c sep) eqn:E.
    + constructor; [reflexivity | assumption].
    + generalize (split_not_nil sep t).
      destruct (Py.split sep t) as [|w ws]; [congruence|]. intros _.
      inversion IH; subst. constructor; [|assumption]. simpl. rewrite E. assumption.
Qed.

(** X13: The front cover shows the whole stripped title and nothing else of it:
    the texts drawn before the author line hold no newline, and joined by
    newlines they are the stripped title. *)
Theorem front_cover_title_whole textsize (l : Layout) (title author : string)
    (calls : list TextCall) :
  front_cover_text textsize l title author = Ok calls ->
  join "010" (map tc_text (removelast calls)) = Py.strip title
  /\ Forall (fun c => occurs "010" (tc_text c) = false) (removelast calls).
Proof.
  unfold front_cover_text. intros H.
  inv_bind H. inv_bind H. inv_bind H. inv_bind H.
  destruct (textsize ("By " ++ author)%string _) as [w h].
  inv_bind H. inv_bind H. apply Ok_eq in H. subst calls.
  rewrite removelast_last.
  assert (T := draw_title_lines_texts _ _ _ _ _ _ Hv2).
  split.
  - rewrite T. apply join_split.
  - apply Forall_map with (f := tc_text) (P := fun t => occurs "010" t = false).
    rewrite T. apply split_no_sep.
Qed.

Lemma front_cover_title_whole_witness :
  exists calls,
    front_cover_text mono_extent default_layout two_line_title "A. Writer" = Ok calls
    /\ join "010" (map tc_text (removelast calls)) = Py.strip two_line_title
    /\ Forall (fun c => occurs "010" (tc_text c) = false) (removelast calls).
Proof.
  eexists. split; [vm_compute; reflexivity|].
  eapply (front_cover_title_whole mono_extent default_layout two_line_title "A. Writer"). vm_compute; reflexivity.
Defined.

(** ** Halving an integer is exact *)

Lemma bounded_iff (m : positive) (e : Z) :
  SpecFloat.bounded prec emax m e = true
  <-> e = Z.max (Zpos (digits2_pos m) + e - 53) emin64 /\ e <= 971.
Proof.
  unfold SpecFloat.bounded, canonical_mantissa.
  rewrite andb_true_iff, Z.leb_le. change (emax - prec) with 971.
  change (IntDef.Z.eqb ?a ?b) with (a =? b). rewrite Z.eqb_eq, fexp64_eq. lia.
Qed.

(** A float that holds an integer of at least 1 is halved by lowering its
    exponent. *)
Lemma bounded_half (m : positive) (e : Z) (p : positive) :
  SpecFloat.bounded prec emax m e = true ->
  (IZR (Zpos m) * bpow e)%R = IZR (Zpos p) ->
  SpecFloat.bounded prec emax m (e - 1) = true.
Proof.
  intros B V. apply bounded_iff in B. destruct B as [C U].
  generalize (Zdigits2_bounds (Zpos m) ltac:(lia)). simpl Zdigits2.
  set (d := Zpos (digits2_pos m)) in *. intros [_ D].
  assert (Hd : d <= 53) by lia.
  assert (He : -53 < e).
  { apply bpow_lt_inv.
    assert (1 <= IZR (Zpos p))%R by (apply IZR_le; lia).
    assert (bpow d <= bpow 53)%R by (apply bpow_le; assumption).
    assert (G := bpow_gt_0 e).
    assert (E : (bpow 53 * bpow (-53) = 1)%R).
    { rewrite <- bpow_add. apply bpow_0. }
    assert (G' := bpow_gt_0 (-53)). assert (G53 := bpow_gt_0 53).
    apply Rmult_lt_reg_l with (bpow 53); [assumption|]. rewrite E.
    apply Rle_lt_trans with (IZR (Zpos m) * bpow e)%R; [lra|].
    apply Rmult_lt_compat_r; lra. }
  apply bounded_iff. fold d. lia.
Qed.

Lemma truediv_int_2_exact (a : Z) (f : float) :
  Z.abs a <= 2 ^ 53 -> Py.truediv_int a 2 = Ok f -> (F2R f * 2 = IZR a)%R.
Proof.
  intros Ha.
  assert (P : forall (s : bool) (p : positive), Zpos p <= 2 ^ 53 ->
            (let '(q, e, l) := SFdiv_core_binary prec emax (Zpos p) 0 2 0 in
             match binary_round_aux prec emax s q e l with
             | S754_infinity _ => Raise OverflowError
             | sf => Ok (SF2Prim sf)
             end) = Ok f ->
            (F2R f * 2 = if s then - IZR (Zpos p) else IZR (Zpos p))%R).
  { intros s p Hp.
    destruct (float_of_int_exact (Zpos p) Hp) as (f0 & Hf0 & V0).
    assert (B0 := Prim2SF_valid f0). unfold F2R in V0.
    assert (Pp : (0 < IZR (Zpos p))%R) by (apply IZR_lt; lia).
    destruct (float_of_int_Ok (Zpos p) f0 Hf0) as (_ & _ & N0).
    specialize (N0 ltac:(lia)).
    destruct (Prim2SF f0) as [s0|s0| |s0 m e]; cbn [SF2R sf_nonneg valid_binary] in *;
      try lra.
    subst s0. assert (B := bounded_half m e p B0 V0).
    generalize (div_core_approx s p 2).
    destruct (SFdiv_core_binary prec emax (Zpos p) 0 2 0) as [[q e'] l].
    intros (Hq & Hl & He).
    rewrite (binary_round_aux_exact s q e' l _ m (e - 1) Hq Hl He B).
    - intros H. apply Ok_eq in H. subst f. unfold F2R.
      rewrite Prim2SF_SF2Prim by exact B. cbn [SF2R].
      unfold Z.sub. rewrite bpow_add, bpow_opp, bpow_1. destruct s; lra.
    - rewrite Rmult_assoc, <- bpow_add. replace (- e' + e') with 0 by lia.
      rewrite bpow_0. unfold Z.sub. rewrite bpow_add, bpow_opp, bpow_1. lra. }
  unfold Py.truediv_int. destruct a as [|p|p].
  - intros H. apply Ok_eq in H. subst f. unfold F2R.
    change (Prim2SF (if 2 <? 0 then neg_zero else zero)) with (S754_zero false).
    simpl. lra.
  - apply (P false p Ha).
  - intros H. apply (P true p) in H; [|lia]. exact H.
Qed.

(** ** The text of the ebook cover *)

Lemma ebook_title_lines_returns textsize (width font : Z) (lines : list string) (y : Z) :
  (forall text size, Z.abs (width - fst (textsize text size)) <= 2 ^ 53) ->
  exists calls, ebook_title_lines textsize width font lines y = Ok calls.
Proof.
  intros Hw. revert y. induction lines as [|line rest IH]; intros y; simpl.
  - eexists. reflexivity.
  - generalize (Hw line font). destruct (textsize line font) as [w h]. simpl. intros Hwl.
    destruct (truediv_int_2_returns _ Hwl) as [x ->].
    destruct (IH (y + (h + 10))) as [calls ->].
    eexists. reflexivity.
Qed.

Lemma ebook_title_lines_calls textsize (width font : Z) (lines : list string)
    (y : Z) (calls : list TextCall) :
  ebook_title_lines textsize width font lines y = Ok calls ->
  map tc_text calls = lines
  /\ (forall c, In c calls ->
        tc_font_size c = font
        /\ Py.truediv_int (width - fst (textsize (tc_text c) font)) 2 = Ok (tc_x c))
  /\ (forall c, nth_error calls 0 = Some c -> tc_y c = y)
  /\ (forall i c1 c2,
        nth_error calls i = Some c1 -> nth_error calls (S i) = Some c2 ->
        tc_y c2 = tc_y c1 + (snd (textsize (tc_text c1) font) + 10)).
Proof.
  revert y calls. induction lines as [|line rest IH]; intros y calls H; simpl in H.
  - apply Ok_eq in H. subst calls. split; [reflexivity|]. split; [intros c []|].
    split; [discriminate|]. intros [|i]; discriminate.
  - destruct (textsize line font) as [w h] eqn:E.
    inv_bind H. inv_bind H. apply Ok_eq in H. subst calls.
    destruct (IH _ _ Hv0) as (T & F & Y & S). split; [|split; [|split]].
    + simpl. rewrite T. reflexivity.
    + intros c [<-|Hc]; [|auto]. cbn [tc_font_size tc_text tc_x].
      rewrite E. split; [reflexivity | assumption].
    + intros c Hc. apply (f_equal (fun o => match o with Some c => tc_y c | None => y end)) in Hc.
      simpl in Hc. congruence.
    + intros [|i] c1 c2 H1 H2.
      * simpl in H1, H2. injection H1 as <-. apply Y in H2. cbn [tc_y tc_text].
        rewrite E. exact H2.
      * simpl in H1, H2. eauto.
Qed.

(** X14: With a height and horizontal margins of at most 53 bits, the text of
    the ebook cover is placed without an exception: one text per line of the
    stripped title, then the author line, and every one of them is centred
    exactly, its x coordinate being half of what the width leaves free, with
    no rounding. *)
Theorem ebook_cover_text_placed textsize (width height : Z) (title author : string) :
  Z.abs height <= 2 ^ 53 ->
  (forall text size, Z.abs (width - fst (textsize text size)) <= 2 ^ 53) ->
  exists calls,
    ebook_cover_text textsize width height title author = Ok calls
    /\ map tc_text calls = Py.split "010" (Py.strip title) ++ [("By " ++ author)%string]
    /\ forall c, In c calls ->
         (F2R (tc_x c) * 2
          = IZR (width - fst (textsize (tc_text c) (tc_font_size c))))%R.
Proof.
  intros Hh Hw. unfold ebook_cover_text.
  destruct (scaled_returns height 0.08 Hh eq_refl) as [t ->]. unfold bind at 1.
  destruct (scaled_returns height 0.04 Hh eq_refl) as [a ->]. unfold bind at 1.
  destruct (scaled_returns height 0.30 Hh eq_refl) as [y ->]. unfold bind at 1.
  destruct (ebook_title_lines_returns textsize width (Z.max 28 t)
              (Py.split "010" (Py.strip title)) y Hw) as [calls Hc].
  rewrite Hc. unfold bind at 1.
  generalize (Hw ("By " ++ author)%string (Z.max 18 a)).
  destruct (textsize ("By " ++ author)%string (Z.max 18 a)) as [w h] eqn:E.
  simpl fst. intros Hwa.
  destruct (truediv_int_2_returns _ Hwa) as [ax Hax]. rewrite Hax. unfold bind at 1.
  destruct (scaled_returns height 0.12 Hh eq_refl) as [low ->]. unfold bind.
  eexists. split; [reflexivity|].
  destruct (ebook_title_lines_calls _ _ _ _ _ _ Hc) as (T & F & _).
  split.
  - rewrite map_app, T. reflexivity.
  - intros c Hin. apply in_app_or in Hin. destruct Hin as [Hin|[<-|[]]].
    + destruct (F c Hin) as [-> Hx]. apply truediv_int_2_exact; auto.
    + cbn [tc_x tc_text tc_font_size]. rewrite E. apply truediv_int_2_exact; auto.
Qed.

Lemma ebook_cover_text_placed_witness :
  Z.abs 1600 <= 2 ^ 53
  /\ (forall text size, Z.abs (1124 - fst (no_extent text size)) <= 2 ^ 53)
  /\ exists calls,
       ebook_cover_text no_extent 1124 1600 two_line_title "A. Writer" = Ok calls
       /\ map tc_text calls
          = Py.split "010" (Py.strip two_line_title) ++ ["By A. Writer"%string]
       /\ forall c, In c calls ->
            (F2R (tc_x c) * 2
             = IZR (1124 - fst (no_extent (tc_text c) (tc_font_size c))))%R.
Proof.
  split; [vm_compute; discriminate|].
  split; [intros text size; vm_compute; discriminate|].
  apply (ebook_cover_text_placed no_extent 1124 1600 two_line_title "A. Writer");
    [vm_compute; discriminate | intros text size; vm_compute; discriminate].
Defined.

(** X15: Each line of the title of the ebook cover starts 10 pixels below the
    end of the line before it, as the text metrics measure that line, and in
    the same font size. *)
Theorem ebook_title_stacked textsize (width height : Z) (title author : string)
    (calls : list TextCall) (i : nat) (c1 c2 : TextCall) :
  ebook_cover_text textsize width height title author = Ok calls ->
  nth_error calls i = Some c1 -> nth_error calls (S i) = Some c2 ->
  (S (S i) < List.length calls)%nat ->
  tc_y c2 = tc_y c1 + (snd (textsize (tc_text c1) (tc_font_size c1)) + 10)
  /\ tc_font_size c2 = tc_font_size c1.
Proof.
  unfold ebook_cover_text. intros H H1 H2 Hi.
  inv_bind H. inv_bind H. inv_bind H. inv_bind H.
  destruct (textsize ("By " ++ author)%string _) as [w h].
  inv_bind H. inv_bind H. apply Ok_eq in H. subst calls.
  rewrite length_app in Hi. simpl in Hi.
  rewrite nth_error_app1 in H1, H2 by lia.
  destruct (ebook_title_lines_calls _ _ _ _ _ _ Hv2) as (_ & F & _ & S).
  destruct (F c1 (nth_error_In _ _ H1)) as [F1 _].
  destruct (F c2 (nth_error_In _ _ H2)) as [F2 _].
  rewrite F1, F2. split; [eauto | reflexivity].
Qed.

Lemma ebook_title_stacked_witness :
  exists calls c1 c2,
    ebook_cover_text mono_extent 1124 1600 two_line_title "A. Writer" = Ok calls
    /\ nth_error calls 0 = Some c1 /\ nth_error calls 1 = Some c2
    /\ (2 < List.length calls)%nat
    /\ tc_y c2 = tc_y c1 + (snd (mono_extent (tc_text c1) (tc_font_size c1)) + 10)
    /\ tc_font_size c2 = tc_font_size c1.
Proof.
  eexists. eexists. eexists.
  split; [vm_compute; reflexivity|].
  split; [reflexivity|]. split; [reflexivity|].
  split; [simpl; lia|].
  eapply (ebook_title_stacked mono_extent 1124 1600 two_line_title "A. Writer" _ 0%nat);
    [vm_compute; reflexivity | reflexivity | reflexivity | simpl; lia].
Defined.

(** X16: With a height of at most 53 bits that is not negative, the first line
    of the title and the author line of the ebook cover start between the
    top and the bottom of the cover, the title font has between 28 pixels
    and the height (or 28), the author font between 18 pixels and the height
    (or 18). *)
Theorem ebook_cover_text_inside textsize (width height : Z) (title author : string)
    (calls : list TextCall) :
  0 <= height <= 2 ^ 53 ->
  ebook_cover_text textsize width height title author = Ok calls ->
  exists c a,
    nth_error calls 0 = Some c
    /\ nth_error calls (List.length calls - 1) = Some a
    /\ 0 <= tc_y c <= height
    /\ 0 <= tc_y a <= height
    /\ 28 <= tc_font_size c <= Z.max 28 height
    /\ 18 <= tc_font_size a <= Z.max 18 height.
Proof.
  unfold ebook_cover_text. intros Hh H.
  inv_bind H. inv_bind H. inv_bind H. inv_bind H.
  destruct (textsize ("By " ++ author)%string _) as [w h].
  inv_bind H. inv_bind H. apply Ok_eq in H. subst calls.
  apply scaled_bounds in Hv, Hv0, Hv1, Hv4; try reflexivity; try assumption.
  destruct (ebook_title_lines_calls _ _ _ _ _ _ Hv2) as (T & F & Y & _).
  destruct v2 as [|c v2].
  { exfalso. apply (split_not_nil "010" (Py.strip title)). rewrite <- T. reflexivity. }
  exists c. eexists. split; [reflexivity|]. split.
  - rewrite length_app. simpl List.length.
    replace (S (List.length v2) + 1 - 1)%nat with (List.length (c :: v2)) by (simpl; lia).
    rewrite nth_error_app2, Nat.sub_diag by lia. reflexivity.
  - cbn [tc_y tc_font_size]. rewrite (Y c eq_refl).
    destruct (F c (or_introl eq_refl)) as [-> _]. lia.
Qed.

Lemma ebook_cover_text_inside_witness :
  0 <= 1600 <= 2 ^ 53
  /\ exists calls,
       ebook_cover_text mono_extent 1124 1600 two_line_title "A. Writer" = Ok calls
       /\ exists c a,
            nth_error calls 0 = Some c
            /\ nth_error calls (List.length calls - 1) = Some a
            /\ 0 <= tc_y c <= 1600
            /\ 0 <= tc_y a <= 1600
            /\ 28 <= tc_font_size c <= Z.max 28 1600
            /\ 18 <= tc_font_size a <= Z.max 18 1600.
Proof.
  split; [split; vm_compute; discriminate|].
  eexists. split; [vm_compute; reflexivity|].
  eapply (ebook_cover_text_inside mono_extent 1124 1600 two_line_title "A. Writer");
    [split; vm_compute; discriminate | vm_compute; reflexivity].
Defined.

(** ** The text of the spine *)



(** ** Adding two floats whose sum is a float *)

Lemma Zdigits2_shift (p d : positive) :
  Zdigits2 (Zpos (Pos.iter xO p d)) = Zpos (digits2_pos p) + Zpos d.
Proof.
  apply Zdigits2_unique; [|lia]. rewrite Pos_iter_xO, mult_IZR, bpow_IZR by lia.
  generalize (Zdigits2_bounds (Zpos p) ltac:(lia)). simpl Zdigits2. intros [B1 B2].
  replace (Zpos (digits2_pos p) + Zpos d - 1) with ((Zpos (digits2_pos p) - 1) + Zpos d) by lia.
  rewrite !bpow_add. generalize (bpow_gt_0 (Zpos d)). nra.
Qed.

Lemma binary_round_exact (s : bool) (p : positive) (e : Z) (m0 : positive) (e0 : Z) :
  SpecFloat.bounded prec emax m0 e0 = true ->
  (IZR (Zpos p) * bpow e)%R = (IZR (Zpos m0) * bpow e0)%R ->
  binary_round prec emax s p e = S754_finite s m0 e0.
Proof.
  intros B V. unfold binary_round, shl_align.
  set (F := fexp64 (Zpos (digits2_pos p) + e)).
  destruct (F - e) as [|d|d] eqn:E.
  - apply (binary_round_aux_exact s (Zpos p) e loc_Exact (IZR (Zpos p)));
      auto; [lia | reflexivity | simpl Zdigits2; fold F; lia].
  - apply (binary_round_aux_exact s (Zpos p) e loc_Exact (IZR (Zpos p)));
      auto; [lia | reflexivity | simpl Zdigits2; fold F; lia].
  - apply (binary_round_aux_exact s (Zpos (Pos.iter xO p d)) F loc_Exact
             (IZR (Zpos (Pos.iter xO p d)))); auto; [lia | reflexivity | |].
    + rewrite Zdigits2_shift.
      replace (Zpos (digits2_pos p) + Zpos d + F) with (Zpos (digits2_pos p) + e) by lia.
      fold F. lia.
    + rewrite <- V, Pos_iter_xO, mult_IZR, bpow_IZR, Rmult_assoc, <- bpow_add by lia.
      replace (Zpos d + F) with e by lia. reflexivity.
Qed.

Lemma shl_align_fst (m : positive) (e e' : Z) :
  e' <= e -> Zpos (fst (shl_align m e e')) = Zpos m * 2 ^ (e - e').
Proof.
  intros H. unfold shl_align. destruct (e' - e) as [|d|d] eqn:E; cbn [fst]; try lia.
  - replace (e - e') with 0 by lia. lia.
  - rewrite Pos_iter_xO. f_equal. f_equal. lia.
Qed.

(** A positive integer of at most 53 bits, halved, is a float. *)
Lemma half_representable (p : positive) :
  Zpos p <= 2 ^ 53 ->
  exists m e, SpecFloat.bounded prec emax m e = true
              /\ (IZR (Zpos m) * bpow e * 2 = IZR (Zpos p))%R.
Proof.
  intros Hp.
  destruct (float_of_int_exact (Zpos p) Hp) as (f0 & Hf0 & V0).
  assert (B0 := Prim2SF_valid f0). unfold F2R in V0.
  assert (Pp : (0 < IZR (Zpos p))%R) by (apply IZR_lt; lia).
  destruct (float_of_int_Ok (Zpos p) f0 Hf0) as (_ & _ & N0).
  specialize (N0 ltac:(lia)).
  destruct (Prim2SF f0) as [s0|s0| |s0 m e]; cbn [SF2R sf_nonneg valid_binary] in *;
    try lra.
  subst s0. exists m, (e - 1). split; [exact (bounded_half m e p B0 V0)|].
  unfold Z.sub. rewrite bpow_add, bpow_opp, bpow_1. lra.
Qed.

Lemma IZR_cond_Zopp (s : bool) (z : Z) :
  IZR (cond_Zopp s z) = if s then (- IZR z)%R else IZR z.
Proof. destruct s; simpl; [apply opp_IZR | reflexivity]. Qed.

Lemma SF2R_finite (s : bool) (m : positive) (e e' : Z) :
  e' <= e ->
  SF2R (S754_finite s m e)
  = (IZR (cond_Zopp s (Zpos (fst (shl_align m e e')))) * bpow e')%R.
Proof.
  intros H. rewrite IZR_cond_Zopp, shl_align_fst, mult_IZR, bpow_IZR by lia.
  cbn [SF2R].
  assert (E : (bpow (e - e') * bpow e' = bpow e)%R).
  { rewrite <- bpow_add. f_equal. lia. }
  destruct s; rewrite <- E; ring.
Qed.

(** When twice the sum of two floats is an integer of at most 53 bits, the
    sum is computed exactly. *)
Lemma SF64add_exact (x y : spec_float) (n : Z) :
  sf_finite x = true -> sf_finite y = true ->
  ((SF2R x + SF2R y) * 2 = IZR n)%R -> Z.abs n <= 2 ^ 53 ->
  sf_finite (SF64add x y) = true
  /\ SF2R (SF64add x y) = (SF2R x + SF2R y)%R.
Proof.
  intros Fx Fy V Hn.
  destruct x as [sx|sx| |sx mx ex]; try discriminate;
    destruct y as [sy|sy| |sy my ey]; try discriminate.
  - destruct sx, sy; simpl; split; auto; lra.
  - simpl. split; [reflexivity | destruct sy; lra].
  - simpl. split; [reflexivity | destruct sx; lra].
  - unfold SF64add, SFadd.
    change (IntDef.Z.min ex ey) with (Z.min ex ey).
    set (ez := Z.min ex ey).
    rewrite (SF2R_finite sx mx ex ez), (SF2R_finite sy my ey ez) in * by (unfold ez; lia).
    set (a := cond_Zopp sx (Zpos (fst (shl_align mx ex ez)))) in *.
    set (b := cond_Zopp sy (Zpos (fst (shl_align my ey ez)))) in *.
    change (IntDef.Z.add a b) with (a + b).
    rewrite <- Rmult_plus_distr_r, <- plus_IZR in *.
    assert (G := bpow_gt_0 ez).
    destruct (a + b) as [|p|p] eqn:E; cbn [binary_normalize].
    + simpl. split; [reflexivity | lra].
    + assert (P : (0 < IZR (Zpos p))%R) by (apply IZR_lt; lia).
      assert (Pn : (0 < IZR n)%R) by (rewrite <- V; nra).
      apply lt_IZR in Pn. destruct n as [|pn|pn]; try lia.
      destruct (half_representable pn Hn) as (m & e & B & Vm).
      rewrite (binary_round_exact false p ez m e B) by lra.
      split; [reflexivity | cbn [SF2R]; lra].
    + assert (P : (IZR (Zneg p) < 0)%R) by (apply IZR_lt; lia).
      assert (Pn : (IZR n < 0)%R) by (rewrite <- V; nra).
      apply lt_IZR in Pn. destruct n as [|pn|pn]; try lia.
      destruct (half_representable pn) as (m & e & B & Vm); [lia|].
      change (IZR (Zneg pn)) with (- IZR (Zpos pn))%R in V.
      change (IZR (Zneg p)) with (- IZR (Zpos p))%R in V |- *.
      rewrite (binary_round_exact true p ez m e B) by lra.
      split; [reflexivity | cbn [SF2R]; lra].
Qed.

(** ** The texts of the front cover are centred exactly *)

Lemma truediv_int_2_finite (a : Z) (f : float) :
  Z.abs a <= 2 ^ 53 -> Py.truediv_int a 2 = Ok f -> isfinite f = true.
Proof.
  intros Ha H. destruct (Z.eq_dec a 0) as [->|Hne].
  - apply Ok_eq in H. subst f. reflexivity.
  - apply truediv_int_2_exact in H; [|assumption].
    assert (N : IZR a <> 0%R) by (apply not_0_IZR; assumption).
    unfold isfinite, F2R in *.
    destruct (Prim2SF f); simpl in *; try reflexivity; lra.
Qed.

Lemma centered_x_exact (l : Layout) (w : Z) (x : float) :
  Z.abs (front_cover_x l) <= 2 ^ 53 ->
  Z.abs (page_w_px l - w) <= 2 ^ 53 ->
  Z.abs (2 * front_cover_x l + (page_w_px l - w)) <= 2 ^ 53 ->
  centered_x l w = Ok x ->
  (F2R x * 2 = IZR (2 * front_cover_x l + (page_w_px l - w)))%R.
Proof.
  intros Hx Hw Hs H. unfold centered_x in H. inv_bind H. inv_bind H.
  apply Ok_eq in H. subst x.
  assert (Fh := truediv_int_2_finite _ _ Hw Hv).
  apply truediv_int_2_exact in Hv; [|assumption].
  destruct (float_of_int_exact _ Hx) as (fx & Hfx & Vx).
  rewrite Hfx in Hv0. apply Ok_eq in Hv0. subst v0.
  destruct (float_of_int_Ok _ _ Hfx) as (_ & Ff & _).
  unfold F2R, isfinite in *. rewrite add_spec.
  destruct (SF64add_exact (Prim2SF fx) (Prim2SF v)
              (2 * front_cover_x l + (page_w_px l - w)) Ff Fh) as [_ E];
    [|assumption|].
  - rewrite plus_IZR, mult_IZR. lra.
  - rewrite E, plus_IZR, mult_IZR. lra.
Qed.

Lemma draw_title_lines_x textsize (l : Layout) (font : Z)
    (lines : list string) (y : Z) (calls : list TextCall) :
  draw_title_lines textsize l font lines y = Ok calls ->
  forall c, In c calls ->
    centered_x l (fst (textsize (tc_text c) (tc_font_size c))) = Ok (tc_x c).
Proof.
  revert y calls. induction lines as [|line rest IH]; intros y calls H; simpl in H.
  - apply Ok_eq in H. subst calls. intros c [].
  - destruct (textsize line font) as [w h] eqn:E.
    inv_bind H. inv_bind H. apply Ok_eq in H. subst calls.
    intros c [<-|Hc]; [|eauto]. cbn [tc_text tc_font_size tc_x]. rewrite E. assumption.
Qed.

(** X18: Every text of the front cover is centred exactly on the front panel:
    with offsets and margins of at most 53 bits, its x coordinate is the
    offset of the panel plus half of what the page width leaves free, with
    no rounding in the division or in the addition. *)
Theorem front_cover_text_centred textsize (l : Layout) (title author : string)
    (calls : list TextCall) :
  Z.abs (front_cover_x l) <= 2 ^ 53 ->
  (forall text size,
     Z.abs (page_w_px l - fst (textsize text size)) <= 2 ^ 53
     /\ Z.abs (2 * front_cover_x l + (page_w_px l - fst (textsize text size))) <= 2 ^ 53) ->
  front_cover_text textsize l title author = Ok calls ->
  forall c, In c calls ->
    (F2R (tc_x c) * 2
     = IZR (2 * front_cover_x l
            + (page_w_px l - fst (textsize (tc_text c) (tc_font_size c)))))%R.
Proof.
  unfold front_cover_text. intros Hx Hw H.
  inv_bind H. inv_bind H. inv_bind H. inv_bind H.
  destruct (textsize ("By " ++ author)%string _) as [w h] eqn:E.
  inv_bind H. inv_bind H. apply Ok_eq in H. subst calls.
  intros c Hin. apply in_app_or in Hin. destruct Hin as [Hin|[<-|[]]].
  - destruct (Hw (tc_text c) (tc_font_size c)) as [H1 H2].
    apply centered_x_exact; auto. exact (draw_title_lines_x _ _ _ _ _ _ Hv2 c Hin).
  - cbn [tc_x tc_text tc_font_size].
    destruct (Hw ("By " ++ author)%string (Z.max 10 v0)) as [H1 H2].
    rewrite E in *. apply centered_x_exact; auto.
Qed.

Lemma front_cover_text_centred_witness :
  Z.abs (front_cover_x default_layout) <= 2 ^ 53
  /\ (forall text size,
        Z.abs (page_w_px default_layout - fst (no_extent text size)) <= 2 ^ 53
        /\ Z.abs (2 * front_cover_x default_layout
                  + (page_w_px default_layout - fst (no_extent text size))) <= 2 ^ 53)
  /\ front_cover_text no_extent default_layout "" "" = Ok empty_cover_calls
  /\ forall c, In c empty_cover_calls ->
       (F2R (tc_x c) * 2
        = IZR (2 * front_cover_x default_layout
               + (page_w_px default_layout
                  - fst (no_extent (tc_text c) (tc_font_size c)))))%R.
Proof.
  split; [vm_compute; discriminate|].
  split; [intros text size; split; vm_compute; discriminate|].
  split; [vm_compute; reflexivity|].
  apply (front_cover_text_centred no_extent default_layout "" "");
    [vm_compute; discriminate
    | intros text size; split; vm_compute; discriminate
    | vm_compute; reflexivity].
Defined.

(** * How far the canvas is from the sum of its parts *)

(** ** The error of one rounding *)

Lemma rounds_to_near (v r : R) : (0 <= v)%R -> rounds_to v r -> near v r.
Proof.
  intros Hv (E & n & (K & HE & Hlt & Hor) & [[L U] _] & ->). unfold near.
  assert (G := bpow_gt_0 E).
  assert (V : (v * bpow (- E) * bpow E = v)%R).
  { rewrite Rmult_assoc, <- bpow_add. replace (- E + E) with 0 by lia.
    rewrite bpow_0. ring. }
  assert (B : (v - bpow E * / 2 <= IZR n * bpow E <= v + bpow E * / 2)%R).
  { rewrite <- V. set (t := (v * bpow (- E))%R) in *. split; nra. }
  assert (H : (bpow E * / 2 <= v * bpow (-53) + bpow (-1075))%R).
  { assert (G53 := bpow_gt_0 (-53)). assert (G1075 := bpow_gt_0 (-1075)).
    assert (M : E = emin64 -> (bpow E * / 2 <= v * bpow (-53) + bpow (-1075))%R).
    { intros ->. replace (bpow emin64 * / 2)%R with (bpow (-1075)); [nra|].
      rewrite <- bpow_m1, <- bpow_add. reflexivity. }
    rewrite fexp64_eq in HE.
    destruct Hor as [Hl|He]; [|auto].
    destruct (Z_le_gt_dec (K - 53) emin64) as [Le|Gt]; [apply M; lia|].
    replace E with (K - 1 + -53 + 1) by lia.
    rewrite bpow_succ, bpow_add. nra. }
  lra.
Qed.

Lemma near_0 : near 0 0.
Proof. unfold near. generalize (bpow_gt_0 (-1075)). lra. Qed.

Lemma near_refl (v : R) : (0 <= v)%R -> near v v.
Proof.
  unfold near. generalize (bpow_gt_0 (-1075)) (bpow_gt_0 (-53)). nra.
Qed.

Lemma approx_near (v : R) (x : spec_float) :
  (0 <= v)%R -> approx v x -> sf_finite x = true -> near v (SF2R x).
Proof. intros Hv A F. apply rounds_to_near; [assumption | apply approx_finite; assumption]. Qed.

Lemma SFmag_pos (m : positive) (e : Z) : (0 < IZR (Zpos m) * bpow e)%R.
Proof. apply Rmult_lt_0_compat; [apply IZR_lt; lia | apply bpow_gt_0]. Qed.

(** ** The error of one operation *)

Lemma SF64mul_near (x y : spec_float) :
  valid_binary x = true -> valid_binary y = true ->
  sf_nonneg x -> sf_nonneg y ->
  sf_finite (SF64mul x y) = true ->
  sf_finite x = true /\ sf_finite y = true
  /\ near (SF2R x * SF2R y) (SF2R (SF64mul x y)).
Proof.
  destruct x as [sx|sx| |sx mx ex], y as [sy|sy| |sy my ey];
    cbn [sf_nonneg valid_binary]; intros Vx Vy Nx Ny F; try discriminate F;
    (split; [reflexivity|]); (split; [reflexivity|]).
  - simpl. rewrite Rmult_0_l. apply near_0.
  - simpl. rewrite Rmult_0_l. apply near_0.
  - simpl. rewrite Rmult_0_r. apply near_0.
  - subst sx sy. apply approx_near; [| apply SF64mul_approx; assumption | assumption].
    cbn [SF2R]. generalize (SFmag_pos mx ex) (SFmag_pos my ey). nra.
Qed.

Lemma SF64div_near (x : spec_float) (mc : positive) (ec : Z) :
  sf_nonneg x ->
  sf_finite (SF64div x (S754_finite false mc ec)) = true ->
  sf_finite x = true
  /\ near (SF2R x / (IZR (Zpos mc) * bpow ec))
       (SF2R (SF64div x (S754_finite false mc ec))).
Proof.
  destruct x as [sx|sx| |sx mx ex]; cbn [sf_nonneg]; intros Nx F;
    try discriminate F; (split; [reflexivity|]).
  - simpl. unfold Rdiv. rewrite Rmult_0_l. apply near_0.
  - subst sx. apply approx_near; [| apply SF64div_approx | assumption].
    cbn [SF2R]. apply Rlt_le, Rdiv_lt_0_compat; apply SFmag_pos.
Qed.

Lemma binary_round_approx_e (p : positive) (e : Z) :
  approx (IZR (Zpos p) * bpow e) (binary_round prec emax false p e).
Proof.
  unfold binary_round, shl_align.
  set (F := fexp64 (Zpos (digits2_pos p) + e)).
  assert (P : forall q f, 0 < q -> f <= fexp64 (Zdigits2 q + f) ->
                          approx (IZR q * bpow f)
                            (binary_round_aux prec emax false q f loc_Exact)).
  { intros q f Hq Hf.
    destruct (binary_round_aux_spec false q f loc_Exact (IZR q))
      as (r & Hr & H); [lia | reflexivity | assumption |].
    exists r. split; [assumption|].
    destruct (binary_round_aux prec emax false q f loc_Exact); tauto. }
  destruct (F - e) as [|d|d] eqn:E.
  - apply P; [lia | simpl Zdigits2; fold F; lia].
  - apply P; [lia | simpl Zdigits2; fold F; lia].
  - replace (IZR (Zpos p) * bpow e)%R with (IZR (Zpos (Pos.iter xO p d)) * bpow F)%R.
    + apply P; [lia|]. rewrite Zdigits2_shift.
      replace (Zpos (digits2_pos p) + Zpos d + F) with (Zpos (digits2_pos p) + e) by lia.
      fold F. lia.
    + rewrite Pos_iter_xO, mult_IZR, bpow_IZR, Rmult_assoc, <- bpow_add by lia.
      replace (Zpos d + F) with e by lia. reflexivity.
Qed.

Lemma SF64add_near (x y : spec_float) :
  sf_nonneg x -> sf_nonneg y ->
  sf_finite (SF64add x y) = true ->
  sf_finite x = true /\ sf_finite y = true
  /\ near (SF2R x + SF2R y) (SF2R (SF64add x y)).
Proof.
  destruct x as [sx|sx| |sx mx ex], y as [sy|sy| |sy my ey];
    cbn [sf_nonneg]; intros Nx Ny F; subst; try discriminate F;
    try (destruct sx; discriminate F); try (destruct sy; discriminate F);
    (split; [reflexivity|]); (split; [reflexivity|]).
  - replace (SF2R (SF64add (S754_zero sx) (S754_zero sy))) with 0%R
      by (destruct sx, sy; reflexivity).
    simpl. rewrite Rplus_0_l. apply near_0.
  - simpl. rewrite Rplus_0_l. apply near_refl, Rlt_le, SFmag_pos.
  - simpl. rewrite Rplus_0_r. apply near_refl, Rlt_le, SFmag_pos.
  - revert F. unfold SF64add, SFadd.
    change (IntDef.Z.min ex ey) with (Z.min ex ey).
    set (ez := Z.min ex ey).
    rewrite (SF2R_finite false mx ex ez), (SF2R_finite false my ey ez) by (unfold ez; lia).
    cbn [cond_Zopp].
    destruct (shl_align mx ex ez) as [a ea], (shl_align my ey ez) as [b eb].
    cbn [fst]. change (IntDef.Z.add (Zpos a) (Zpos b)) with (Zpos (a + b)).
    cbn [binary_normalize]. intros F.
    rewrite <- Rmult_plus_distr_r, <- plus_IZR.
    change (Zpos a + Zpos b) with (Zpos (a + b)).
    apply approx_near; [| apply binary_round_approx_e | assumption].
    apply Rlt_le, SFmag_pos.
Qed.

(** ** The same on the floats of the program *)

Lemma mul_near (a b : float) :
  sf_nonneg (Prim2SF a) -> sf_nonneg (Prim2SF b) ->
  isfinite (a * b) = true ->
  isfinite a = true /\ isfinite b = true /\ near (F2R a * F2R b) (F2R (a * b)).
Proof.
  unfold isfinite, F2R. rewrite mul_spec. intros Na Nb F.
  apply SF64mul_near; auto using Prim2SF_valid.
Qed.

Lemma add_near (a b : float) :
  sf_nonneg (Prim2SF a) -> sf_nonneg (Prim2SF b) ->
  isfinite (a + b) = true ->
  isfinite a = true /\ isfinite b = true /\ near (F2R a + F2R b) (F2R (a + b)).
Proof.
  unfold isfinite, F2R. rewrite add_spec. intros Na Nb F.
  apply SF64add_near; assumption.
Qed.

Lemma div_25_4_near (a : float) :
  sf_nonneg (Prim2SF a) ->
  isfinite (a / 25.4) = true ->
  isfinite a = true /\ near (F2R a / F2R 25.4) (F2R (a / 25.4)).
Proof.
  unfold isfinite, F2R. rewrite div_spec, Prim2SF_25_4. intros Na F.
  apply SF64div_near; assumption.
Qed.

Lemma mul_nonneg (a b : float) :
  sf_nonneg (Prim2SF a) -> sf_nonneg (Prim2SF b) -> sf_nonneg (Prim2SF (a * b)).
Proof. rewrite mul_spec. apply SF64mul_nonneg. Qed.

Lemma add_nonneg (a b : float) :
  sf_nonneg (Prim2SF a) -> sf_nonneg (Prim2SF b) -> sf_nonneg (Prim2SF (a + b)).
Proof. rewrite add_spec. apply SF64add_nonneg. Qed.

Lemma div_25_4_nonneg (a : float) :
  sf_nonneg (Prim2SF a) -> sf_nonneg (Prim2SF (a / 25.4)).
Proof. rewrite div_spec, Prim2SF_25_4. apply SF64div_nonneg. Qed.

Lemma F2R_nonneg (a : float) : sf_nonneg (Prim2SF a) -> (0 <= F2R a)%R.
Proof. apply SF2R_nonneg. Qed.

Lemma F2R_lt_emax (a : float) : (F2R a < bpow 1024)%R.
Proof.
  unfold F2R. generalize (Prim2SF_valid a) (bpow_gt_0 1024).
  destruct (Prim2SF a) as [s|s| |s m e]; cbn [SF2R valid_binary]; intros V G; try lra.
  generalize (bounded_lt_emax m e V) (SFmag_pos m e). change emax with 1024.
  destruct s; lra.
Qed.

Lemma F2R_2 : F2R 2 = 2%R.
Proof.
  unfold F2R. change (Prim2SF 2) with (S754_finite false 4503599627370496 (-51)).
  cbn [SF2R]. change (-51) with (- (51)). rewrite bpow_opp, <- bpow_IZR by lia.
  change (2 ^ 51) with 2251799813685248. field.
Qed.

Lemma F2R_25_4 : (25 <= F2R 25.4 <= 26)%R.
Proof.
  unfold F2R. rewrite Prim2SF_25_4. cbn [SF2R].
  change (-48) with (- (48)). rewrite bpow_opp, <- bpow_IZR by lia.
  change (2 ^ 48) with 281474976710656.
  split.
  - apply Rmult_le_reg_r with 281474976710656%R; [lra|].
    rewrite Rmult_assoc, Rinv_l by lra. lra.
  - apply Rmult_le_reg_r with 281474976710656%R; [lra|].
    rewrite Rmult_assoc, Rinv_l by lra. lra.
Qed.

(** ** Powers of two as numbers *)

Lemma bpow_neg_lit (k : positive) : bpow (Zneg k) = (/ IZR (2 ^ Zpos k))%R.
Proof. change (Zneg k) with (- Zpos k). rewrite bpow_opp, bpow_IZR by lia. reflexivity. Qed.

Lemma bpow_m53 : bpow (-53) = (/ 9007199254740992)%R.
Proof. apply (bpow_neg_lit 53). Qed.

Lemma bpow_m51 : bpow (-51) = (/ 2251799813685248)%R.
Proof. apply (bpow_neg_lit 51). Qed.

Lemma bpow_m49 : bpow (-49) = (/ 562949953421312)%R.
Proof. apply (bpow_neg_lit 49). Qed.

Lemma eta_small : (0 < bpow (-1075) < / 2251799813685248)%R.
Proof.
  split; [apply bpow_gt_0|]. rewrite <- bpow_m51. apply bpow_lt. lia.
Qed.

Lemma eta_times (D : R) :
  (0 <= D < bpow 1024)%R -> (0 <= bpow (-1075) * D <= / 2251799813685248)%R.
Proof.
  intros [D0 D1]. assert (G := bpow_gt_0 (-1075)). split; [nra|].
  rewrite <- bpow_m51. replace (bpow (-51)) with (bpow (-1075) * bpow 1024)%R
    by (rewrite <- bpow_add; reflexivity).
  nra.
Qed.

(** ** The error of one conversion to pixels *)

Lemma px_error (a D q p : R) :
  (0 <= a)%R -> (0 <= D < bpow 1024)%R ->
  near a q -> near (q * D) p ->
  (a * D - (3 * bpow (-53) * (a * D) + bpow (-49)) <= p
   <= a * D + (3 * bpow (-53) * (a * D) + bpow (-49)))%R.
Proof.
  unfold near. intros Ha HD [Lq Uq] [Lp Up].
  assert (Z := eta_times D HD). assert (E := eta_small).
  rewrite bpow_m53, bpow_m49 in *.
  set (eta := bpow (-1075)) in *.
  assert (L : ((a - (a * / 9007199254740992 + eta)) * D <= q * D)%R)
    by (apply Rmult_le_compat_r; lra).
  assert (U : (q * D <= (a + (a * / 9007199254740992 + eta)) * D)%R)
    by (apply Rmult_le_compat_r; lra).
  rewrite Rmult_minus_distr_r, !Rmult_plus_distr_r in L.
  rewrite !Rmult_plus_distr_r in U.
  rewrite (Rmult_assoc a (/ 9007199254740992) D),
          (Rmult_comm (/ 9007199254740992) D),
          <- (Rmult_assoc a D (/ 9007199254740992)) in L, U.
  set (g := (a * D)%R) in *. set (z := (eta * D)%R) in *. set (w := (q * D)%R) in *.
  assert (G : (0 <= g)%R) by (apply Rmult_le_pos; lra).
  split; lra.
Qed.

Lemma mm_to_px_near (mm : float) (dpi n : Z) (d : float) :
  sf_nonneg (Prim2SF mm) -> 0 <= dpi ->
  Py.float_of_int dpi = Ok d -> mm_to_px mm dpi = Ok n ->
  isfinite mm = true
  /\ (F2R mm / F2R 25.4 * F2R d
      - (/ 2 + 3 * bpow (-53) * (F2R mm / F2R 25.4 * F2R d) + bpow (-49))
      <= IZR n
      <= F2R mm / F2R 25.4 * F2R d
         + (/ 2 + 3 * bpow (-53) * (F2R mm / F2R 25.4 * F2R d) + bpow (-49)))%R.
Proof.
  intros N Hdpi Hd H. unfold mm_to_px in H. rewrite Hd in H. unfold bind in H.
  apply round_Ok in H. destruct H as [F [[L U] _]].
  destruct (float_of_int_Ok dpi d Hd) as (_ & _ & Nd). specialize (Nd Hdpi).
  destruct (mul_near (mm / 25.4) d) as (Fq & _ & Np);
    auto using div_25_4_nonneg.
  destruct (div_25_4_near mm N Fq) as [Fm Nq].
  split; [assumption|].
  assert (C := F2R_25_4).
  assert (A : (0 <= F2R mm / F2R 25.4)%R).
  { apply Rmult_le_pos; [apply F2R_nonneg; assumption|].
    apply Rlt_le, Rinv_0_lt_compat. lra. }
  assert (D : (0 <= F2R d < bpow 1024)%R)
    by (split; [apply F2R_nonneg; assumption | apply F2R_lt_emax]).
  generalize (px_error _ _ _ _ A D Nq Np). lra.
Qed.

(** ** The full size in millimetres *)

Lemma full_w_mm_near (s : CoverSpec) (sp : float) :
  sf_nonneg (Prim2SF (width_mm s)) -> sf_nonneg (Prim2SF sp) ->
  sf_nonneg (Prim2SF (bleed_mm s)) ->
  isfinite (full_w_mm s sp) = true ->
  (2 * F2R (width_mm s) + F2R sp + 2 * F2R (bleed_mm s)
   - (4 * bpow (-53) * (2 * F2R (width_mm s) + F2R sp + 2 * F2R (bleed_mm s))
      + 5 * bpow (-1075))
   <= F2R (full_w_mm s sp)
   <= 2 * F2R (width_mm s) + F2R sp + 2 * F2R (bleed_mm s)
      + (4 * bpow (-53) * (2 * F2R (width_mm s) + F2R sp + 2 * F2R (bleed_mm s))
         + 5 * bpow (-1075)))%R.
Proof.
  intros Nw Ns Nb F. unfold full_w_mm in *.
  assert (N2 : sf_nonneg (Prim2SF 2)) by (apply Prim2SF_nonneg; reflexivity).
  destruct (add_near (width_mm s * 2 + sp) (2 * bleed_mm s)) as (F1 & F2 & [L4 U4]);
    auto using add_nonneg, mul_nonneg.
  destruct (add_near (width_mm s * 2) sp) as (F3 & _ & [L2 U2]);
    auto using mul_nonneg.
  destruct (mul_near (width_mm s) 2) as (_ & _ & [L1 U1]); auto.
  destruct (mul_near 2 (bleed_mm s)) as (_ & _ & [L3 U3]); auto.
  rewrite F2R_2 in *.
  assert (W := F2R_nonneg _ Nw). assert (S := F2R_nonneg _ Ns).
  assert (B := F2R_nonneg _ Nb). assert (E := eta_small).
  rewrite bpow_m53 in *.
  set (eta := bpow (-1075)) in *.
  set (a1 := F2R (width_mm s * 2)) in *. set (a3 := F2R (2 * bleed_mm s)) in *.
  set (a2 := F2R (width_mm s * 2 + sp)) in *.
  set (f := F2R (width_mm s * 2 + sp + 2 * bleed_mm s)) in *.
  set (w := F2R (width_mm s)) in *. set (b := F2R (bleed_mm s)) in *.
  set (x := F2R sp) in *.
  split; lra.
Qed.

Lemma full_h_mm_near (s : CoverSpec) :
  sf_nonneg (Prim2SF (height_mm s)) -> sf_nonneg (Prim2SF (bleed_mm s)) ->
  isfinite (full_h_mm s) = true ->
  (F2R (height_mm s) + 2 * F2R (bleed_mm s)
   - (4 * bpow (-53) * (F2R (height_mm s) + 2 * F2R (bleed_mm s))
      + 5 * bpow (-1075))
   <= F2R (full_h_mm s)
   <= F2R (height_mm s) + 2 * F2R (bleed_mm s)
      + (4 * bpow (-53) * (F2R (height_mm s) + 2 * F2R (bleed_mm s))
         + 5 * bpow (-1075)))%R.
Proof.
  intros Nh Nb F. unfold full_h_mm in *.
  assert (N2 : sf_nonneg (Prim2SF 2)) by (apply Prim2SF_nonneg; reflexivity).
  destruct (add_near (height_mm s) (2 * bleed_mm s)) as (_ & F2 & [L2 U2]);
    auto using mul_nonneg.
  destruct (mul_near 2 (bleed_mm s)) as (_ & _ & [L1 U1]); auto.
  rewrite F2R_2 in *.
  assert (H := F2R_nonneg _ Nh). assert (B := F2R_nonneg _ Nb).
  assert (E := eta_small).
  rewrite bpow_m53 in *.
  set (eta := bpow (-1075)) in *.
  set (a1 := F2R (2 * bleed_mm s)) in *.
  set (f := F2R (height_mm s + 2 * bleed_mm s)) in *.
  set (h := F2R (height_mm s)) in *. set (b := F2R (bleed_mm s)) in *.
  split; lra.
Qed.

(** ** The sum of the roundings *)

Lemma drift_real (T F K : R) (nF : Z) :
  (0 <= T)%R -> (0 <= K)%R ->
  (0 <= bpow (-1075) * K <= / 2251799813685248)%R ->
  (T - (4 * bpow (-53) * T + 5 * bpow (-1075)) <= F
   <= T + (4 * bpow (-53) * T + 5 * bpow (-1075)))%R ->
  (F * K - (/ 2 + 3 * bpow (-53) * (F * K) + bpow (-49)) <= IZR nF
   <= F * K + (/ 2 + 3 * bpow (-53) * (F * K) + bpow (-49)))%R ->
  (IZR nF <= 1099511627776)%R ->
  (T * K <= 4398046511106)%R
  /\ (T * K - (/ 2 + / 64) <= IZR nF <= T * K + (/ 2 + / 64))%R.
Proof.
  intros HT HK HZ [LF UF] [Ln Un] Hn.
  rewrite bpow_m53, bpow_m49 in *.
  set (eta := bpow (-1075)) in *.
  assert (L : ((T - (4 * / 9007199254740992 * T + 5 * eta)) * K <= F * K)%R)
    by (apply Rmult_le_compat_r; lra).
  assert (U : (F * K <= (T + (4 * / 9007199254740992 * T + 5 * eta)) * K)%R)
    by (apply Rmult_le_compat_r; lra).
  replace ((T - (4 * / 9007199254740992 * T + 5 * eta)) * K)%R
    with (T * K - (4 * / 9007199254740992 * (T * K) + 5 * (eta * K)))%R in L by ring.
  replace ((T + (4 * / 9007199254740992 * T + 5 * eta)) * K)%R
    with (T * K + (4 * / 9007199254740992 * (T * K) + 5 * (eta * K)))%R in U by ring.
  set (g := (T * K)%R) in *. set (z := (eta * K)%R) in *. set (f := (F * K)%R) in *.
  assert (G : (0 <= g)%R) by (apply Rmult_le_pos; assumption).
  assert (B : (g <= 4398046511106)%R) by lra.
  split; [assumption|]. split; lra.
Qed.

(** ** The canvas against the panels *)

Lemma mm_to_px_scaled (mm : float) (dpi n : Z) (d : float) :
  sf_nonneg (Prim2SF mm) -> 0 <= dpi ->
  Py.float_of_int dpi = Ok d -> mm_to_px mm dpi = Ok n ->
  isfinite mm = true
  /\ (F2R mm * (/ F2R 25.4 * F2R d)
      - (/ 2 + 3 * bpow (-53) * (F2R mm * (/ F2R 25.4 * F2R d)) + bpow (-49))
      <= IZR n
      <= F2R mm * (/ F2R 25.4 * F2R d)
         + (/ 2 + 3 * bpow (-53) * (F2R mm * (/ F2R 25.4 * F2R d)) + bpow (-49)))%R.
Proof.
  intros N Hdpi Hd H. destruct (mm_to_px_near mm dpi n d N Hdpi Hd H) as [F B].
  split; [assumption|]. unfold Rdiv in B. rewrite Rmult_assoc in B. exact B.
Qed.

(** X19: The canvas is never far from the sum of its parts: on a valid request
    whose canvas has at most 2^40 pixels each way, the canvas width differs
    by at most 3 pixels from twice the page width plus the spine width plus
    twice the bleed, and the canvas height by at most 2 pixels from the page
    height plus twice the bleed. *)
Theorem canvas_drift_bounded (image_new : Z -> Z -> result unit)
    (s : CoverSpec) (l : Layout) :
  valid_spec s ->
  layout image_new s = Ok l ->
  full_w_px l <= 2 ^ 40 -> full_h_px l <= 2 ^ 40 ->
  Z.abs (full_w_px l - (2 * page_w_px l + spine_px l + 2 * bleed_px l)) <= 3
  /\ Z.abs (full_h_px l - (page_h_px l + 2 * bleed_px l)) <= 2.
Proof.
  intros (Vd & Vp & Vw & Vh & Vb & Vt) H Bw Bh. apply layout_Ok in H.
  destruct H as (sp & Hsp & Hfw & Hfh & Hb & Hw & Hh & Hs & _).
  assert (Nw := Prim2SF_pos_nonneg _ Vw). assert (Nh := Prim2SF_pos_nonneg _ Vh).
  assert (Nb := Prim2SF_nonneg _ Vb). assert (Nt := Prim2SF_nonneg _ Vt).
  assert (Nsp : sf_nonneg (Prim2SF sp)).
  { unfold compute_spine_width_mm in Hsp. inv_bind Hsp. apply Ok_eq in Hsp. subst sp.
    apply float_of_int_Ok in Hv. destruct Hv as (_ & _ & Nv).
    apply mul_nonneg; auto. }
  assert (N2 : sf_nonneg (Prim2SF 2)) by (apply Prim2SF_nonneg; reflexivity).
  assert (Nfw : sf_nonneg (Prim2SF (full_w_mm s sp)))
    by (unfold full_w_mm; auto using add_nonneg, mul_nonneg).
  assert (Nfh : sf_nonneg (Prim2SF (full_h_mm s)))
    by (unfold full_h_mm; auto using add_nonneg, mul_nonneg).
  assert (D0 : 0 <= dpi s) by lia.
  destruct (Py.float_of_int (dpi s)) as [d|e] eqn:Hd;
    [|unfold mm_to_px in Hb; rewrite Hd in Hb; discriminate].
  destruct (float_of_int_Ok _ _ Hd) as (_ & _ & Nd). specialize (Nd D0).
  destruct (mm_to_px_scaled _ _ _ _ Nfw D0 Hd Hfw) as [Ffw Efw].
  destruct (mm_to_px_scaled _ _ _ _ Nfh D0 Hd Hfh) as [Ffh Efh].
  destruct (mm_to_px_scaled _ _ _ _ Nb D0 Hd Hb) as [_ Eb].
  destruct (mm_to_px_scaled _ _ _ _ Nw D0 Hd Hw) as [_ Ew].
  destruct (mm_to_px_scaled _ _ _ _ Nh D0 Hd Hh) as [_ Eh].
  destruct (mm_to_px_scaled _ _ _ _ Nsp D0 Hd Hs) as [_ Es].
  assert (Tw := full_w_mm_near s sp Nw Nsp Nb Ffw).
  assert (Th := full_h_mm_near s Nh Nb Ffh).
  assert (W := F2R_nonneg _ Nw). assert (Hh0 := F2R_nonneg _ Nh).
  assert (B := F2R_nonneg _ Nb). assert (S := F2R_nonneg _ Nsp).
  assert (Dd := F2R_nonneg _ Nd). assert (Dm := F2R_lt_emax d).
  assert (C := F2R_25_4).
  set (K := (/ F2R 25.4 * F2R d)%R) in *.
  assert (IC : (0 < / F2R 25.4 <= 1)%R).
  { split; [apply Rinv_0_lt_compat; lra|].
    rewrite <- Rinv_1. apply Rinv_le_contravar; lra. }
  assert (K0 : (0 <= K)%R) by (apply Rmult_le_pos; lra).
  assert (K1 : (K <= F2R d)%R) by (unfold K; nra).
  assert (Z : (0 <= bpow (-1075) * K <= / 2251799813685248)%R).
  { destruct (eta_times (F2R d)) as [Z0 Z1]; [lra|].
    assert (G := bpow_gt_0 (-1075)). split; [nra|].
    apply Rle_trans with (2 := Z1). apply Rmult_le_compat_l; lra. }
  apply IZR_le in Bw, Bh. change (IZR (2 ^ 40)) with 1099511627776%R in Bw, Bh.
  assert (Tw0 : (0 <= 2 * F2R (width_mm s) + F2R sp + 2 * F2R (bleed_mm s))%R) by lra.
  assert (Th0 : (0 <= F2R (height_mm s) + 2 * F2R (bleed_mm s))%R) by lra.
  destruct (drift_real _ _ K _ Tw0 K0 Z Tw Efw Bw) as [Gw Rw].
  destruct (drift_real _ _ K _ Th0 K0 Z Th Efh Bh) as [Gh Rh].
  rewrite bpow_m53, bpow_m49 in *.
  replace ((2 * F2R (width_mm s) + F2R sp + 2 * F2R (bleed_mm s)) * K)%R
    with (2 * (F2R (width_mm s) * K) + F2R sp * K + 2 * (F2R (bleed_mm s) * K))%R
    in * by ring.
  replace ((F2R (height_mm s) + 2 * F2R (bleed_mm s)) * K)%R
    with (F2R (height_mm s) * K + 2 * (F2R (bleed_mm s) * K))%R in * by ring.
  set (gw := (F2R (width_mm s) * K)%R) in *. set (gh := (F2R (height_mm s) * K)%R) in *.
  set (gb := (F2R (bleed_mm s) * K)%R) in *. set (gs := (F2R sp * K)%R) in *.
  assert (Gw0 : (0 <= gw)%R) by (apply Rmult_le_pos; assumption).
  assert (Gh0 : (0 <= gh)%R) by (apply Rmult_le_pos; assumption).
  assert (Gb0 : (0 <= gb)%R) by (apply Rmult_le_pos; assumption).
  assert (Gs0 : (0 <= gs)%R) by (apply Rmult_le_pos; assumption).
  split.
  - assert (R1 : (IZR (full_w_px l - (2 * page_w_px l + spine_px l + 2 * bleed_px l)) < IZR 4)%R).
    { rewrite minus_IZR, !plus_IZR, !mult_IZR. lra. }
    assert (R2 : (IZR (-4) < IZR (full_w_px l - (2 * page_w_px l + spine_px l + 2 * bleed_px l)))%R).
    { rewrite minus_IZR, !plus_IZR, !mult_IZR. lra. }
    apply lt_IZR in R1, R2. lia.
  - assert (R1 : (IZR (full_h_px l - (page_h_px l + 2 * bleed_px l)) < IZR 3)%R).
    { rewrite minus_IZR, !plus_IZR, !mult_IZR. lra. }
    assert (R2 : (IZR (-3) < IZR (full_h_px l - (page_h_px l + 2 * bleed_px l)))%R).
    { rewrite minus_IZR, !plus_IZR, !mult_IZR. lra. }
    apply lt_IZR in R1, R2. lia.
Qed.

Lemma canvas_drift_bounded_witness :
  valid_spec (default_spec 120)
  /\ layout roomy_image_new (default_spec 120) = Ok default_layout
  /\ full_w_px default_layout <= 2 ^ 40 /\ full_h_px default_layout <= 2 ^ 40
  /\ Z.abs (full_w_px default_layout
            - (2 * page_w_px default_layout + spine_px default_layout
               + 2 * bleed_px default_layout)) <= 3
  /\ Z.abs (full_h_px default_layout
            - (page_h_px default_layout + 2 * bleed_px default_layout)) <= 2.
Proof.
  split; [apply default_spec_valid; lia|].
  split; [vm_compute; reflexivity|].
  split; [vm_compute; discriminate|]. split; [vm_compute; discriminate|].
  apply (canvas_drift_bounded roomy_image_new (default_spec 120) default_layout);
    [apply default_spec_valid; lia | vm_compute; reflexivity
    | vm_compute; discriminate | vm_compute; discriminate].
Defined.

(** * Requests of ordinary size are laid out *)

(** ** Below a power of two, no overflow *)

Lemma rounds_to_bpow (k : Z) : 0 <= k <= 1023 -> rounds_to (bpow k) (bpow k).
Proof.
  intros Hk.
  assert (B : SpecFloat.bounded prec emax 4503599627370496 (k - 52) = true).
  { apply bounded_iff. change (Zpos (digits2_pos 4503599627370496)) with 53. lia. }
  generalize (rounds_to_valid _ _ B).
  replace (IZR (Zpos 4503599627370496) * bpow (k - 52))%R with (bpow k); [auto|].
  change (Zpos 4503599627370496) with (2 ^ 52). rewrite bpow_IZR, <- bpow_add by lia.
  f_equal. lia.
Qed.

Lemma approx_le_bpow (v : R) (x : spec_float) (k : Z) :
  approx v x -> (v <= bpow k)%R -> 0 <= k <= 1023 ->
  sf_finite x = true /\ (SF2R x <= bpow k)%R.
Proof.
  intros (r & Hr & H) Hv Hk.
  assert (L := rounds_to_mono _ _ _ _ Hv Hr (rounds_to_bpow k Hk)).
  assert (U : (bpow k < bpow emax)%R) by (apply bpow_lt; change emax with 1024; lia).
  assert (G := bpow_gt_0 k).
  destruct x as [s|s| |s m e]; cbn [SF2R sf_finite]; try contradiction.
  - split; [reflexivity | lra].
  - destruct H. lra.
  - destruct H as (-> & -> & _). split; [reflexivity | assumption].
Qed.

Lemma SF64add_approx (mx my : positive) (ex ey : Z) :
  approx (IZR (Zpos mx) * bpow ex + IZR (Zpos my) * bpow ey)
    (SF64add (S754_finite false mx ex) (S754_finite false my ey)).
Proof.
  unfold SF64add, SFadd.
  change (IntDef.Z.min ex ey) with (Z.min ex ey).
  set (ez := Z.min ex ey).
  generalize (SF2R_finite false mx ex ez ltac:(unfold ez; lia))
             (SF2R_finite false my ey ez ltac:(unfold ez; lia)).
  cbn [SF2R cond_Zopp]. intros -> ->.
  destruct (shl_align mx ex ez) as [a ea], (shl_align my ey ez) as [b eb].
  cbn [fst]. change (IntDef.Z.add (Zpos a) (Zpos b)) with (Zpos (a + b)).
  cbn [binary_normalize].
  rewrite <- Rmult_plus_distr_r, <- plus_IZR.
  change (Zpos a + Zpos b) with (Zpos (a + b)).
  apply binary_round_approx_e.
Qed.

Lemma mul_le_bpow (a b : float) (i j : Z) :
  sf_nonneg (Prim2SF a) -> sf_nonneg (Prim2SF b) ->
  isfinite a = true -> isfinite b = true ->
  (F2R a <= bpow i)%R -> (F2R b <= bpow j)%R ->
  0 <= i + j <= 1023 ->
  isfinite (a * b) = true /\ (F2R (a * b) <= bpow (i + j))%R.
Proof.
  unfold isfinite, F2R. rewrite mul_spec.
  generalize (Prim2SF_valid a) (Prim2SF_valid b) (bpow_gt_0 (i + j)).
  destruct (Prim2SF a) as [sa|sa| |sa ma ea], (Prim2SF b) as [sb|sb| |sb mb eb];
    cbn [sf_nonneg valid_binary]; intros Va Vb G Na Nb Fa Fb Ha Hb Hk;
    try discriminate; try (simpl; split; [reflexivity | lra]).
  subst sa sb. cbn [SF2R] in Ha, Hb.
  apply (approx_le_bpow _ _ _ (SF64mul_approx ma mb ea eb Va Vb)); [|assumption].
  rewrite bpow_add. generalize (SFmag_pos ma ea) (SFmag_pos mb eb). nra.
Qed.

Lemma add_le_bpow (a b : float) (i : Z) :
  sf_nonneg (Prim2SF a) -> sf_nonneg (Prim2SF b) ->
  isfinite a = true -> isfinite b = true ->
  (F2R a <= bpow i)%R -> (F2R b <= bpow i)%R ->
  0 <= i + 1 <= 1023 ->
  isfinite (a + b) = true /\ (F2R (a + b) <= bpow (i + 1))%R.
Proof.
  unfold isfinite, F2R. rewrite add_spec.
  assert (G := bpow_gt_0 i). assert (S := bpow_succ i).
  destruct (Prim2SF a) as [sa|sa| |sa ma ea], (Prim2SF b) as [sb|sb| |sb mb eb];
    cbn [sf_nonneg]; intros Na Nb Fa Fb Ha Hb Hk;
    try discriminate; try (simpl in *; split; [reflexivity | lra]).
  - replace (SF64add (S754_zero sa) (S754_zero sb))
      with (S754_zero (andb sa sb)) by (destruct sa, sb; reflexivity).
    simpl. split; [reflexivity | lra].
  - subst sa sb. cbn [SF2R] in Ha, Hb.
    apply (approx_le_bpow _ _ _ (SF64add_approx ma mb ea eb)); [lra | assumption].
Qed.

Lemma div_25_4_le_bpow (a : float) (i : Z) :
  sf_nonneg (Prim2SF a) -> isfinite a = true ->
  (F2R a <= bpow i)%R -> 0 <= i <= 1023 ->
  isfinite (a / 25.4) = true /\ (F2R (a / 25.4) <= bpow i)%R.
Proof.
  intros Na Fa Ha Hi. assert (C := F2R_25_4). revert Na Fa Ha C.
  unfold isfinite, F2R. rewrite div_spec, Prim2SF_25_4.
  assert (G := bpow_gt_0 i).
  destruct (Prim2SF a) as [sa|sa| |sa ma ea]; cbn [sf_nonneg]; intros Na Fa Ha C;
    try discriminate.
  - simpl. split; [reflexivity | lra].
  - subst sa. cbn [SF2R] in Ha, C.
    apply (approx_le_bpow _ _ _ (SF64div_approx ma 7149464408450662 ea (-48)));
      [|assumption].
    assert (P := SFmag_pos ma ea).
    apply Rmult_le_reg_r with (IZR (Zpos 7149464408450662) * bpow (-48))%R; [lra|].
    unfold Rdiv. rewrite Rmult_assoc, Rinv_l by lra. nra.
Qed.

Lemma mm_to_px_returns (mm : float) (dpi i : Z) :
  sf_nonneg (Prim2SF mm) -> isfinite mm = true ->
  (F2R mm <= bpow i)%R -> 0 <= i <= 970 -> 0 <= dpi <= 2 ^ 53 ->
  exists n, mm_to_px mm dpi = Ok n.
Proof.
  intros N F H Hi Hd. unfold mm_to_px.
  destruct (float_of_int_exact dpi) as (d & E & V); [lia|].
  rewrite E. unfold bind.
  destruct (float_of_int_Ok dpi d E) as (_ & Fd & Nd). specialize (Nd ltac:(lia)).
  destruct (div_25_4_le_bpow mm i N F H) as [Fq Hq]; [lia|].
  assert (Hv : (F2R d <= bpow 53)%R).
  { rewrite V, <- bpow_IZR by lia. apply IZR_le. lia. }
  destruct (mul_le_bpow (mm / 25.4) d i 53) as [Fp _];
    auto using div_25_4_nonneg; try lia.
  apply round_isfinite. assumption.
Qed.

(** ** Lengths of at most a thousand kilometres *)

Lemma F2R_thousand_km : F2R thousand_km = 1000000000%R.
Proof.
  unfold F2R.
  change (Prim2SF thousand_km) with (S754_finite false 8388608000000000 (-23)).
  cbn [SF2R]. change (-23) with (- (23)). rewrite bpow_opp, <- bpow_IZR by lia.
  change (2 ^ 23) with 8388608. field.
Qed.

Lemma leb_thousand_km (x : float) :
  sf_nonneg (Prim2SF x) -> (x <=? thousand_km)%float = true ->
  isfinite x = true /\ (F2R x <= bpow 30)%R.
Proof.
  intros N H. rewrite leb_spec in H.
  destruct (SFleb_nonneg _ _ (Prim2SF_valid x) (Prim2SF_valid thousand_km) N H) as [_ L].
  destruct (L eq_refl) as [F V]. split; [exact F|].
  fold (F2R x) (F2R thousand_km) in V. rewrite F2R_thousand_km in V.
  rewrite <- bpow_IZR by lia. change (2 ^ 30) with 1073741824. lra.
Qed.

Lemma F2R_2_bpow : (F2R 2 <= bpow 1)%R.
Proof. rewrite F2R_2, bpow_1. lra. Qed.

Lemma le_bpow_trans (x : R) (i j : Z) : (x <= bpow i)%R -> i <= j -> (x <= bpow j)%R.
Proof. intros H L. apply Rle_trans with (1 := H). apply bpow_le. assumption. Qed.

(** X20: On a valid request of ordinary size no number conversion raises:
    the size of the canvas is computed and is not negative, the layout is
    returned when the imaging library creates that canvas, and when the
    library refuses it the layout fails with the exception of the
    library. *)
Theorem layout_fails_only_in_image_new (image_new : Z -> Z -> result unit)
    (s : CoverSpec) :
  valid_spec s -> ordinary_spec s ->
  exists w h,
    0 <= w /\ 0 <= h
    /\ (image_new w h = Ok tt ->
        exists l, layout image_new s = Ok l /\ full_w_px l = w /\ full_h_px l = h)
    /\ (forall e, image_new w h = Raise e -> layout image_new s = Raise e).
Proof.
  intros (Vd & Vp & Vw & Vh & Vb & Vt) (Ow & Oh & Ob & Ot & Od & Op).
  assert (Nw := Prim2SF_pos_nonneg _ Vw). assert (Nh := Prim2SF_pos_nonneg _ Vh).
  assert (Nb := Prim2SF_nonneg _ Vb). assert (Nt := Prim2SF_nonneg _ Vt).
  assert (N2 : sf_nonneg (Prim2SF 2)) by (apply Prim2SF_nonneg; reflexivity).
  destruct (leb_thousand_km _ Nw Ow) as [Fw Bw].
  destruct (leb_thousand_km _ Nh Oh) as [Fh Bh].
  destruct (leb_thousand_km _ Nb Ob) as [Fb Bb].
  destruct (leb_thousand_km _ Nt Ot) as [Ft Bt].
  assert (F2 : isfinite 2 = true) by reflexivity.
  assert (B2 := F2R_2_bpow).
  (* the spine *)
  destruct (float_of_int_exact (page_count s)) as (p & Ep & Vp'); [lia|].
  destruct (float_of_int_Ok _ _ Ep) as (_ & Fp & Np). specialize (Np Vp).
  assert (Bp : (F2R p <= bpow 53)%R).
  { rewrite Vp', <- bpow_IZR by lia. apply IZR_le. assumption. }
  destruct (mul_le_bpow p (thickness_per_page_mm s) 53 30) as [Fsp Bsp];
    auto; try lia.
  assert (Nsp := mul_nonneg _ _ Np Nt).
  set (sp := (p * thickness_per_page_mm s)%float) in *.
  (* the full size *)
  destruct (mul_le_bpow (width_mm s) 2 30 1) as [Fw2 Bw2]; auto; try lia.
  destruct (mul_le_bpow 2 (bleed_mm s) 1 30) as [Fb2 Bb2]; auto; try lia.
  assert (Nw2 := mul_nonneg _ _ Nw N2). assert (Nb2 := mul_nonneg _ _ N2 Nb).
  destruct (add_le_bpow (width_mm s * 2) sp 83) as [Fa Ba]; auto; try lia;
    [eapply le_bpow_trans; [eassumption | lia] |].
  assert (Na := add_nonneg _ _ Nw2 Nsp).
  destruct (add_le_bpow (width_mm s * 2 + sp) (2 * bleed_mm s) 84) as [Ffw Bfw];
    auto; try lia; [eapply le_bpow_trans; [eassumption | lia] |].
  assert (Nfw := add_nonneg _ _ Na Nb2).
  destruct (add_le_bpow (height_mm s) (2 * bleed_mm s) 31) as [Ffh Bfh];
    auto; try lia; [eapply le_bpow_trans; [eassumption | lia] |].
  assert (Nfh := add_nonneg _ _ Nh Nb2).
  (* the conversions *)
  assert (D : 0 <= dpi s <= 2 ^ 53) by lia.
  destruct (mm_to_px_returns _ (dpi s) _ Nfw Ffw Bfw ltac:(lia) D) as [nfw Hfw].
  destruct (mm_to_px_returns _ (dpi s) _ Nfh Ffh Bfh ltac:(lia) D) as [nfh Hfh].
  destruct (mm_to_px_returns _ (dpi s) _ Nb Fb Bb ltac:(lia) D) as [nb Hb].
  destruct (mm_to_px_returns _ (dpi s) _ Nw Fw Bw ltac:(lia) D) as [nw Hw].
  destruct (mm_to_px_returns _ (dpi s) _ Nh Fh Bh ltac:(lia) D) as [nh Hh].
  destruct (mm_to_px_returns _ (dpi s) _ Nsp Fsp Bsp ltac:(lia) D) as [ns Hs].
  assert (Esp : compute_spine_width_mm (page_count s) (thickness_per_page_mm s)
                = Ok sp).
  { unfold compute_spine_width_mm. rewrite Ep. reflexivity. }
  exists nfw, nfh.
  split; [exact (mm_to_px_nonneg _ _ _ Nfw (proj1 D) Hfw)|].
  split; [exact (mm_to_px_nonneg _ _ _ Nfh (proj1 D) Hfh)|].
  split.
  - intros Hi. unfold layout. rewrite Esp. unfold bind at 1.
    unfold full_w_mm, full_h_mm. rewrite Hfw. unfold bind at 1.
    rewrite Hfh. unfold bind at 1. rewrite Hi. unfold bind at 1.
    rewrite Hb. unfold bind at 1 2. rewrite Hw. unfold bind at 1.
    rewrite Hh. unfold bind at 1. rewrite Hs. unfold bind.
    eexists. split; [reflexivity|]. split; reflexivity.
  - intros e He.
    exact (layout_image_new_raises image_new s sp nfw nfh e Esp Hfw Hfh He).
Qed.

Lemma layout_fails_only_in_image_new_witness :
  valid_spec (default_spec 120) /\ ordinary_spec (default_spec 120)
  /\ exists l, layout roomy_image_new (default_spec 120) = Ok l.
Proof.
  assert (O : ordinary_spec (default_spec 120)).
  { repeat split; try reflexivity; vm_compute; discriminate. }
  split; [apply default_spec_valid; lia|]. split; [exact O|].
  destruct (layout_fails_only_in_image_new roomy_image_new (default_spec 120))
    as (w & h & Hw & Hh & H & _); [apply default_spec_valid; lia | exact O |].
  destruct H as (l & Hl & _).
  - unfold roomy_image_new.
    destruct (Z.ltb_spec w 0); [lia|]. destruct (Z.ltb_spec h 0); [lia|]. reflexivity.
  - exists l. exact Hl.
Defined.

(** * The functions around the covers *)

(** ** Events are only added *)

Lemma dict_get_set (key : string) (value : json) (members : list (string * json)) :
  dict_get key (dict_set key value members) = Some value.
Proof.
  induction members as [|[k v] rest IH]; simpl.
  - rewrite String.eqb_refl. reflexivity.
  - destruct (String.eqb k key) eqn:E; simpl; rewrite E; auto.
Qed.

Lemma app_one_assoc {A : Type} (l1 l2 : list A) (a : A) :
  (l1 ++ l2) ++ [a] = l1 ++ (l2 ++ [a]).
Proof. symmetry. apply app_assoc. Qed.

(** ** The conversion of the manuscript *)

(** X21: The conversion raises its [ValueError] exactly when the lower-cased
    suffix of the manuscript is none of .md, .docx, .doc, .odt and .txt, and
    it has then made no call at all: nothing was read, written or started. *)
Theorem convert_unsupported_extension (lib : Library) (input_path out_md : Path)
    (log0 log : list Event) (ext : string) :
  convert_to_markdown_if_needed lib input_path out_md log0
  = (Failed (UnsupportedExtension ext), log)
  <-> ext = str_lower lib (path_suffix lib input_path)
      /\ ~ In ext [".md"; ".docx"; ".doc"; ".odt"; ".txt"]%string
      /\ log = log0.
Proof.
  unfold convert_to_markdown_if_needed.
  set (e := str_lower lib (path_suffix lib input_path)).
  assert (M : forall a b : string, String.eqb a b = true <-> b = a).
  { intros a b. rewrite String.eqb_eq. split; auto. }
  destruct (String.eqb e ".md") eqn:E1.
  { split.
    - unfold io_bind, read_bytes, write_bytes, answered.
      destruct (lib_read_bytes lib log0 input_path); [|discriminate].
      destruct (lib_write_bytes lib _ out_md a); discriminate.
    - intros (-> & N & _). exfalso. apply N. left. symmetry. apply String.eqb_eq. exact E1. }
  destruct (existsb (String.eqb e) _) eqn:E2.
  { split.
    - unfold io_bind, run_cmd, io_bind, subprocess_run, answered, io_raise, io_ret.
      destruct (lib_run lib log0 _ false) as [code|]; [|discriminate].
      destruct (true && negb (code =? 0)); discriminate.
    - intros (-> & N & _). exfalso. apply N. right.
      apply existsb_exists in E2. destruct E2 as (x & Hx & Ex).
      apply String.eqb_eq in Ex. subst x. exact Hx. }
  unfold io_raise. split.
  - intros H. injection H as <- <-. split; [reflexivity|]. split; [|reflexivity].
    intros [H|H].
    + rewrite <- H, String.eqb_refl in E1. discriminate.
    + assert (existsb (String.eqb e) [".docx"; ".doc"; ".odt"; ".txt"]%string = true);
        [|congruence].
      apply existsb_exists. exists e. split; [exact H | apply String.eqb_refl].
  - intros (-> & _ & ->). reflexivity.
Qed.

(** ** The merge of the parts *)

Ltac merge_events :=
  repeat split; auto;
  try (intros x []);
  try (intros x [<-|[]]; left; reflexivity);
  try (repeat constructor; assumption).

Lemma merge_parts_any (lib : Library) (parts : list (option Path)) (log0 : list Event) :
  exists body,
    snd (merge_parts lib parts log0) = log0 ++ body
    /\ written_paths body = [] /\ commands body = []
    /\ incl (map fst (texts_read body)) (found body)
    /\ Forall (fun ev => match ev with
                         | PathExists _ _ | ReadText _ _ | FileWrite _ _ => True
                         | _ => False
                         end) body.
Proof.
  unfold written_paths, commands, texts_read, found.
  revert log0. induction parts as [|[p|] rest IH]; intros log0.
  - exists []. cbn. rewrite app_nil_r. merge_events.
  - cbn [merge_parts]. unfold io_bind, path_exists, answered.
    destruct (lib_exists lib log0 p) as [[|]|e] eqn:E0.
    + unfold read_text, answered.
      destruct (lib_read_text lib _ p) as [t|e] eqn:E1;
        [|eexists; split; [cbn; rewrite <- !app_assoc; reflexivity|]; cbn; merge_events].
      unfold file_write at 1, answered.
      destruct (lib_file_write lib _ t) as [u|e] eqn:E2;
        [|eexists; split; [cbn; rewrite <- !app_assoc; reflexivity|]; cbn; merge_events].
      unfold file_write at 1, answered.
      destruct (lib_file_write lib _ PAGE_BREAK) as [u'|e] eqn:E3;
        [|eexists; split; [cbn; rewrite <- !app_assoc; reflexivity|]; cbn; merge_events].
      match goal with
      | |- context [merge_parts lib rest ?l] =>
          destruct (IH l) as (body & -> & W & C & R & F)
      end.
      eexists. split; [rewrite <- !app_assoc; reflexivity|].
      cbn. rewrite W, C. repeat split; auto.
      intros x [<-|Hx]; [left; reflexivity | right; apply R; assumption].
    + destruct (IH (log0 ++ [PathExists p (Returns false)]))
        as (body & -> & W & C & R & F).
      eexists. split; [rewrite <- !app_assoc; reflexivity|].
      cbn. rewrite W, C. repeat split; auto.
    + eexists. split; [cbn; reflexivity|]. cbn. merge_events.
  - cbn [merge_parts]. apply IH.
Qed.

Lemma merge_parts_done (lib : Library) (parts : list (option Path))
    (log0 log : list Event) :
  merge_parts lib parts log0 = (Done tt, log) ->
  exists body,
    log = log0 ++ body
    /\ checked body = given parts
    /\ map fst (texts_read body) = found body
    /\ file_writes body = flat_map (fun pt => [snd pt; PAGE_BREAK]) (texts_read body).
Proof.
  unfold checked, texts_read, found, file_writes, given.
  revert log0. induction parts as [|[p|] rest IH]; intros log0.
  - cbn. intros H. injection H as <-. exists []. rewrite app_nil_r. auto.
  - cbn [merge_parts]. unfold io_bind, path_exists, answered.
    destruct (lib_exists lib log0 p) as [[|]|e] eqn:E0; [| |discriminate].
    + unfold read_text, answered.
      destruct (lib_read_text lib _ p) as [t|e] eqn:E1; [|discriminate].
      unfold file_write at 1, answered.
      destruct (lib_file_write lib _ t) as [u|e] eqn:E2; [|discriminate].
      unfold file_write at 1, answered.
      destruct (lib_file_write lib _ PAGE_BREAK) as [u'|e] eqn:E3; [|discriminate].
      intros H. destruct (IH _ H) as (body & -> & C & R & W).
      eexists. split; [rewrite <- !app_assoc; reflexivity|].
      cbn. rewrite C, R, W. auto.
    + intros H. destruct (IH _ H) as (body & -> & C & R & W).
      eexists. split; [rewrite <- !app_assoc; reflexivity|].
      cbn. rewrite C, R, W. auto.
  - cbn [merge_parts given flat_map]. apply IH.
Qed.

Lemma flat_map_snoc {A B : Type} (f : A -> list B) (l : list A) (a : A) :
  flat_map f (l ++ [a]) = flat_map f l ++ f a.
Proof. rewrite flat_map_app. simpl. rewrite app_nil_r. reflexivity. Qed.

(** X22: When the merge returns, it has opened the output file, asked for every
    part that is not [None] whether it exists, in the order of the list, read
    exactly the parts found, and written to the file the text of each one
    followed by the page break, the last one too; then it has closed the
    file. *)
Theorem merge_markdown_written (lib : Library) (parts : list (option Path))
    (out_md : Path) (log0 log : list Event) :
  merge_markdown lib parts out_md log0 = (Done tt, log) ->
  exists body,
    log = log0 ++ OpenW out_md (Returns tt) :: body ++ [FileClose (Returns tt)]
    /\ checked body = given parts
    /\ map fst (texts_read body) = found body
    /\ file_writes body = flat_map (fun pt => [snd pt; PAGE_BREAK]) (texts_read body).
Proof.
  unfold merge_markdown, with_open_w, open_w, answered.
  destruct (lib_open_w lib log0 out_md) as [[]|e]; [|discriminate].
  destruct (merge_parts lib parts (log0 ++ [OpenW out_md (Returns tt)]))
    as [res log2] eqn:E.
  unfold file_close, answered.
  destruct (lib_file_close lib log2) as [[]|e]; [|discriminate].
  intros H. injection H as -> <-.
  destruct (merge_parts_done _ _ _ _ E) as (body & -> & P).
  exists body. split; [|exact P].
  rewrite <- !app_assoc. reflexivity.
Qed.

Lemma merge_markdown_written_witness :
  exists log body,
    merge_markdown plain_library [Some "front.md"; None; Some "book.md"]%string
      "full_book.md"%string [] = (Done tt, log)
    /\ log = [] ++ OpenW "full_book.md"%string (Returns tt) :: body ++ [FileClose (Returns tt)]
    /\ checked body = given [Some "front.md"; None; Some "book.md"]%string.
Proof.
  assert (H : merge_markdown plain_library [Some "front.md"; None; Some "book.md"]%string
                "full_book.md"%string []
              = (Done tt, snd (merge_markdown plain_library
                                 [Some "front.md"; None; Some "book.md"]%string
                                 "full_book.md"%string [])))
    by (vm_compute; reflexivity).
  destruct (merge_markdown_written plain_library
              [Some "front.md"; None; Some "book.md"]%string "full_book.md"%string [] _ H)
    as (body & H1 & H2 & _).
  eexists. exists body. split; [exact H|]. split; assumption.
Defined.

(** X23: Whatever the library answers, the merge writes to no file but the
    output file and starts no command, it reads a part only after it was
    found to exist, and once the output file is open the last thing it does,
    by its end or by an exception, is to close it. *)
Theorem merge_markdown_touches_only_output (lib : Library)
    (parts : list (option Path)) (out_md : Path) (log0 : list Event) :
  exists evs,
    snd (merge_markdown lib parts out_md log0) = log0 ++ evs
    /\ written_paths evs = [out_md] /\ commands evs = []
    /\ incl (map fst (texts_read evs)) (found evs)
    /\ ((exists e, evs = [OpenW out_md (Raises e)])
        \/ (exists body r, evs = OpenW out_md (Returns tt) :: body ++ [FileClose r]
                           /\ Forall (fun ev => match ev with
                                                | PathExists _ _ | ReadText _ _
                                                | FileWrite _ _ => True
                                                | _ => False
                                                end) body)).
Proof.
  unfold merge_markdown, with_open_w, open_w, answered.
  destruct (lib_open_w lib log0 out_md) as [[]|e].
  - destruct (merge_parts_any lib parts (log0 ++ [OpenW out_md (Returns tt)]))
      as (body & E & W & C & R & F).
    destruct (merge_parts lib parts (log0 ++ [OpenW out_md (Returns tt)]))
      as [res log2]. cbn [snd] in E. subst log2.
    unfold file_close, answered.
    exists (OpenW out_md (Returns tt) :: body ++ [FileClose (lib_file_close lib
              ((log0 ++ [OpenW out_md (Returns tt)]) ++ body))]).
    split.
    { destruct (lib_file_close lib _); cbn [snd]; rewrite <- !app_assoc; reflexivity. }
    unfold written_paths, commands, texts_read, found in *.
    cbn [flat_map]. rewrite !flat_map_snoc, W, C.
    destruct (lib_file_close lib _) as [[]|e']; cbn [app];
      rewrite !app_nil_r; (split; [reflexivity|]); (split; [reflexivity|]);
      (split; [assumption|]); right; eexists; eexists; (split; [reflexivity | assumption]).
  - exists [OpenW out_md (Raises e)]. cbn. repeat split; auto.
    + intros x [].
    + left. exists e. reflexivity.
Qed.

(** ** The command line of pandoc *)

(** X24: Whatever the library answers, the EPUB generation writes no file
    itself and asks, in this order, whether the cover, the style sheet and
    the metadata file exist, for those that are given.  Unless one of these
    questions raises, it then starts exactly one command, as the last thing
    it does: pandoc on the markdown file with the output file, the format
    epub3, one option for each file found and for no other, and the table of
    contents; it returns exactly when that command returns the code 0. *)
Theorem generate_epub_command (lib : Library) (md_path : Path)
    (cover_path metadata_path css_path : option Path) (out_epub : Path)
    (log0 : list Event) :
  exists res evs,
    generate_epub_from_markdown lib md_path cover_path metadata_path css_path out_epub log0
    = (res, log0 ++ evs)
    /\ written_paths evs = []
    /\ ((commands evs = [] /\ exists e, res = Failed (Raised e))
        \/ exists c s m r,
             let cmd := [PANDOC_CMD; md_path; "-o"; out_epub; "--to"; "epub3"]%string
                        ++ pandoc_option c "--epub-cover-image"%string cover_path
                        ++ pandoc_option s "--css"%string css_path
                        ++ pandoc_option m "--metadata-file"%string metadata_path
                        ++ ["--toc"; "--toc-depth=2"]%string in
             last_event evs = Some (SubprocessRun cmd false r)
             /\ commands evs = [cmd]
             /\ checked evs = given [cover_path; css_path; metadata_path]
             /\ found evs = option_file c cover_path ++ option_file s css_path
                            ++ option_file m metadata_path
             /\ (res = Done tt <-> r = Returns 0)).
Proof.
  unfold generate_epub_from_markdown, io_bind, run_cmd, io_bind, subprocess_run,
    io_raise, io_ret.
  destruct cover_path as [pc|], css_path as [ps|], metadata_path as [pm|];
    cbn [given_and_exists]; unfold path_exists, io_ret, answered;
    repeat match goal with
           | |- context [lib_exists lib ?l ?p] =>
               destruct (lib_exists lib l p) as [[|]|?]
           end;
    try match goal with
        | |- context [lib_run lib ?l ?c ?b] =>
            destruct (lib_run lib l c b) as [code|?];
              [destruct (Z.eqb_spec code 0) as [->|?]|]
        end;
    cbn [andb negb];
    eexists; eexists;
    (split; [rewrite <- ?app_assoc; cbn [app]; reflexivity|]);
    (split; [reflexivity|]);
    first
      [ left; split; [reflexivity | eexists; reflexivity]
      | right; (exists true + exists false); (exists true + exists false);
        (exists true + exists false); eexists;
        cbn [pandoc_option option_file app];
        (split; [reflexivity|]); (split; [reflexivity|]);
        (split; [reflexivity|]); (split; [reflexivity|]);
        split; intros H; first [reflexivity | discriminate | congruence] ].
Qed.

(** ** The validation report *)

Ltac answer_step :=
  match goal with
  | |- context [lib_exists ?lib ?l ?p] =>
      destruct (lib_exists lib l p) as [[|]|[?|?]]
  | |- context [lib_run ?lib ?l ?c ?b] =>
      destruct (lib_run lib l c b) as [?code|[?|?]];
        [destruct (Z.eqb_spec code 0) as [->|?]|..]
  | |- context [lib_read_text ?lib ?l ?p] =>
      destruct (lib_read_text lib l p) as [?text|[?|?]]
  | |- context [json_loads ?lib ?t] =>
      destruct (json_loads lib t) as [[| | | | |?members]|[?|?]]
  | |- context [lib_write_text ?lib ?l ?p ?t] =>
      destruct (lib_write_text lib l p t) as [[]|[?|?]]
  end.

Ltac answer_cases :=
  repeat first
    [ progress cbv beta iota zeta delta [negb andb is_Exception]
    | answer_step ].

(** X25: When the validation returns, the last thing it did is to write the
    report, a JSON object whose member "validated" tells whether epubcheck
    was run: it is false when no command was started, and true when the jar
    was found and the one command started, epubcheck on the EPUB, returned
    the code 0, whether its own report could then be read or not. *)
Theorem validate_epub_report (lib : Library) (epub_path : Path)
    (epubcheck_jar : option string) (report_out : Path) (log0 log : list Event) :
  validate_epub lib epub_path epubcheck_jar report_out log0 = (Done tt, log) ->
  exists evs members,
    log = log0 ++ evs
    /\ last_event evs
       = Some (WriteText report_out (json_dumps lib (JObj members)) (Returns tt))
    /\ ((commands evs = []
         /\ dict_get "validated" members = Some (JBool false))
        \/ (exists jar,
              epubcheck_jar = Some jar /\ found evs = [jar]
              /\ commands evs = [epubcheck_cmd jar epub_path report_out]
              /\ In (SubprocessRun (epubcheck_cmd jar epub_path report_out) false
                       (Returns 0)) evs
              /\ dict_get "validated" members = Some (JBool true))).
Proof.
  unfold validate_epub, io_bind, run_cmd, io_bind, subprocess_run, try_except,
    io_bind, read_text, write_text, setitem, io_raise, io_ret, epubcheck_cmd.
  destruct epubcheck_jar as [[|c jar]|]; cbn [jar_exists];
    unfold path_exists, io_ret, answered; answer_cases;
    intros H; try discriminate H; injection H as <-;
    eexists; eexists;
    (split; [rewrite <- ?app_assoc; cbn [app]; reflexivity|]);
    (split; [reflexivity|]);
    first
      [ left; split; reflexivity
      | right; eexists; split; [reflexivity|]; split; [reflexivity|];
        split; [reflexivity|]; split; [cbn; tauto|];
        first [reflexivity | apply dict_get_set] ].
Qed.

Lemma validate_epub_report_witness :
  exists log evs members,
    validate_epub plain_library "book.epub"%string (Some EPUBCHECK_JAR)
      "report.json"%string [] = (Done tt, log)
    /\ log = [] ++ evs
    /\ last_event evs
       = Some (WriteText "report.json"%string
                 (json_dumps plain_library (JObj members)) (Returns tt)).
Proof.
  assert (H : validate_epub plain_library "book.epub"%string (Some EPUBCHECK_JAR)
                "report.json"%string []
              = (Done tt, snd (validate_epub plain_library "book.epub"%string
                                 (Some EPUBCHECK_JAR) "report.json"%string [])))
    by (vm_compute; reflexivity).
  destruct (validate_epub_report plain_library "book.epub"%string (Some EPUBCHECK_JAR)
              "report.json"%string [] _ H) as (evs & members & H1 & H2 & _).
  eexists. exists evs, members. split; [exact H|]. split; assumption.
Defined.

(** X26: When epubcheck returns a code other than 0, the validation raises the
    [RuntimeError] of [run_cmd] for that command; starting the command is
    then the last thing it did, and it has written no report. *)
Theorem validate_epub_command_failed (lib : Library) (epub_path : Path)
    (epubcheck_jar : option string) (report_out : Path) (log0 : list Event) :
  exists res evs,
    validate_epub lib epub_path epubcheck_jar report_out log0 = (res, log0 ++ evs)
    /\ forall cmd c code,
         In (SubprocessRun cmd c (Returns code)) evs -> code <> 0 ->
         res = Failed (RuntimeError cmd)
         /\ written_paths evs = []
         /\ last_event evs = Some (SubprocessRun cmd c (Returns code)).
Proof.
  unfold validate_epub, io_bind, run_cmd, io_bind, subprocess_run, try_except,
    io_bind, read_text, write_text, setitem, io_raise, io_ret.
  destruct epubcheck_jar as [[|c0 jar]|]; cbn [jar_exists];
    unfold path_exists, io_ret, answered; answer_cases;
    eexists; eexists;
    (split; [rewrite <- ?app_assoc; cbn [app]; reflexivity|]);
    intros cmd' c' code' Hin Hne; cbn [In] in Hin;
    repeat match goal with
           | H : _ \/ _ |- _ => destruct H
           | H : False |- _ => destruct H
           | H : _ = SubprocessRun _ _ _ |- _ =>
               first [discriminate H | injection H as <- <- <-]
           end;
    try contradiction; try (exfalso; apply Hne; reflexivity);
    repeat split; reflexivity.
Qed.
